(** * Identity reconciliation: the contact service over a row store

    A shallow embedding of [src/services/contactService.ts] together with the
    part of the Prisma client it calls ([findMany], [findUnique], [create],
    [update], [$transaction]) over the [Contact] table of [schema.prisma].

    The table is a list of rows in table order.  Timestamps are integers
    (milliseconds).  JavaScript strings are modelled by [string]; the default
    [Array.prototype.sort] order on them is the lexicographic order on
    character codes, [String.leb]. *)

From Stdlib Require Import List ZArith NArith Ascii String Bool Lia Permutation Sorted.
#[local] Set Warnings "-register-all".
Import ListNotations.
Local Open Scope Z_scope.

(** ** Generic helpers: stable sorting and insertion-ordered sets *)

Section StableSort.
Context {A : Type} (le : A -> A -> bool).

Fixpoint insertSorted (x : A) (l : list A) : list A :=
  match l with
  | [] => [x]
  | y :: l' => if le x y then x :: l else y :: insertSorted x l'
  end.

(** [Array.prototype.sort] with a comparator is stable: an element is
    placed before the first later element it does not exceed. *)
Fixpoint stableSort (l : list A) : list A :=
  match l with
  | [] => []
  | x :: l' => insertSorted x (stableSort l')
  end.
End StableSort.

Section InsertionOrderedSet.
Context {A : Type} (eqb : A -> A -> bool).

(** [Set.prototype.add]: a value already present keeps its position. *)
Definition setAdd (l : list A) (x : A) : list A :=
  if existsb (eqb x) l then l else l ++ [x].

(** [new Set(array)]. *)
Definition setOfList (l : list A) : list A := fold_left setAdd l [].
End InsertionOrderedSet.

(** ** schema.prisma *)

Inductive LinkPrecedence := primary | secondary.

Record Contact := mkContact {
  id : Z;
  phoneNumber : option string;
  email : option string;
  linkedId : option Z;
  linkPrecedence : LinkPrecedence;
  createdAt : Z;
  updatedAt : Z;
  deletedAt : option Z
}.

Definition Store := list Contact.

Definition isPrimary (c : Contact) : bool :=
  match linkPrecedence c with primary => true | secondary => false end.

Definition isSecondary (c : Contact) : bool := negb (isPrimary c).

Definition notDeleted (c : Contact) : bool :=
  match deletedAt c with None => true | Some _ => false end.

(** Equality of nullable columns ([===] on [string | null], [number | null]). *)
Definition optStrEqb (a b : option string) : bool :=
  match a, b with
  | Some x, Some y => String.eqb x y
  | None, None => true
  | _, _ => false
  end.

Definition optZEqb (a b : option Z) : bool :=
  match a, b with
  | Some x, Some y => x =? y
  | None, None => true
  | _, _ => false
  end.

(** JavaScript truthiness of [string | null] and [number | null]. *)
Definition truthyStr (o : option string) : bool :=
  match o with
  | Some s => negb (String.eqb s EmptyString)
  | None => false
  end.

Definition truthyNum (o : option Z) : bool :=
  match o with
  | Some n => negb (n =? 0)
  | None => false
  end.

(** [x || null]. *)
Definition orNull (o : option string) : option string :=
  if truthyStr o then o else None.

Definition leCreatedAt (a b : Contact) : bool := createdAt a <=? createdAt b.

(** ** The database, as the service sees it *)

(** The places where the service awaits the database. *)
Inductive DbCall :=
| FindMatching                  (* line 23 *)
| CreateNewPrimary              (* line 38 *)
| FindPrimaryOf (n : nat)       (* line 57, for the n-th matching contact *)
| FindOldestPrimary             (* line 84 *)
| CreateOrphanPrimary           (* line 91 *)
| FindSecondariesOf (i : nat)   (* line 117, at loop index i *)
| FindRelated                   (* line 133 *)
| CreateSecondary               (* line 179 *)
| Transaction                   (* line 188 *)
| Refetch.                      (* line 204 *)

(** What the service cannot decide during one call: the clock behind
    [now()], which of its database calls fail, and in which order each
    query hands out the rows its [orderBy] does not order ([order call]
    ranks the rows; rows of equal rank come in table order). *)
Record Env := mkEnvWith {
  now : Z;
  fails : DbCall -> bool;
  order : DbCall -> Contact -> Z
}.

(** A database in which only the transaction may fail and every query
    hands out rows in table order. *)
Definition mkEnv (now : Z) (txCommits : bool) : Env :=
  mkEnvWith now
    (fun call => match call with
                 | Transaction => negb txCommits
                 | _ => false
                 end)
    (fun _ _ => 0).

(** The rows of a query in the order the database hands them out. *)
Definition handedOut (rank : Contact -> Z) (rows : list Contact)
    : list Contact :=
  stableSort (fun a b => rank a <=? rank b) rows.

(** The answer of an awaited call: an exception, or the result. *)
Definition answered {A : Type} (env : Env) (call : DbCall) (result : A)
    : option A :=
  if fails env call then None else Some result.

(** ** The Prisma client calls made by the service *)

(** [findMany({ where: { OR: [email ? {email} : {}, phoneNumber ?
    {phoneNumber} : {}], deletedAt: null }, orderBy: { createdAt: 'asc' } })].
    An empty condition object contributes no filter to the [OR]; rows that
    agree on [createdAt] come in the order the database chooses. *)
Definition matchesFragment (em ph : option string) (c : Contact) : bool :=
  (truthyStr em && optStrEqb (email c) em)
  || (truthyStr ph && optStrEqb (phoneNumber c) ph).

Definition findMatching (env : Env) (s : Store) (em ph : option string)
    : list Contact :=
  stableSort leCreatedAt
    (handedOut (order env FindMatching)
       (filter (fun c => matchesFragment em ph c && notDeleted c) s)).

(** [findUnique({ where: { id, deletedAt: null } })]. *)
Definition findUnique (s : Store) (i : Z) : option Contact :=
  find (fun c => (id c =? i) && notDeleted c) s.

(** [findMany({ where: { linkedId, deletedAt: null } })], no [orderBy]. *)
Definition findLinkedTo (env : Env) (i : nat) (s : Store) (primaryId : Z)
    : list Contact :=
  handedOut (order env (FindSecondariesOf i))
    (filter (fun c => optZEqb (linkedId c) (Some primaryId) && notDeleted c)
       s).

(** The rows selected by [where: { OR: [{ id }, { linkedId: id }],
    deletedAt: null }], in table order. *)
Definition inGroupOf (i : Z) (c : Contact) : bool :=
  ((id c =? i) || optZEqb (linkedId c) (Some i)) && notDeleted c.

Definition findGroup (s : Store) (i : Z) : list Contact :=
  filter (inGroupOf i) s.

(** [findMany] with that filter and no [orderBy] (line 133). *)
Definition findRelated (env : Env) (s : Store) (i : Z) : list Contact :=
  handedOut (order env FindRelated) (findGroup s i).

(** [@id @default(autoincrement())]. *)
Definition nextId (s : Store) : Z :=
  1 + fold_right (fun c m => Z.max (id c) m) 0 s.

(** [create({ data })]: the store assigns [id], [createdAt] and [updatedAt];
    [linkedId] defaults to null. *)
Definition create (now : Z) (s : Store) (em ph : option string)
    (l : option Z) (p : LinkPrecedence) : Store * Contact :=
  let c := mkContact (nextId s) ph em l p now now None in
  (s ++ [c], c).

(** [update({ where: { id }, data: { email, phoneNumber, linkedId,
    linkPrecedence } })]; fails when no row has the id. *)
Definition writeRow (now : Z) (c r : Contact) : Contact :=
  if id r =? id c
  then mkContact (id r) (phoneNumber c) (email c) (linkedId c)
         (linkPrecedence c) (createdAt r) now (deletedAt r)
  else r.

Definition update (now : Z) (s : Store) (c : Contact) : option Store :=
  if existsb (fun r => id r =? id c) s
  then Some (map (writeRow now c) s)
  else None.

Fixpoint updateAll (now : Z) (s : Store) (l : list Contact) : option Store :=
  match l with
  | [] => Some s
  | c :: l' =>
      match update now s c with
      | Some s' => updateAll now s' l'
      | None => None
      end
  end.

(** [$transaction([...updates])]: every update is applied, or none is. *)
Definition transaction (env : Env) (s : Store) (l : list Contact)
    : option Store :=
  if fails env Transaction then None else updateAll (now env) s l.

(** ** contactService.ts *)

Record IdentifyRequest := mkRequest {
  reqEmail : option string;
  reqPhoneNumber : option string
}.

Record ContactInfo := mkContactInfo {
  primaryContatctId : Z;
  emails : list string;
  phoneNumbers : list string;
  secondaryContactIds : list Z
}.

Record IdentifyResponse := mkResponse { contact : ContactInfo }.

(** The value handed to [res.json]: field names as the object literal has
    them. *)
Inductive Json :=
| JNum (n : Z)
| JStr (s : string)
| JArr (l : list Json)
| JObj (fields : list (string * Json)).

Definition toJson (r : IdentifyResponse) : Json :=
  JObj [("contact"%string,
         JObj [("primaryContatctId"%string, JNum (primaryContatctId (contact r)));
               ("emails"%string, JArr (map JStr (emails (contact r))));
               ("phoneNumbers"%string, JArr (map JStr (phoneNumbers (contact r))));
               ("secondaryContactIds"%string,
                JArr (map JNum (secondaryContactIds (contact r))))])].

Definition keysOf (j : Json) : list string :=
  match j with
  | JObj fields => map fst fields
  | _ => []
  end.

(** *** formatResponse *)

Definition addTruthy (l : list string) (o : option string) : list string :=
  match o with
  | Some x => if truthyStr o then setAdd String.eqb l x else l
  | None => l
  end.

Record Collected := mkCollected {
  colEmails : list string;
  colPhones : list string;
  colIds : list Z
}.

Definition collect (acc : Collected) (c : Contact) : Collected :=
  mkCollected (addTruthy (colEmails acc) (email c))
              (addTruthy (colPhones acc) (phoneNumber c))
              (setAdd Z.eqb (colIds acc) (id c)).

(** [contact.linkedId === primaryContact.id || allContacts.find(c => c.id
    === contact.linkedId && c.linkedId === primaryContact.id)]. *)
Definition linkedToPrimary (primaryContact : Contact)
    (allContacts : list Contact) (c : Contact) : bool :=
  optZEqb (linkedId c) (Some (id primaryContact))
  || existsb (fun c' => optZEqb (Some (id c')) (linkedId c)
                        && optZEqb (linkedId c') (Some (id primaryContact)))
       allContacts.

Definition visit (primaryContact : Contact) (allContacts : list Contact)
    (acc : Collected) (c : Contact) : Collected :=
  if id c =? id primaryContact then acc
  else if linkedToPrimary primaryContact allContacts c then collect acc c
  else if isPrimary c && negb (id c =? id primaryContact) then acc
  else if isSecondary c then collect acc c
  else acc.

Definition primaryFirst (own : option string) (others : list string)
    : list string :=
  (if truthyStr own then match own with Some x => [x] | None => [] end else [])
  ++ stableSort String.leb
       (filter (fun e => negb (optStrEqb (Some e) own)) others).

Definition formatResponse (primaryContact : Contact)
    (allContacts : list Contact) : IdentifyResponse :=
  let start := mkCollected (addTruthy [] (email primaryContact))
                           (addTruthy [] (phoneNumber primaryContact)) [] in
  let acc := fold_left (visit primaryContact allContacts) allContacts start in
  let finalEmails := primaryFirst (email primaryContact) (colEmails acc) in
  let finalPhoneNumbers :=
    primaryFirst (phoneNumber primaryContact) (colPhones acc) in
  mkResponse
    (mkContactInfo (id primaryContact)
       (setOfList String.eqb finalEmails)
       (setOfList String.eqb finalPhoneNumbers)
       (stableSort Z.leb (colIds acc))).

(** *** identifyContact, step by step *)

(** Lines 53-63, for the [n]-th matching contact: a matched primary, or for
    a matched secondary the non-deleted primary its [linkedId] names. *)
Definition primaryOf (env : Env) (s : Store) (n : nat) (c : Contact)
    : option (list Contact) :=
  if isPrimary c then Some [c]
  else if truthyNum (linkedId c) then
    match linkedId c with
    | Some l =>
        match answered env (FindPrimaryOf n) (findUnique s l) with
        | None => None
        | Some (Some p) => Some (if isPrimary p then [p] else [])
        | Some None => Some []
        end
    | None => Some []
    end
  else Some [].

(** Lines 52-64. *)
Fixpoint primaryContactsFrom (env : Env) (s : Store) (n : nat)
    (matching : list Contact) : option (list Contact) :=
  match matching with
  | [] => Some []
  | c :: rest =>
      match primaryOf env s n c with
      | None => None
      | Some found =>
          match primaryContactsFrom env s (S n) rest with
          | None => None
          | Some more => Some (found ++ more)
          end
      end
  end.

Definition primaryContacts (env : Env) (s : Store) (matching : list Contact)
    : option (list Contact) :=
  primaryContactsFrom env s 0 matching.

(** [new Map(entries)]: a key keeps the position of its first insertion and
    the value of its last. *)
Fixpoint mapSet (m : list (Z * Contact)) (k : Z) (v : Contact)
    : list (Z * Contact) :=
  match m with
  | [] => [(k, v)]
  | (k', v') :: m' =>
      if k' =? k then (k', v) :: m' else (k', v') :: mapSet m' k v
  end.

Definition uniqueById (l : list Contact) : list Contact :=
  map snd (fold_left (fun m c => mapSet m (id c) c) l []).

(** Lines 49-68. *)
Definition uniquePrimaryContacts (env : Env) (s : Store)
    (matching : list Contact) : option (list Contact) :=
  match primaryContacts env s matching with
  | None => None
  | Some found => Some (stableSort leCreatedAt (uniqueById found))
  end.

Definition demote (ultimate d : Contact) : Contact :=
  mkContact (id d) (phoneNumber d) (email d) (Some (id ultimate)) secondary
    (createdAt d) (updatedAt d) (deletedAt d).

Definition relink (ultimate c : Contact) : Contact :=
  mkContact (id c) (phoneNumber c) (email c) (Some (id ultimate))
    (linkPrecedence c) (createdAt c) (updatedAt c) (deletedAt c).

(** Lines 109-126, from loop index [i] on. *)
Fixpoint demotionsFrom (env : Env) (s : Store) (ultimate : Contact) (i : nat)
    (rest : list Contact) : option (list Contact) :=
  match rest with
  | [] => Some []
  | d :: rest' =>
      match answered env (FindSecondariesOf i) (findLinkedTo env i s (id d))
      with
      | None => None
      | Some secondariesOfDemoted =>
          match demotionsFrom env s ultimate (S i) rest' with
          | None => None
          | Some more =>
              Some (demote ultimate d
                    :: map (relink ultimate) secondariesOfDemoted ++ more)
          end
      end
  end.

Inductive Plan :=
| CreateFresh
| Proceed (ultimatePrimaryContact : Contact) (contactsToUpdate : list Contact).

(** Lines 49-128; [None] when a database call threw. *)
Definition plan (env : Env) (s : Store) (matching : list Contact)
    : option Plan :=
  match uniquePrimaryContacts env s matching with
  | None => None
  | Some [] =>
      match matching with
      | [] => Some CreateFresh
      | oldest :: _ =>
          if isSecondary oldest && truthyNum (linkedId oldest) then
            match linkedId oldest with
            | Some l =>
                match answered env FindOldestPrimary (findUnique s l) with
                | None => None
                | Some (Some foundPrimary) => Some (Proceed foundPrimary [])
                | Some None => Some CreateFresh
                end
            | None => Some CreateFresh
            end
          else Some (Proceed oldest [])
      end
  | Some (ultimate :: rest) =>
      match demotionsFrom env s ultimate 1 rest with
      | None => None
      | Some contactsToUpdate => Some (Proceed ultimate contactsToUpdate)
      end
  end.

(** Lines 144-155. *)
Fixpoint replaceById (l : list Contact) (u : Contact) : list Contact :=
  match l with
  | [] => []
  | c :: l' => if id c =? id u then u :: l' else c :: replaceById l' u
  end.

Definition reflectUpdates (ultimate : Contact)
    (allRelated contactsToUpdate : list Contact) : list Contact :=
  fold_left (fun acc u => if id u =? id ultimate then acc
                          else replaceById acc u)
    contactsToUpdate allRelated.

(** Lines 133-155, once the query of line 133 has answered. *)
Definition allRelatedContacts (env : Env) (s : Store) (ultimate : Contact)
    (contactsToUpdate : list Contact) : list Contact :=
  reflectUpdates ultimate (findRelated env s (id ultimate)) contactsToUpdate.

Definition truthyValues (l : list (option string)) : list string :=
  flat_map (fun o => if truthyStr o
                     then match o with Some x => [x] | None => [] end
                     else []) l.

Definition existingEmails (related : list Contact) : list string :=
  setOfList String.eqb (truthyValues (map email related)).

Definition existingPhoneNumbers (related : list Contact) : list string :=
  setOfList String.eqb (truthyValues (map phoneNumber related)).

Definition setHas (l : list string) (o : option string) : bool :=
  match o with
  | Some x => existsb (String.eqb x) l
  | None => false
  end.

Definition isNewEmail (related : list Contact) (em : option string) : bool :=
  truthyStr em && negb (setHas (existingEmails related) em).

Definition isNewPhoneNumber (related : list Contact) (ph : option string)
    : bool :=
  truthyStr ph && negb (setHas (existingPhoneNumbers related) ph).

Definition exactMatchExists (related : list Contact) (em ph : option string)
    : bool :=
  existsb (fun c => optStrEqb (email c) (orNull em)
                    && optStrEqb (phoneNumber c) (orNull ph)) related.

(** Lines 166-170: is a new secondary row created? *)
Definition createsSecondary (related : list Contact) (em ph : option string)
    : bool :=
  (truthyStr em || truthyStr ph)
  && (isNewEmail related em || isNewPhoneNumber related ph)
  && negb (exactMatchExists related em ph).

(** Lines 219-223. *)
Definition orElse {A} (a b : option A) : option A :=
  match a with Some _ => a | None => b end.

Definition primaryInFinalGroup (ultimate : Contact)
    (finalGroupContacts : list Contact) : option Contact :=
  orElse (find (fun c => (id c =? id ultimate) && isPrimary c)
            finalGroupContacts)
    (orElse (find isPrimary finalGroupContacts) (hd_error finalGroupContacts)).

(** The rows of the query of lines 204-215, ordered by [createdAt]. *)
Definition finalGroupContacts (env : Env) (s : Store) (ultimate : Contact)
    : list Contact :=
  stableSort leCreatedAt
    (handedOut (order env Refetch) (findGroup s (id ultimate))).

Inductive Outcome :=
| Returned (r : IdentifyResponse)
| Thrown.

(** Lines 38-45 and 91-98. *)
Definition createPrimary (env : Env) (call : DbCall) (s : Store)
    (em ph : option string) : Store * Outcome :=
  if fails env call then (s, Thrown)
  else
    let (s1, newContact) :=
      create (now env) s (orNull em) (orNull ph) None primary in
    (s1, Returned (formatResponse newContact [])).

(** Lines 217-223, once the query of line 204 has answered. *)
Definition readBack (env : Env) (s : Store) (ultimate : Contact)
    : IdentifyResponse :=
  let final := finalGroupContacts env s ultimate in
  let shown := match primaryInFinalGroup ultimate final with
               | Some p => p
               | None => ultimate
               end in
  formatResponse shown final.

(** Lines 131-223, once an ultimate primary is fixed. *)
Definition linkAndRespond (env : Env) (s : Store) (em ph : option string)
    (ultimate : Contact) (contactsToUpdate : list Contact)
    : Store * Outcome :=
  if fails env FindRelated then (s, Thrown)
  else
    let related := allRelatedContacts env s ultimate contactsToUpdate in
    let created :=
      if createsSecondary related em ph then
        if fails env CreateSecondary then None
        else
          let (s', createdSecondary) :=
            create (now env) s (orNull em) (orNull ph) (Some (id ultimate))
              secondary in
          Some (s', contactsToUpdate ++ [createdSecondary])
      else Some (s, contactsToUpdate) in
    match created with
    | None => (s, Thrown)
    | Some (s1, toUpdate) =>
        let written :=
          match toUpdate with
          | [] => Some s1
          | _ => transaction env s1 toUpdate
          end in
        match written with
        | None => (s1, Thrown)
        | Some s2 =>
            if fails env Refetch then (s2, Thrown)
            else (s2, Returned (readBack env s2 ultimate))
        end
    end.

Definition identifyContact (env : Env) (s : Store) (data : IdentifyRequest)
    : Store * Outcome :=
  let em := reqEmail data in
  let ph := reqPhoneNumber data in
  match answered env FindMatching (findMatching env s em ph) with
  | None => (s, Thrown)
  | Some [] => createPrimary env CreateNewPrimary s em ph
  | Some matchingContacts =>
      match plan env s matchingContacts with
      | None => (s, Thrown)
      | Some CreateFresh => createPrimary env CreateOrphanPrimary s em ph
      | Some (Proceed ultimate contactsToUpdate) =>
          linkAndRespond env s em ph ultimate contactsToUpdate
      end
  end.

(** ** Vocabulary of the specification *)

(** The precedence key [(createdAt, id)], compared lexicographically. *)
Definition keyLt (a b : Contact) : Prop :=
  createdAt a < createdAt b \/ (createdAt a = createdAt b /\ id a < id b).

(** A present field of a request or of a row: a non-empty string. *)
Definition present (o : option string) (x : string) : Prop :=
  o = Some x /\ x <> EmptyString.

Definition optList (o : option string) : list string :=
  match o with Some x => [x] | None => [] end.

(** The four names the specification gives the result's top level. *)
Definition specResultKeys : list string :=
  ["primaryContactId"; "emails"; "phoneNumbers"; "secondaryContactIds"]%string.

(** ** Sample rows and requests *)

Definition row (i : Z) (em ph : option string) (l : option Z)
    (p : LinkPrecedence) (t : Z) : Contact :=
  mkContact i ph em l p t t None.

Definition aliceMail : option string := Some "a@x.com"%string.
Definition bobMail : option string := Some "b@x.com"%string.
Definition phone111 : option string := Some "111"%string.
Definition phone222 : option string := Some "222"%string.

(** Two primaries created in the same millisecond and a later-numbered
    secondary of the second one carrying an earlier timestamp. *)
Definition tieStore : Store :=
  [ row 2 None phone222 None primary 5;
    row 3 bobMail None None primary 5;
    row 4 aliceMail None (Some 3) secondary 0 ].

(** Two unrelated primaries, one holding an email, one a phone. *)
Definition twoClusters : Store :=
  [ row 1 aliceMail None None primary 0;
    row 2 None phone111 None primary 1 ].

Definition oneContact : Store :=
  [ row 1 aliceMail phone111 None primary 0 ].

(** A secondary whose primary is gone. *)
Definition orphanStore : Store :=
  [ row 2 aliceMail None (Some 1) secondary 0 ].

(** A primary with one secondary. *)
Definition pairStore : Store :=
  [ row 1 aliceMail None None primary 0;
    row 2 aliceMail phone111 (Some 1) secondary 1 ].

(** Strictly ascending lists: lexicographic order on strings, numeric order
    on ids. *)
Definition ascendingStrings (l : list string) : Prop :=
  Sorted (fun a b => String.ltb a b = true) l.

Definition ascendingIds (l : list Z) : Prop := Sorted Z.lt l.

(** The consolidated list of one field: the primary's own value first when
    present, then every other present value held in the cluster, each once,
    in ascending order. *)
Definition consolidated (own : option string) (field : Contact -> option string)
    (cluster : Contact -> Prop) (out : list string) : Prop :=
  exists others,
    out = optList (orNull own) ++ others
    /\ ascendingStrings others
    /\ (forall e, In e others <->
          e <> EmptyString /\ Some e <> own
          /\ exists c, cluster c /\ field c = Some e)
    /\ NoDup out.

Definition secondariesListed (primaryId : Z) (cluster : Contact -> Prop)
    (out : list Z) : Prop :=
  ascendingIds out
  /\ (forall i, In i out <->
        i <> primaryId /\ exists c, cluster c /\ id c = i)
  /\ NoDup out.

(** A database that hands out rows of equal rank from the highest id down,
    with no failure. *)
Definition backwards (now : Z) : Env :=
  mkEnvWith now (fun _ => false) (fun _ c => - id c).

(** The final cluster of [u] in a store: the non-deleted rows that carry
    the id of [u] or are linked to it. *)
Definition inFinalCluster (s : Store) (u c : Contact) : Prop :=
  In c s /\ deletedAt c = None
  /\ (id c = id u \/ linkedId c = Some (id u)).

(** A matching contact leads to a primary: it is that primary, or a
    secondary linked to it. *)
Definition reaches (c p : Contact) : Prop :=
  (c = p /\ linkPrecedence c = primary)
  \/ (linkPrecedence c = secondary /\ linkedId c = Some (id p)).

(** The primaries a match set resolves to: the stored, non-deleted primaries
    some matching contact leads to. *)
Definition resolvedPrimary (s : Store) (m : list Contact) (p : Contact)
    : Prop :=
  In p s /\ linkPrecedence p = primary /\ deletedAt p = None
  /\ exists c, In c m /\ reaches c p.

(** A database whose last query, the re-fetch of line 204, fails. *)
Definition refetchFails (now : Z) : Env :=
  mkEnvWith now
    (fun call => match call with Refetch => true | _ => false end)
    (fun _ _ => 0).

(** Two primaries created at the same time. *)
Definition tiedPrimaries : Store :=
  [ row 1 aliceMail None None primary 5;
    row 2 None phone111 None primary 5 ].

(** ** Store invariants of the data model *)

(** Ids are unique and positive; a primary has no link; a non-deleted
    secondary points at a non-deleted primary (one hop). *)
Record wellFormed (s : Store) : Prop := mkWellFormed {
  wf_unique : NoDup (map id s);
  wf_positive : forall c, In c s -> 0 < id c;
  wf_primary_unlinked :
    forall c, In c s -> linkPrecedence c = primary -> linkedId c = None;
  wf_one_hop :
    forall c, In c s -> deletedAt c = None -> linkPrecedence c = secondary ->
    exists p, In p s /\ linkedId c = Some (id p)
              /\ linkPrecedence p = primary /\ deletedAt p = None
}.

(** The id of the primary a row belongs to. *)
Definition rootId (c : Contact) : option Z :=
  match linkPrecedence c with
  | primary => Some (id c)
  | secondary => linkedId c
  end.

(** How a row [r] of the store looks, as [r'], once the updates [l] have
    been applied in order: untouched, or carrying the written columns of an
    update addressed to it. *)
Definition rowAfter (l : list Contact) (r r' : Contact) : Prop :=
  id r' = id r /\ createdAt r' = createdAt r /\ deletedAt r' = deletedAt r
  /\ ((r' = r /\ forall c, In c l -> id c <> id r)
      \/ exists c, In c l /\ id c = id r
                   /\ email r' = email c /\ phoneNumber r' = phoneNumber c
                   /\ linkedId r' = linkedId c
                   /\ linkPrecedence r' = linkPrecedence c).

(** The secondary row line 179 creates for a request. *)
Definition createdSecondary (env : Env) (s : Store) (em ph : option string)
    (ultimate : Contact) : Contact :=
  snd (create (now env) s (orNull em) (orNull ph) (Some (id ultimate))
         secondary).

(** What every write of a merge does to its row: link it, as a secondary,
    to the ultimate primary. *)
Definition linksTo (ultimate c : Contact) : Prop :=
  linkedId c = Some (id ultimate) /\ linkPrecedence c = secondary
  /\ id c <> id ultimate.

(** Executable forms of the invariants, for concrete stores. *)
Fixpoint distinctIds (l : list Z) : bool :=
  match l with
  | [] => true
  | x :: l' => negb (existsb (Z.eqb x) l') && distinctIds l'
  end.

Definition oneHopb (s : Store) (c : Contact) : bool :=
  if notDeleted c && isSecondary c
  then existsb (fun p => optZEqb (linkedId c) (Some (id p))
                         && isPrimary p && notDeleted p) s
  else true.

Definition wellFormedb (s : Store) : bool :=
  distinctIds (map id s)
  && forallb (fun c => 0 <? id c) s
  && forallb (fun c => if isPrimary c then optZEqb (linkedId c) None
                       else true) s
  && forallb (oneHopb s) s.

(** The contacts the result builder lists besides the primary. *)
Definition notThePrimary (primaryContact c : Contact) : bool :=
  negb (id c =? id primaryContact).

(** A sequence of calls, each with its own clock and database behaviour,
    run one after the other. *)
Definition identifyAll (calls : list (Env * IdentifyRequest)) (s : Store)
    : Store :=
  fold_left (fun st call => fst (identifyContact (fst call) st (snd call)))
    calls s.

(** Three calls on an empty table; the transaction of the third fails
    after its secondary is created. *)
Definition failedMergeCalls : list (Env * IdentifyRequest) :=
  [ (mkEnv 1 true, mkRequest aliceMail phone111);
    (mkEnv 2 true, mkRequest bobMail phone222);
    (mkEnv 3 false, mkRequest aliceMail phone222) ].

Definition afterFailedMerge : Store := identifyAll failedMergeCalls [].

(** ** The database on a good day *)

(** No database call of the request fails. *)
Definition healthy (env : Env) : Prop := forall call, fails env call = false.

(** The calls that only read. *)
Definition isRead (call : DbCall) : bool :=
  match call with
  | CreateNewPrimary | CreateOrphanPrimary | CreateSecondary | Transaction =>
      false
  | _ => true
  end.

(** No query of the request fails; creations and the transaction may. *)
Definition readsAnswered (env : Env) : Prop :=
  forall call, isRead call = true -> fails env call = false.

(** The same clock and the same row orders, with no failure. *)
Definition calm (env : Env) : Env :=
  mkEnvWith (now env) (fun _ => false) (order env).

(** What lines 53-63 find for one matching contact when the lookup
    answers. *)
Definition resolved (s : Store) (c : Contact) : list Contact :=
  if isPrimary c then [c]
  else if truthyNum (linkedId c) then
    match linkedId c with
    | Some l =>
        match findUnique s l with
        | Some p => if isPrimary p then [p] else []
        | None => []
        end
    | None => []
    end
  else [].

(** The [primaryContacts] array when every lookup answers. *)
Definition resolvedAll (s : Store) (matching : list Contact) : list Contact :=
  flat_map (resolved s) matching.

(** The writes of lines 109-126 for the demoted primaries [rest]: each is
    demoted, and each non-deleted row linked to one of them is re-linked. *)
Definition mergeWrites (s : Store) (ultimate : Contact) (rest : list Contact)
    (c : Contact) : Prop :=
  exists d, In d rest
            /\ (c = demote ultimate d
                \/ exists c0, In c0 s /\ linkedId c0 = Some (id d)
                              /\ notDeleted c0 = true
                              /\ c = relink ultimate c0).

(** ** What a call may and may not change in a row *)

(** The columns no call writes with a new value. *)
Definition contactData (c : Contact)
    : Z * option string * option string * Z * option Z :=
  (id c, email c, phoneNumber c, createdAt c, deletedAt c).

(** [r'] is the row [r] after a call: same data, and a secondary is still a
    secondary. *)
Definition keepsRow (r r' : Contact) : Prop :=
  contactData r' = contactData r
  /\ (linkPrecedence r = secondary -> linkPrecedence r' = secondary).

(** An update taken from a stored row: same id, email and phone, and the
    link precedence either kept or set to secondary. *)
Definition writesBack (s : Store) (c : Contact) : Prop :=
  exists r, In r s /\ id c = id r /\ email c = email r
            /\ phoneNumber c = phoneNumber r
            /\ (linkPrecedence c = secondary
                \/ linkPrecedence c = linkPrecedence r).

(** What the loop of [formatResponse] keeps true of its three sets, whatever
    it is given: no repeats, no empty string, no id of the primary, only ids
    of listed contacts. *)
Definition cleanCollected (primaryContact : Contact)
    (allContacts : list Contact) (acc : Collected) : Prop :=
  NoDup (colIds acc)
  /\ (forall i, In i (colIds acc) ->
        i <> id primaryContact /\ exists c, In c allContacts /\ id c = i)
  /\ (forall e, In e (colEmails acc) -> e <> EmptyString)
  /\ (forall p, In p (colPhones acc) -> p <> EmptyString).

(** ** contactController.ts *)

(** A field of the parsed request body, as far as the controller looks at
    it: absent, null, a string, or any other value (a number, a boolean, an
    array, an object) together with what [String(value)] makes of it:
    a string, or nothing when [String(value)] throws a [TypeError], as it
    does for an object whose [toString] and [valueOf] yield no primitive.
    Characters are code units below 256. *)
Inductive JsValue :=
| JsUndefined
| JsNull
| JsString (s : string)
| JsOther (shown : option string).

(** The two properties the controller reads off [req.body]. *)
Record Body := mkBody { rawEmail : JsValue; rawPhoneNumber : JsValue }.

(** White space and line terminators of [String.prototype.trim]: TAB, LF,
    VT, FF, CR, SP and NBSP. *)
Definition isWhiteSpace (a : ascii) : bool :=
  let n := N_of_ascii a in
  (((9 <=? n) && (n <=? 13)) || (n =? 32) || (n =? 160))%N.

Fixpoint trimStart (s : string) : string :=
  match s with
  | EmptyString => EmptyString
  | String a s' => if isWhiteSpace a then trimStart s' else s
  end.

Fixpoint trimEnd (s : string) : string :=
  match s with
  | EmptyString => EmptyString
  | String a s' =>
      match trimEnd s' with
      | EmptyString => if isWhiteSpace a then EmptyString
                       else String a EmptyString
      | t => String a t
      end
  end.

Definition trim (s : string) : string := trimEnd (trimStart s).

(** [/^\d+$/.test(s)]. *)
Definition isDigit (a : ascii) : bool :=
  let n := N_of_ascii a in ((48 <=? n) && (n <=? 57))%N.

Fixpoint allDigits (s : string) : bool :=
  match s with
  | EmptyString => true
  | String a s' => isDigit a && allDigits s'
  end.

Definition digitsOnly (s : string) : bool :=
  negb (String.eqb s EmptyString) && allDigits s.

(** [String(value)]; [None] when it throws. *)
Definition jsString (v : JsValue) : option string :=
  match v with
  | JsString s => Some s
  | JsOther shown => shown
  | JsNull => Some "null"%string
  | JsUndefined => Some "undefined"%string
  end.

Definition processEmail (rawEmail : JsValue) : option string :=
  match rawEmail with
  | JsString s =>
      if negb (String.eqb (trim s) EmptyString) then Some (trim s) else None
  | _ => None
  end.

(** Lines 83-88; [None] when [String(rawPhoneNumber)] throws. *)
Definition processPhoneNumber (rawPhoneNumber : JsValue)
    : option (option string) :=
  match rawPhoneNumber with
  | JsNull | JsUndefined => Some None
  | _ =>
      match jsString rawPhoneNumber with
      | None => None
      | Some shown =>
          let trimmed := trim shown in
          Some (if digitsOnly trimmed then Some trimmed else None)
      end
  end.

(** How the handler ends: with a response it sent, or with an exception
    thrown before its [try], which leaves the handler with no response
    sent. *)
Inductive HttpResponse :=
| Status200 (result : IdentifyResponse)
| Status400 (error : string)
| Status500
| Escaped.

Definition badRequestMessage : string :=
  "Either email or phoneNumber must be provided, and they cannot be empty or whitespace only. phoneNumber must be digit only".

(** The request the controller hands to the service, when processing the
    body does not throw. *)
Definition processed (body : Body) : option IdentifyRequest :=
  match processPhoneNumber (rawPhoneNumber body) with
  | None => None
  | Some phoneNumber =>
      Some (mkRequest (processEmail (rawEmail body)) phoneNumber)
  end.

(** The handler; [reqBody] is [req.body], [None] when it is undefined or
    null, on which the destructuring of line 75 throws. *)
Definition identify (env : Env) (s : Store) (reqBody : option Body)
    : Store * HttpResponse :=
  match reqBody with
  | None => (s, Escaped)
  | Some body =>
      let email := processEmail (rawEmail body) in
      match processPhoneNumber (rawPhoneNumber body) with
      | None => (s, Escaped)
      | Some phoneNumber =>
          if negb (truthyStr email) && negb (truthyStr phoneNumber)
          then (s, Status400 badRequestMessage)
          else
            match identifyContact env s (mkRequest email phoneNumber) with
            | (s', Returned result) => (s', Status200 result)
            | (s', Thrown) => (s', Status500)
            end
      end
  end.

(** What the controller guarantees of a request it lets through. *)
Definition validRequest (data : IdentifyRequest) : Prop :=
  (reqEmail data <> None \/ reqPhoneNumber data <> None)
  /\ (forall e, reqEmail data = Some e -> e <> EmptyString /\ trim e = e)
  /\ (forall p, reqPhoneNumber data = Some p -> digitsOnly p = true).

(** The body a client could have sent instead: the processed values
    themselves; a phone number on which [String] throws stays as it is. *)
Definition canonicalValue (o : option string) : JsValue :=
  match o with
  | Some x => JsString x
  | None => JsNull
  end.

Definition canonical (body : Body) : Body :=
  mkBody (canonicalValue (processEmail (rawEmail body)))
         (match processPhoneNumber (rawPhoneNumber body) with
          | Some phoneNumber => canonicalValue phoneNumber
          | None => rawPhoneNumber body
          end).

(** A row the controller could have caused: some field is set, a set email
    is non-empty and trimmed, a set phone number is all digits. *)
Definition storable (c : Contact) : Prop :=
  (email c <> None \/ phoneNumber c <> None)
  /\ (forall e, email c = Some e -> e <> EmptyString /\ trim e = e)
  /\ (forall p, phoneNumber c = Some p -> digitsOnly p = true).

(** A sequence of requests served one after the other. *)
Definition serveAll (calls : list (Env * option Body)) (s : Store) : Store :=
  fold_left (fun st call => fst (identify (fst call) st (snd call))) calls s.

(** * Lemmas on the helpers *)

Section StableSortFacts.
Context {A : Type} (le : A -> A -> bool).

Lemma insertSorted_perm x l : Permutation (x :: l) (insertSorted le x l).
Proof.
  induction l as [|y l IH]; cbn; [reflexivity|].
  destruct (le x y); [reflexivity|].
  rewrite perm_swap. now constructor.
Qed.

Lemma stableSort_perm l : Permutation l (stableSort le l).
Proof.
  induction l as [|x l IH]; cbn; [constructor|].
  rewrite <- insertSorted_perm. now constructor.
Qed.

Lemma stableSort_In x l : In x (stableSort le l) <-> In x l.
Proof.
  split; apply Permutation_in;
    [symmetry|]; apply stableSort_perm.
Qed.

Lemma stableSort_nil_inv l : stableSort le l = [] -> l = [].
Proof.
  intros H. apply Permutation_nil. rewrite <- H. symmetry.
  apply stableSort_perm.
Qed.


Lemma stableSort_NoDup_map {B} (f : A -> B) l :
  NoDup (map f l) -> NoDup (map f (stableSort le l)).
Proof.
  apply Permutation_NoDup, Permutation_map, stableSort_perm.
Qed.
End StableSortFacts.

(** Sorting by an integer key puts the keys in ascending order. *)
Section SortByKey.
Context {A : Type} (key : A -> Z).

Let le (a b : A) : bool := key a <=? key b.


Lemma stableSort_key_sorted l :
  StronglySorted (fun a b => key a <= key b) (stableSort le l).
Proof.
  induction l as [|x l IH]; cbn; [constructor|].
  revert IH. generalize (stableSort le l). clear l.
  induction l as [|y l IH]; intros Hs; cbn.
  - repeat constructor.
  - inversion Hs as [|? ? Hsl Hyl]; subst.
    unfold le at 1. destruct (Z.leb_spec (key x) (key y)) as [Hle|Hgt].
    + constructor; [assumption|]. constructor; [assumption|].
      rewrite Forall_forall in *. intros z Hz. specialize (Hyl z Hz). lia.
    + constructor; [apply IH; assumption|].
      rewrite Forall_forall in *. intros z Hz.
      apply (Permutation_in _ (Permutation_sym (insertSorted_perm le x l)))
        in Hz.
      destruct Hz as [<-|Hz]; [lia | auto].
Qed.
End SortByKey.


(** ** Nullable columns *)

Lemma optStrEqb_eq a b : optStrEqb a b = true <-> a = b.
Proof.
  destruct a, b; cbn; try (split; congruence).
  rewrite String.eqb_eq. split; congruence.
Qed.

Lemma optZEqb_eq a b : optZEqb a b = true <-> a = b.
Proof.
  destruct a, b; cbn; try (split; congruence).
  rewrite Z.eqb_eq. split; congruence.
Qed.

Lemma truthyStr_present o : truthyStr o = true <-> exists x, present o x.
Proof.
  unfold truthyStr, present. destruct o as [x|].
  - rewrite negb_true_iff, String.eqb_neq. split.
    + intros H. exists x. auto.
    + intros (y & [= <-] & H). exact H.
  - split; [discriminate | intros (y & [=] & _)].
Qed.

Lemma notDeleted_iff c : notDeleted c = true <-> deletedAt c = None.
Proof. unfold notDeleted. destruct (deletedAt c); split; congruence. Qed.

Lemma matchesFragment_iff em ph c :
  matchesFragment em ph c = true <->
  (exists e, present em e /\ email c = Some e)
  \/ (exists p, present ph p /\ phoneNumber c = Some p).
Proof.
  unfold matchesFragment.
  rewrite orb_true_iff, !andb_true_iff, !truthyStr_present, !optStrEqb_eq.
  unfold present.
  split; (intros [H|H]; [left|right]).
  - destruct H as ((x & Hx & Hn) & He). exists x. subst. auto.
  - destruct H as ((x & Hx & Hn) & He). exists x. subst. auto.
  - destruct H as (x & (Hx & Hn) & He). subst. split; eauto; congruence.
  - destruct H as (x & (Hx & Hn) & He). subst. split; eauto; congruence.
Qed.

(** A list in strictly ascending order is determined by its members. *)
Lemma StronglySorted_unique {A} (lt : A -> A -> Prop) :
  (forall x y, lt x y -> lt y x -> False) ->
  forall l1 l2,
    StronglySorted lt l1 -> StronglySorted lt l2 ->
    (forall x, In x l1 <-> In x l2) -> l1 = l2.
Proof.
  intros Hasym. induction l1 as [|x l1 IH]; intros [|y l2] H1 H2 Hin.
  - reflexivity.
  - destruct (proj2 (Hin y) (or_introl eq_refl)).
  - destruct (proj1 (Hin x) (or_introl eq_refl)).
  - apply StronglySorted_inv in H1, H2.
    destruct H1 as (H1 & Hx), H2 as (H2 & Hy).
    rewrite Forall_forall in Hx, Hy.
    assert (x = y).
    { destruct (proj1 (Hin x) (or_introl eq_refl)) as [E|Hxy]; [auto|].
      destruct (proj2 (Hin y) (or_introl eq_refl)) as [E|Hyx]; [auto|].
      exfalso. eauto. }
    subst y. f_equal. apply IH; auto.
    intros z. split; intros Hz.
    + destruct (proj1 (Hin z) (or_intror Hz)) as [<-|]; [|assumption].
      exfalso. eauto.
    + destruct (proj2 (Hin z) (or_intror Hz)) as [<-|]; [|assumption].
      exfalso. eauto.
Qed.

Lemma StronglySorted_strict_keys {A} (key : A -> Z) l :
  StronglySorted (fun a b => key a <= key b) l -> NoDup (map key l) ->
  StronglySorted (fun a b => key a < key b) l.
Proof.
  induction 1 as [|x l Hl IH Hx]; intros Hnd; constructor.
  - apply IH. now inversion Hnd.
  - rewrite Forall_forall in *. intros y Hy. specialize (Hx y Hy).
    assert (key x <> key y); [|lia].
    inversion Hnd as [|? ? Hnot _]; subst. intros E. apply Hnot.
    rewrite E. now apply in_map.
Qed.

(** * Lemmas on the store *)

Lemma Forall2_In_l {A B} (R : A -> B -> Prop) l l' a :
  Forall2 R l l' -> In a l -> exists b, In b l' /\ R a b.
Proof.
  induction 1 as [|x y l l' Hxy _ IH]; intros Hin; [destruct Hin|].
  destruct Hin as [<-|Hin].
  - exists y. split; [now left | assumption].
  - destruct (IH Hin) as (b & Hb & Hab). exists b. split; [now right|assumption].
Qed.

Lemma Forall2_In_r {A B} (R : A -> B -> Prop) l l' b :
  Forall2 R l l' -> In b l' -> exists a, In a l /\ R a b.
Proof.
  induction 1 as [|x y l l' Hxy _ IH]; intros Hin; [destruct Hin|].
  destruct Hin as [<-|Hin].
  - exists x. split; [now left | assumption].
  - destruct (IH Hin) as (a & Ha & Hab). exists a. split; [now right|assumption].
Qed.

Lemma NoDup_map_id_inj (s : Store) a b :
  NoDup (map id s) -> In a s -> In b s -> id a = id b -> a = b.
Proof.
  induction s as [|x s IH]; cbn; intros Hnd Ha Hb Hab; [destruct Ha|].
  inversion Hnd as [|? ? Hx Hnd']; subst.
  destruct Ha as [<-|Ha], Hb as [<-|Hb]; auto.
  - exfalso. apply Hx. rewrite Hab. now apply in_map.
  - exfalso. apply Hx. rewrite <- Hab. now apply in_map.
Qed.

Lemma writeRow_id now c r : id (writeRow now c r) = id r.
Proof. unfold writeRow. destruct (id r =? id c); reflexivity. Qed.

Lemma map_writeRow_ids now c s : map id (map (writeRow now c) s) = map id s.
Proof.
  rewrite map_map. apply map_ext. intros; apply writeRow_id.
Qed.

Lemma update_ids now s c s' : update now s c = Some s' -> map id s' = map id s.
Proof.
  unfold update. destruct (existsb _ s); [|discriminate].
  intros [= <-]. apply map_writeRow_ids.
Qed.

Lemma updateAll_ids now l : forall s s',
  updateAll now s l = Some s' -> map id s' = map id s.
Proof.
  induction l as [|c l IH]; cbn; intros s s' H.
  - now injection H as <-.
  - destruct (update now s c) as [s1|] eqn:E; [|discriminate].
    rewrite (IH _ _ H). eapply update_ids, E.
Qed.

Lemma update_defined now s c :
  In (id c) (map id s) -> update now s c = Some (map (writeRow now c) s).
Proof.
  intros Hin. unfold update.
  replace (existsb _ s) with true; [reflexivity|].
  symmetry. apply existsb_exists. apply in_map_iff in Hin.
  destruct Hin as (r & Hr & Hin). exists r. split; [assumption|].
  now apply Z.eqb_eq.
Qed.

Lemma updateAll_defined now l : forall s,
  (forall c, In c l -> In (id c) (map id s)) ->
  exists s', updateAll now s l = Some s'.
Proof.
  induction l as [|c l IH]; cbn; intros s H; [eauto|].
  rewrite (update_defined now s c) by auto.
  apply IH. intros c' Hc'. rewrite map_writeRow_ids. auto.
Qed.

Lemma rowAfter_refl r : rowAfter [] r r.
Proof. unfold rowAfter. intuition. Qed.

Lemma rowAfter_step now c l r r' :
  rowAfter l (writeRow now c r) r' -> rowAfter (c :: l) r r'.
Proof.
  unfold rowAfter, writeRow.
  destruct (Z.eqb_spec (id r) (id c)) as [E|E]; cbn.
  - intros (Hi & Hc & Hd & [[-> Hno]|(c' & Hin & He & Hrest)]).
    + repeat split; auto. right. exists c. cbn. intuition.
    + repeat split; auto. right. exists c'. cbn. intuition.
  - intros (Hi & Hc & Hd & [[-> Hno]|(c' & Hin & He & Hrest)]).
    + repeat split; auto. left. split; [reflexivity|].
      intros c' [<-|Hin]; auto.
    + repeat split; auto. right. exists c'. cbn. intuition.
Qed.

Lemma updateAll_rows now l : forall s s',
  updateAll now s l = Some s' -> Forall2 (rowAfter l) s s'.
Proof.
  induction l as [|c l IH]; cbn; intros s s' H.
  - injection H as <-. induction s; constructor; auto using rowAfter_refl.
  - destruct (update now s c) as [s1|] eqn:E; [|discriminate].
    specialize (IH _ _ H). unfold update in E.
    destruct (existsb _ s); [|discriminate]. injection E as <-.
    clear H. revert s' IH. induction s as [|r s IHs]; cbn; intros s' IH.
    + inversion IH. constructor.
    + inversion IH as [|? r' ? s'' Hr Hs]; subst.
      constructor; [eapply rowAfter_step, Hr | apply IHs, Hs].
Qed.

(** A non-deleted row keeps its place in the table through any updates. *)
Lemma updateAll_keeps_live now l s s' c :
  updateAll now s l = Some s' -> In c s -> notDeleted c = true ->
  exists c', In c' s' /\ id c' = id c /\ notDeleted c' = true.
Proof.
  intros H Hin Hl.
  destruct (Forall2_In_l _ _ _ _ (updateAll_rows _ _ _ _ H) Hin)
    as (c' & Hc' & Hi & _ & Hd & _).
  exists c'. repeat split; auto. unfold notDeleted in *. now rewrite Hd.
Qed.

Lemma nextId_above s c : In c s -> id c < nextId s.
Proof.
  unfold nextId. induction s as [|x s IH]; cbn [fold_right In];
    intros Hin; [destruct Hin|].
  destruct Hin as [<-|Hin]; [lia|]. specialize (IH Hin). lia.
Qed.

Lemma nextId_positive s : 0 < nextId s.
Proof.
  unfold nextId. induction s as [|x s IH]; cbn [fold_right]; lia.
Qed.

Lemma nextId_fresh s : ~ In (nextId s) (map id s).
Proof.
  intros Hin. apply in_map_iff in Hin. destruct Hin as (c & Hc & Hin).
  apply nextId_above in Hin. lia.
Qed.

Lemma findUnique_Some s i p :
  findUnique s i = Some p -> In p s /\ id p = i /\ notDeleted p = true.
Proof.
  unfold findUnique. intros H. pose proof (find_some _ _ H) as (Hin & Hb).
  apply andb_true_iff in Hb. destruct Hb as (Hi & Hd).
  apply Z.eqb_eq in Hi. auto.
Qed.

Lemma findUnique_found s p :
  NoDup (map id s) -> In p s -> notDeleted p = true ->
  findUnique s (id p) = Some p.
Proof.
  intros Hnd Hin Hl. unfold findUnique.
  destruct (find _ s) as [q|] eqn:E.
  - pose proof (find_some _ _ E) as (Hq & Hb).
    apply andb_true_iff in Hb. destruct Hb as (Hi & _). apply Z.eqb_eq in Hi.
    f_equal. eapply NoDup_map_id_inj; eauto.
  - pose proof (find_none _ _ E p Hin) as Hb. cbn in Hb.
    rewrite Z.eqb_refl, Hl in Hb. discriminate.
Qed.

Lemma handedOut_In rank rows c : In c (handedOut rank rows) <-> In c rows.
Proof. unfold handedOut. apply stableSort_In. Qed.

Lemma handedOut_perm rank rows : Permutation rows (handedOut rank rows).
Proof. unfold handedOut. apply stableSort_perm. Qed.

Lemma findLinkedTo_In env n s i c :
  In c (findLinkedTo env n s i) <->
  In c s /\ linkedId c = Some i /\ notDeleted c = true.
Proof.
  unfold findLinkedTo.
  rewrite handedOut_In, filter_In, andb_true_iff, optZEqb_eq. tauto.
Qed.

Lemma findGroup_In s i c :
  In c (findGroup s i) <->
  In c s /\ (id c = i \/ linkedId c = Some i) /\ notDeleted c = true.
Proof.
  unfold findGroup, inGroupOf.
  rewrite filter_In, andb_true_iff, orb_true_iff, optZEqb_eq, Z.eqb_eq. tauto.
Qed.

Lemma findRelated_In env s i c :
  In c (findRelated env s i) <-> In c (findGroup s i).
Proof. unfold findRelated. apply handedOut_In. Qed.

Lemma finalGroupContacts_In env s u c :
  In c (finalGroupContacts env s u) <->
  In c s /\ (id c = id u \/ linkedId c = Some (id u)) /\ notDeleted c = true.
Proof.
  unfold finalGroupContacts. rewrite stableSort_In, handedOut_In.
  apply findGroup_In.
Qed.

Lemma findMatching_In env s em ph c :
  In c (findMatching env s em ph) <->
  In c s /\ matchesFragment em ph c = true /\ notDeleted c = true.
Proof.
  unfold findMatching.
  rewrite stableSort_In, handedOut_In, filter_In, andb_true_iff.
  tauto.
Qed.

Lemma healthy_mkEnv t : healthy (mkEnv t true).
Proof. intros []; reflexivity. Qed.


(** * Lemmas on the service steps *)

Lemma mapSet_In m k v kv :
  In kv (mapSet m k v) -> kv = (k, v) \/ In kv m.
Proof.
  induction m as [|[k' v'] m IH]; cbn; [intuition|].
  destruct (k' =? k) eqn:E; cbn.
  - apply Z.eqb_eq in E. subst. intuition.
  - intuition.
Qed.

Lemma mapSet_keys m k v :
  map fst (mapSet m k v) =
  if existsb (Z.eqb k) (map fst m) then map fst m else map fst m ++ [k].
Proof.
  induction m as [|[k' v'] m IH]; cbn; [reflexivity|].
  rewrite (Z.eqb_sym k k'). destruct (k' =? k); cbn; [reflexivity|].
  rewrite IH. destruct (existsb _ _); reflexivity.
Qed.

Lemma mapSet_keys_NoDup m k v :
  NoDup (map fst m) -> NoDup (map fst (mapSet m k v)).
Proof.
  intros Hnd. rewrite mapSet_keys.
  destruct (existsb _ _) eqn:E; [assumption|].
  apply NoDup_app; [assumption | repeat constructor; intros [] |].
  intros x Hx [Hk|[]]. subst x.
  assert (existsb (Z.eqb k) (map fst m) = true); [|congruence].
  apply existsb_exists. exists k. split; [assumption | apply Z.eqb_refl].
Qed.

Lemma mapSet_has_key m k v : In k (map fst (mapSet m k v)).
Proof.
  rewrite mapSet_keys. destruct (existsb _ _) eqn:E.
  - apply existsb_exists in E. destruct E as (x & Hx & E).
    apply Z.eqb_eq in E. now subst.
  - apply in_or_app. right. now left.
Qed.

Lemma mapSet_keeps_keys m k v k' :
  In k' (map fst m) -> In k' (map fst (mapSet m k v)).
Proof.
  rewrite mapSet_keys. destruct (existsb _ _); [auto|].
  intros. apply in_or_app. now left.
Qed.

Lemma uniqueById_fold l : forall m,
  NoDup (map fst m) ->
  (forall kv, In kv m -> fst kv = id (snd kv)) ->
  let m' := fold_left (fun m c => mapSet m (id c) c) l m in
  NoDup (map fst m')
  /\ (forall kv, In kv m' -> fst kv = id (snd kv)
                             /\ (In kv m \/ In (snd kv) l))
  /\ (forall k, In k (map fst m) \/ In k (map id l) -> In k (map fst m')).
Proof.
  induction l as [|c l IH]; cbn; intros m Hnd Hkv.
  - repeat split; auto. intros k [H|[]]. exact H.
  - destruct (IH (mapSet m (id c) c)) as (H1 & H2 & H3).
    + now apply mapSet_keys_NoDup.
    + intros kv Hin. apply mapSet_In in Hin. destruct Hin as [->|Hin]; auto.
    + split; [exact H1|]. split.
      * intros kv Hin. destruct (H2 kv Hin) as (Hk & [Hm|Hl]).
        -- split; [exact Hk|]. apply mapSet_In in Hm.
           destruct Hm as [->|Hm]; cbn; auto.
        -- auto.
      * intros k [Hk|[<-|Hk]]; apply H3.
        -- left. now apply mapSet_keeps_keys.
        -- left. apply mapSet_has_key.
        -- now right.
Qed.

Lemma uniqueById_ids l : map id (uniqueById l) =
  map fst (fold_left (fun m c => mapSet m (id c) c) l []).
Proof.
  unfold uniqueById. rewrite map_map.
  destruct (uniqueById_fold l [] (NoDup_nil _)) as (_ & H & _);
    [intros ? []|].
  apply map_ext_in. intros kv Hin. symmetry. apply H, Hin.
Qed.

Lemma uniqueById_NoDup l : NoDup (map id (uniqueById l)).
Proof.
  rewrite uniqueById_ids.
  apply (uniqueById_fold l [] (NoDup_nil _)). intros ? [].
Qed.

Lemma uniqueById_In l x : In x (uniqueById l) -> In x l.
Proof.
  unfold uniqueById. intros Hin. apply in_map_iff in Hin.
  destruct Hin as (kv & <- & Hin).
  destruct (uniqueById_fold l [] (NoDup_nil _)) as (_ & H & _);
    [intros ? []|].
  destruct (H kv Hin) as (_ & [[]|Hl]). exact Hl.
Qed.

Lemma uniqueById_covers l x :
  In x l -> exists y, In y (uniqueById l) /\ id y = id x.
Proof.
  intros Hin.
  destruct (uniqueById_fold l [] (NoDup_nil _)) as (_ & _ & H);
    [intros ? []|].
  assert (Hk : In (id x) (map id (uniqueById l))).
  { rewrite uniqueById_ids. apply H. right. now apply in_map. }
  apply in_map_iff in Hk. destruct Hk as (y & Hy & Hk). eauto.
Qed.

Lemma resolved_In s c p :
  In p (resolved s c) ->
  isPrimary p = true
  /\ ((p = c /\ isPrimary c = true)
      \/ (isPrimary c = false /\ linkedId c = Some (id p) /\ id p <> 0
          /\ In p s /\ notDeleted p = true)).
Proof.
  unfold resolved. destruct (isPrimary c) eqn:Ec.
  - intros [<-|[]]. auto.
  - destruct (linkedId c) as [l|] eqn:El; cbn; [|destruct 1].
    destruct (Z.eqb_spec l 0) as [E0|E0]; cbn; [destruct 1|].
    destruct (findUnique s l) as [q|] eqn:Ef; [|destruct 1].
    destruct (isPrimary q) eqn:Eq; [|destruct 1].
    intros [<-|[]]. apply findUnique_Some in Ef.
    destruct Ef as (Hin & Hid & Hl). subst l. intuition.
Qed.

Lemma resolvedAll_In s m p :
  In p (resolvedAll s m) <-> exists c, In c m /\ In p (resolved s c).
Proof. unfold resolvedAll. apply in_flat_map. Qed.

Lemma resolvedAll_live s m p :
  (forall c, In c m -> In c s /\ notDeleted c = true) ->
  In p (resolvedAll s m) ->
  In p s /\ notDeleted p = true /\ isPrimary p = true.
Proof.
  intros Hm Hp. apply resolvedAll_In in Hp. destruct Hp as (c & Hc & Hp).
  apply resolved_In in Hp. destruct Hp as (Hprim & [[-> _]|H]).
  - destruct (Hm c Hc). auto.
  - intuition.
Qed.

(** ** The code's loops, when their database calls answer *)

Lemma primaryOf_Some env s n c l :
  primaryOf env s n c = Some l -> l = resolved s c.
Proof.
  unfold primaryOf, resolved, answered.
  destruct (isPrimary c); [congruence|].
  destruct (truthyNum (linkedId c)); [|congruence].
  destruct (linkedId c) as [i|]; [|congruence].
  destruct (fails env (FindPrimaryOf n)); [discriminate|].
  destruct (findUnique s i); congruence.
Qed.

Lemma primaryOf_answered env s n c :
  fails env (FindPrimaryOf n) = false ->
  primaryOf env s n c = Some (resolved s c).
Proof.
  intros Hf. unfold primaryOf, resolved, answered. rewrite Hf.
  destruct (isPrimary c); [reflexivity|].
  destruct (truthyNum (linkedId c)); [|reflexivity].
  destruct (linkedId c) as [i|]; [|reflexivity].
  destruct (findUnique s i); reflexivity.
Qed.

Lemma primaryContactsFrom_Some env s m : forall n l,
  primaryContactsFrom env s n m = Some l -> l = resolvedAll s m.
Proof.
  induction m as [|c m IH]; cbn; intros n l H; [congruence|].
  destruct (primaryOf env s n c) as [found|] eqn:E; [|discriminate].
  destruct (primaryContactsFrom env s (S n) m) as [more|] eqn:Em;
    [|discriminate].
  injection H as <-. apply primaryOf_Some in E. apply IH in Em.
  now subst.
Qed.

Lemma primaryContactsFrom_answered env s m : forall n,
  (forall k, fails env (FindPrimaryOf k) = false) ->
  primaryContactsFrom env s n m = Some (resolvedAll s m).
Proof.
  induction m as [|c m IH]; cbn; intros n H; [reflexivity|].
  now rewrite (primaryOf_answered env s n c (H n)), (IH (S n) H).
Qed.

Lemma uniquePrimaryContacts_Some env s m l :
  uniquePrimaryContacts env s m = Some l ->
  l = stableSort leCreatedAt (uniqueById (resolvedAll s m)).
Proof.
  unfold uniquePrimaryContacts, primaryContacts.
  destruct (primaryContactsFrom env s 0 m) as [found|] eqn:E;
    [|discriminate].
  intros [= <-]. now rewrite (primaryContactsFrom_Some _ _ _ _ _ E).
Qed.

Lemma uniquePrimaryContacts_answered env s m :
  (forall k, fails env (FindPrimaryOf k) = false) ->
  uniquePrimaryContacts env s m
  = Some (stableSort leCreatedAt (uniqueById (resolvedAll s m))).
Proof.
  intros H. unfold uniquePrimaryContacts, primaryContacts.
  now rewrite (primaryContactsFrom_answered env s m 0 H).
Qed.

Lemma uniquePrimaryContacts_In env s m l p :
  uniquePrimaryContacts env s m = Some l -> In p l ->
  In p (resolvedAll s m).
Proof.
  intros H Hp. apply uniquePrimaryContacts_Some in H. subst l.
  apply stableSort_In in Hp. now apply uniqueById_In.
Qed.

Lemma uniquePrimaryContacts_NoDup env s m l :
  uniquePrimaryContacts env s m = Some l -> NoDup (map id l).
Proof.
  intros H. apply uniquePrimaryContacts_Some in H. subst l.
  apply stableSort_NoDup_map, uniqueById_NoDup.
Qed.

Lemma demotionsFrom_Some env s u rest : forall i upd,
  demotionsFrom env s u i rest = Some upd ->
  forall c, In c upd <-> mergeWrites s u rest c.
Proof.
  unfold mergeWrites.
  induction rest as [|d rest IH]; cbn; intros i upd H c.
  - injection H as <-. split; [intros [] | intros (d & [] & _)].
  - unfold answered in H.
    destruct (fails env (FindSecondariesOf i)); [discriminate|].
    destruct (demotionsFrom env s u (S i) rest) as [more|] eqn:E;
      [|discriminate].
    injection H as <-. specialize (IH _ _ E c). cbn [In].
    rewrite in_app_iff, in_map_iff, IH. split.
    + intros [<-|[(c0 & <- & Hc0)|(d' & Hd' & H)]].
      * exists d. auto.
      * apply findLinkedTo_In in Hc0. exists d. split; [now left|].
        right. exists c0. tauto.
      * exists d'. auto.
    + intros (d' & [<-|Hd'] & [->|(c0 & Hc0 & Hl & Hn & ->)]).
      * now left.
      * right. left. exists c0. split; [reflexivity|].
        apply findLinkedTo_In. auto.
      * right. right. exists d'. auto.
      * right. right. exists d'. split; [assumption|]. right.
        exists c0. auto.
Qed.

Lemma demotionsFrom_answered env s u rest : forall i,
  (forall k, fails env (FindSecondariesOf k) = false) ->
  exists upd, demotionsFrom env s u i rest = Some upd.
Proof.
  induction rest as [|d rest IH]; cbn; intros i H; [eauto|].
  unfold answered. rewrite (H i).
  destruct (IH (S i) H) as (more & ->). eauto.
Qed.


Lemma findMatching_live env s em ph c :
  In c (findMatching env s em ph) -> In c s /\ notDeleted c = true.
Proof. rewrite findMatching_In. tauto. Qed.

(** The ultimate primary of a plan is a non-deleted row of the store. *)
Lemma plan_Proceed_live env s m u upd :
  (forall c, In c m -> In c s /\ notDeleted c = true) ->
  plan env s m = Some (Proceed u upd) -> In u s /\ notDeleted u = true.
Proof.
  intros Hm. unfold plan.
  destruct (uniquePrimaryContacts env s m) as [[|u0 rest]|] eqn:Eu;
    [| |discriminate].
  - destruct m as [|oldest m']; [discriminate|].
    destruct (isSecondary oldest && truthyNum (linkedId oldest)).
    + destruct (linkedId oldest) as [l|]; [|discriminate].
      unfold answered. destruct (fails env FindOldestPrimary);
        [discriminate|].
      destruct (findUnique s l) as [q|] eqn:Ef; [|discriminate].
      intros [= <- _]. apply findUnique_Some in Ef. tauto.
    + intros [= <- _]. apply Hm. now left.
  - destruct (demotionsFrom env s u0 1 rest); [|discriminate].
    intros [= <- _].
    assert (Hin : In u0 (resolvedAll s m))
      by (eapply uniquePrimaryContacts_In; eauto; now left).
    destruct (resolvedAll_live s m u0 Hm Hin). tauto.
Qed.

(** With a primary resolved, the plan is to proceed with the head of the
    sorted primaries and the merge writes for the others. *)
Lemma plan_merge env s m u rest pl :
  uniquePrimaryContacts env s m = Some (u :: rest) ->
  plan env s m = Some pl ->
  exists upd, pl = Proceed u upd
              /\ forall c, In c upd <-> mergeWrites s u rest c.
Proof.
  intros Hres. unfold plan. rewrite Hres.
  destruct (demotionsFrom env s u 1 rest) as [upd|] eqn:E; [|discriminate].
  intros [= <-]. exists upd. split; [reflexivity|].
  eapply demotionsFrom_Some; eauto.
Qed.

Lemma plan_merge_answered env s m u rest :
  uniquePrimaryContacts env s m = Some (u :: rest) ->
  (forall k, fails env (FindSecondariesOf k) = false) ->
  exists upd, plan env s m = Some (Proceed u upd).
Proof.
  intros Hres H. unfold plan. rewrite Hres.
  destruct (demotionsFrom_answered env s u rest 1 H) as (upd & ->). eauto.
Qed.

Lemma plan_single env s m u :
  uniquePrimaryContacts env s m = Some [u] ->
  plan env s m = Some (Proceed u []).
Proof. intros Hres. unfold plan. now rewrite Hres. Qed.

(** The ways [linkAndRespond] ends: before any write; with the new row
    written and the transaction failed; or with every write applied, and
    then with the response or with a failed re-fetch. *)
Lemma linkAndRespond_inv env s em ph u upd s' o :
  linkAndRespond env s em ph u upd = (s', o) ->
  (s' = s /\ o = Thrown
   /\ (fails env FindRelated = true \/ fails env CreateSecondary = true))
  \/ exists s1 toUpdate,
       ((createsSecondary (allRelatedContacts env s u upd) em ph = false
         /\ s1 = s /\ toUpdate = upd)
        \/ (createsSecondary (allRelatedContacts env s u upd) em ph = true
            /\ s1 = s ++ [createdSecondary env s em ph u]
            /\ toUpdate = upd ++ [createdSecondary env s em ph u]))
       /\ ((s' = s1 /\ o = Thrown /\ toUpdate <> []
            /\ transaction env s1 toUpdate = None)
           \/ (updateAll (now env) s1 toUpdate = Some s'
               /\ (toUpdate = [] \/ fails env Transaction = false)
               /\ ((o = Thrown /\ fails env Refetch = true)
                   \/ (o = Returned (readBack env s' u)
                       /\ fails env Refetch = false)))).
Proof.
  unfold linkAndRespond, createdSecondary, create. cbn [snd].
  set (cs := mkContact (nextId s) _ _ _ _ _ _ _).
  destruct (fails env FindRelated) eqn:Ef.
  { intros [= <- <-]. left. auto. }
  assert (Hend : forall s1 tu,
    (let written := match tu with
                    | [] => Some s1
                    | _ => transaction env s1 tu
                    end in
     match written with
     | None => (s1, Thrown)
     | Some s2 => if fails env Refetch then (s2, Thrown)
                  else (s2, Returned (readBack env s2 u))
     end) = (s', o) ->
    (s' = s1 /\ o = Thrown /\ tu <> [] /\ transaction env s1 tu = None)
    \/ (updateAll (now env) s1 tu = Some s'
        /\ (tu = [] \/ fails env Transaction = false)
        /\ ((o = Thrown /\ fails env Refetch = true)
            \/ (o = Returned (readBack env s' u)
                /\ fails env Refetch = false)))).
  { intros s1 tu. cbv zeta.
    destruct tu as [|x l].
    - destruct (fails env Refetch) eqn:Er; intros [= <- <-]; right; auto.
    - destruct (transaction env s1 (x :: l)) as [s2|] eqn:Et.
      + unfold transaction in Et.
        destruct (fails env Transaction) eqn:Ef'; [discriminate|].
        destruct (fails env Refetch) eqn:Er; intros [= <- <-]; right; auto.
      + intros [= <- <-]. left. repeat split; auto. discriminate. }
  destruct (createsSecondary _ em ph) eqn:Ec.
  - destruct (fails env CreateSecondary) eqn:Es.
    + intros [= <- <-]. left. auto.
    + intros H. right. exists (s ++ [cs]), (upd ++ [cs]).
      split; [right; auto|]. now apply Hend.
  - intros H. right. exists s, upd. split; [left; auto|]. now apply Hend.
Qed.

(** The ways [identifyContact] ends. *)
Lemma identifyContact_inv env s data s' o :
  identifyContact env s data = (s', o) ->
  let m := findMatching env s (reqEmail data) (reqPhoneNumber data) in
  (s' = s /\ o = Thrown)
  \/ (fails env FindMatching = false /\ m = []
      /\ (s', o) = createPrimary env CreateNewPrimary s (reqEmail data)
                     (reqPhoneNumber data))
  \/ (fails env FindMatching = false /\ m <> []
      /\ plan env s m = Some CreateFresh
      /\ (s', o) = createPrimary env CreateOrphanPrimary s (reqEmail data)
                     (reqPhoneNumber data))
  \/ exists u upd,
       fails env FindMatching = false /\ m <> []
       /\ plan env s m = Some (Proceed u upd)
       /\ linkAndRespond env s (reqEmail data) (reqPhoneNumber data) u upd
          = (s', o).
Proof.
  intros H. cbv zeta. unfold identifyContact, answered in H.
  destruct (fails env FindMatching) eqn:Ef.
  { injection H as <- <-. left. auto. }
  destruct (findMatching env s _ _) as [|c0 rest] eqn:Em.
  { right. left. auto. }
  destruct (plan env s (c0 :: rest)) as [[|u upd]|] eqn:Ep.
  - right. right. left. repeat split; auto. discriminate.
  - right. right. right. exists u, upd. repeat split; auto. discriminate.
  - injection H as <- <-. left. auto.
Qed.

Lemma createPrimary_inv env call s em ph s' o :
  (s', o) = createPrimary env call s em ph ->
  (s' = s /\ o = Thrown /\ fails env call = true)
  \/ (fails env call = false
      /\ s' = s ++ [mkContact (nextId s) (orNull ph) (orNull em) None primary
                      (now env) (now env) None]
      /\ o = Returned (formatResponse
                         (mkContact (nextId s) (orNull ph) (orNull em) None
                            primary (now env) (now env) None) [])).
Proof.
  unfold createPrimary, create. destruct (fails env call).
  - intros [= -> ->]. left. auto.
  - intros [= -> ->]. right. auto.
Qed.

(** * Lemmas on merging *)

Lemma isPrimary_iff c : isPrimary c = true <-> linkPrecedence c = primary.
Proof. unfold isPrimary. destruct (linkPrecedence c); split; congruence. Qed.

Lemma isPrimary_false_iff c :
  isPrimary c = false <-> linkPrecedence c = secondary.
Proof. unfold isPrimary. destruct (linkPrecedence c); split; congruence. Qed.

(** Appending a fresh primary, or a secondary of a stored primary, keeps
    the store well-formed. *)
Lemma wellFormed_append s c :
  wellFormed s ->
  id c = nextId s /\ deletedAt c = None
  /\ ((linkPrecedence c = primary /\ linkedId c = None)
      \/ exists u, In u s /\ linkPrecedence u = primary
                   /\ deletedAt u = None
                   /\ linkPrecedence c = secondary
                   /\ linkedId c = Some (id u)) ->
  wellFormed (s ++ [c]).
Proof.
  intros Hwf Hc. constructor.
  - rewrite map_app. cbn. apply NoDup_app; [apply Hwf | repeat constructor; intros [] |].
    intros x Hx [<-|[]]. destruct Hc as (Hc & _). rewrite Hc in Hx.
    now apply nextId_fresh in Hx.
  - intros r Hr. apply in_app_or in Hr. destruct Hr as [Hr|[<-|[]]].
    + now apply (wf_positive s Hwf).
    + destruct Hc as (-> & _). apply nextId_positive.
  - intros r Hr Hp. apply in_app_or in Hr. destruct Hr as [Hr|[<-|[]]].
    + now apply (wf_primary_unlinked s Hwf).
    + destruct Hc as (_ & _ & [(_ & H)|(u & _ & _ & _ & H & _)]);
        [assumption | congruence].
  - intros r Hr Hd Hsec. apply in_app_or in Hr. destruct Hr as [Hr|[<-|[]]].
    + destruct (wf_one_hop s Hwf r Hr Hd Hsec) as (p & Hp & H).
      exists p. split; [apply in_or_app; now left | assumption].
    + destruct Hc as (_ & _ & [(H & _)|(u & Hu & Hup & Hud & _ & Hl)]);
        [congruence|].
      exists u. split; [apply in_or_app; now left | auto].
Qed.

Section Merge.
Variables (env : Env) (s : Store) (m : list Contact) (u : Contact)
          (rest upd : list Contact).
Hypothesis Hwf : wellFormed s.
Hypothesis Hm : forall c, In c m -> In c s /\ notDeleted c = true.
Hypothesis Hres : uniquePrimaryContacts env s m = Some (u :: rest).
Hypothesis Hupd : forall c, In c upd <-> mergeWrites s u rest c.

Lemma resolved_live p :
  In p (u :: rest) -> In p s /\ notDeleted p = true /\ isPrimary p = true.
Proof.
  intros Hp.
  eapply resolvedAll_live; eauto using uniquePrimaryContacts_In.
Qed.

Lemma resolved_distinct d : In d rest -> id d <> id u.
Proof.
  intros Hd E. pose proof (uniquePrimaryContacts_NoDup _ _ _ _ Hres) as Hnd.
  cbn in Hnd. inversion Hnd as [|? ? Hu _]; subst.
  apply Hu. rewrite <- E. now apply in_map.
Qed.

Lemma matching_nonempty : m <> [].
Proof.
  intros ->. unfold uniquePrimaryContacts in Hres. cbn in Hres. discriminate.
Qed.

Lemma demotions_linksTo c : In c upd -> linksTo u c.
Proof.
  rewrite Hupd. intros (d & Hd & [->|(c0 & Hin & Hlink & _ & ->)]).
  - unfold linksTo. cbn. repeat split. now apply resolved_distinct.
  - 
    destruct (resolved_live u (or_introl eq_refl)) as (Hu & _ & Hup).
    assert (Hsec : linkPrecedence c0 = secondary).
    { destruct (linkPrecedence c0) eqn:E; [|reflexivity].
      rewrite (wf_primary_unlinked s Hwf c0 Hin E) in Hlink. discriminate. }
    unfold linksTo. cbn. repeat split; [assumption|].
    intros E. assert (c0 = u)
      by (eapply NoDup_map_id_inj; eauto using wf_unique).
    subst c0. apply isPrimary_iff in Hup. congruence.
Qed.

Lemma demotions_ids c : In c upd -> In (id c) (map id s).
Proof.
  rewrite Hupd. intros (d & Hd & [->|(c0 & Hc0 & _ & _ & ->)]); cbn.
  - apply in_map. apply resolved_live. now right.
  - now apply in_map.
Qed.

Variables (em ph : option string).

Let cs := createdSecondary env s em ph u.

Lemma createdSecondary_linksTo : linksTo u cs.
Proof.
  unfold linksTo, cs, createdSecondary, create.
  cbn [snd id linkedId linkPrecedence]. repeat split.
  destruct (resolved_live u (or_introl eq_refl)) as (Hu & _).
  apply nextId_above in Hu. lia.
Qed.

(** The store and the update list handed to the transaction. *)
Variables (s1 : Store) (toUpdate : list Contact).
Hypothesis Hs1 :
  (s1 = s /\ toUpdate = upd)
  \/ (s1 = s ++ [cs] /\ toUpdate = upd ++ [cs]).

Lemma toUpdate_linksTo c : In c toUpdate -> linksTo u c.
Proof.
  destruct Hs1 as [(_ & ->)|(_ & ->)]; [apply demotions_linksTo|].
  intros Hc. apply in_app_or in Hc.
  destruct Hc as [Hc|[<-|[]]];
    [now apply demotions_linksTo | apply createdSecondary_linksTo].
Qed.

Lemma toUpdate_ids c : In c toUpdate -> In (id c) (map id s1).
Proof.
  destruct Hs1 as [(-> & ->)|(-> & ->)]; [apply demotions_ids|].
  rewrite map_app. intros Hc. apply in_app_or in Hc. apply in_or_app.
  destruct Hc as [Hc|[<-|[]]]; [left; now apply demotions_ids|].
  right. now left.
Qed.

Lemma s1_extends c : In c s -> In c s1.
Proof.
  destruct Hs1 as [(-> & _)|(-> & _)]; [auto|].
  intros. apply in_or_app. now left.
Qed.

Lemma s1_In c : In c s1 -> In c s \/ c = cs.
Proof.
  destruct Hs1 as [(-> & _)|(-> & _)]; [auto|].
  intros H. apply in_app_or in H. destruct H as [H|[<-|[]]]; auto.
Qed.

Lemma wellFormed_s1 : wellFormed s1.
Proof.
  destruct (resolved_live u (or_introl eq_refl)) as (Hu & Hul & Hup).
  destruct Hs1 as [(-> & _)|(-> & _)]; [assumption|].
  apply wellFormed_append; [assumption|].
  apply isPrimary_iff in Hup. apply notDeleted_iff in Hul.
  unfold cs, createdSecondary, create.
  cbn [snd id deletedAt linkPrecedence linkedId].
  split; [reflexivity|]. split; [reflexivity|]. right. exists u. auto.
Qed.

Lemma created_not_stored c : In c s -> id c <> id cs.
Proof.
  intros Hc. apply nextId_above in Hc.
  unfold cs, createdSecondary, create. cbn [snd id]. lia.
Qed.

Lemma transaction_commits :
  fails env Transaction = false ->
  exists s2, transaction env s1 toUpdate = Some s2.
Proof.
  intros Ht. unfold transaction. rewrite Ht.
  apply updateAll_defined. apply toUpdate_ids.
Qed.

Variable s2 : Store.
Hypothesis Hs2 : updateAll (now env) s1 toUpdate = Some s2.

(** Each row after the merge: as before, or linked to [u]. *)
Lemma merged_row r' :
  In r' s2 ->
  exists r, In r s1 /\ id r' = id r /\ createdAt r' = createdAt r
            /\ deletedAt r' = deletedAt r
            /\ ((r' = r /\ forall c, In c toUpdate -> id c <> id r)
                \/ ((exists c, In c toUpdate /\ id c = id r
                               /\ email r' = email c
                               /\ phoneNumber r' = phoneNumber c)
                    /\ linksTo u r')).
Proof.
  intros Hin.
  destruct (Forall2_In_r _ _ _ _ (updateAll_rows _ _ _ _ Hs2) Hin)
    as (r & Hr & Hi & Hc & Hd & Hcase).
  exists r. repeat split; auto.
  destruct Hcase as [Hsame|(c & Hc' & Hic & He & Hp & Hl & Hk)];
    [now left|].
  right. split; [exists c; auto|].
  destruct (toUpdate_linksTo c Hc') as (L1 & L2 & L3).
  unfold linksTo. rewrite Hl, Hk, Hi, <- Hic. auto.
Qed.

Lemma merged_row_of r :
  In r s1 ->
  exists r', In r' s2 /\ id r' = id r /\ deletedAt r' = deletedAt r
             /\ ((r' = r /\ forall c, In c toUpdate -> id c <> id r)
                 \/ ((exists c, In c toUpdate /\ id c = id r)
                     /\ linksTo u r')).
Proof.
  intros Hin.
  destruct (Forall2_In_l _ _ _ _ (updateAll_rows _ _ _ _ Hs2) Hin)
    as (r' & Hr & Hi & Hc & Hd & Hcase).
  exists r'. repeat split; auto.
  destruct Hcase as [Hsame|(c & Hc' & Hic & He & Hp & Hl & Hk)];
    [now left|].
  right. split; [exists c; auto|].
  destruct (toUpdate_linksTo c Hc') as (L1 & L2 & L3).
  unfold linksTo. rewrite Hl, Hk, Hi, <- Hic. auto.
Qed.

(** The ultimate primary's row is not written. *)
Lemma ultimate_kept : In u s2.
Proof.
  destruct (resolved_live u (or_introl eq_refl)) as (Hu & _).
  destruct (merged_row_of u (s1_extends u Hu))
    as (u' & Hu' & _ & _ & [[-> _]|[(c & Hc & Hi) _]]); [assumption|].
  destruct (toUpdate_linksTo c Hc) as (_ & _ & Hne). contradiction.
Qed.

(** Every other resolved primary ends up a secondary of [u]. *)
Lemma demoted_row d :
  In d rest ->
  exists d', In d' s2 /\ id d' = id d /\ deletedAt d' = deletedAt d
             /\ linksTo u d'.
Proof.
  intros Hd.
  destruct (resolved_live d (or_intror Hd)) as (Hin & _).
  destruct (merged_row_of d (s1_extends d Hin))
    as (d' & Hd' & Hi & Hdel & [[-> Hno]|[_ Hl]]); [|eauto].
  exfalso. apply (Hno (demote u d)); [|reflexivity].
  assert (In (demote u d) upd)
    by (apply Hupd; exists d; auto).
  destruct Hs1 as [(_ & ->)|(_ & ->)]; [assumption|].
  apply in_or_app. now left.
Qed.

Lemma readBack_reports_ultimate :
  primaryContatctId (contact (readBack env s2 u)) = id u.
Proof.
  destruct (resolved_live u (or_introl eq_refl)) as (_ & Hl & Hp).
  assert (Hfin : In u (finalGroupContacts env s2 u)).
  { apply finalGroupContacts_In. auto using ultimate_kept. }
  unfold readBack, primaryInFinalGroup, orElse.
  destruct (find _ (finalGroupContacts env s2 u)) as [p|] eqn:E.
  - apply find_some in E. destruct E as (_ & E).
    apply andb_true_iff in E. destruct E as (E & _).
    apply Z.eqb_eq in E. exact E.
  - pose proof (find_none _ _ E u Hfin) as Hb. cbn in Hb.
    rewrite Z.eqb_refl, Hp in Hb. discriminate.
Qed.

(** Only resolved primaries other than [u] are written as primaries. *)
Lemma touched_primary_is_demoted p c :
  In p s1 -> linkPrecedence p = primary ->
  In c toUpdate -> id c = id p -> In p rest.
Proof.
  intros Hp Hprim Hc Hid.
  assert (Hps : In p s).
  { destruct (s1_In p Hp) as [H| ->]; [assumption|].
    unfold cs, createdSecondary, create in Hprim. discriminate. }
  assert (Hcd : In c upd).
  { destruct Hs1 as [(_ & ->)|(_ & ->)]; [assumption|].
    apply in_app_or in Hc. destruct Hc as [Hc|[<-|[]]]; [assumption|].
    exfalso. eapply created_not_stored; eauto. }
  apply Hupd in Hcd.
  destruct Hcd as (d & Hd & [->|(c0 & Hc0 & Hlink & _ & ->)]); cbn in Hid.
  - destruct (resolved_live d (or_intror Hd)) as (Hds & _).
    replace p with d; [assumption|].
    eapply NoDup_map_id_inj; eauto using wf_unique.
  - assert (c0 = p) by (eapply NoDup_map_id_inj; eauto using wf_unique).
    subst c0. rewrite (wf_primary_unlinked s Hwf p Hps Hprim) in Hlink.
    discriminate.
Qed.

(** Every non-deleted row linked to a demoted primary is written. *)
Lemma linked_to_demoted_touched d r :
  In d rest -> In r s1 -> notDeleted r = true ->
  linkedId r = Some (id d) ->
  exists c, In c toUpdate /\ id c = id r.
Proof.
  intros Hd Hr Hl Hlink.
  destruct (s1_In r Hr) as [Hrs| ->].
  - exists (relink u r). split; [|reflexivity].
    assert (In (relink u r) upd).
    { apply Hupd. exists d. split; [assumption|]. right.
      exists r. auto. }
    destruct Hs1 as [(_ & ->)|(_ & ->)]; [assumption|].
    apply in_or_app. now left.
  - exfalso. apply (resolved_distinct d Hd).
    unfold cs, createdSecondary, create in Hlink. cbn in Hlink. congruence.
Qed.

Lemma wellFormed_merged : wellFormed s2.
Proof.
  pose proof wellFormed_s1 as Hwf1.
  destruct (resolved_live u (or_introl eq_refl)) as (Hu & Hul & Hup).
  constructor.
  - rewrite (updateAll_ids _ _ _ _ Hs2). apply Hwf1.
  - intros r' Hr'. destruct (merged_row r' Hr') as (r & Hr & Hi & _).
    rewrite Hi. now apply (wf_positive s1 Hwf1).
  - intros r' Hr' Hprim.
    destruct (merged_row r' Hr')
      as (r & Hr & _ & _ & _ & [[-> _]|[_ (_ & Hsec & _)]]).
    + now apply (wf_primary_unlinked s1 Hwf1).
    + congruence.
  - intros r' Hr' Hdel Hsec.
    destruct (merged_row r' Hr')
      as (r & Hr & _ & _ & _ & [[-> Hno]|[_ (Hlink & _)]]).
    + destruct (wf_one_hop s1 Hwf1 r Hr Hdel Hsec)
        as (p & Hp & Hlink & Hpp & Hpd).
      destruct (merged_row_of p Hp)
        as (p' & Hp' & _ & _ & [[-> _]|[(c & Hc & Hid) _]]).
      * exists p. auto.
      * exfalso.
        pose proof (touched_primary_is_demoted p c Hp Hpp Hc Hid) as Hd.
        apply notDeleted_iff in Hdel.
        destruct (linked_to_demoted_touched p r Hd Hr Hdel Hlink)
          as (c' & Hc' & Hid').
        now apply (Hno c').
    + exists u. apply isPrimary_iff in Hup. apply notDeleted_iff in Hul.
      auto using ultimate_kept.
Qed.

(** When a primary is demoted, the rows linked to it follow it to [u]. *)
Lemma merged_relinks d d' c c' :
  In d s -> In d' s2 -> id d' = id d ->
  linkPrecedence d = primary -> linkPrecedence d' = secondary ->
  In c s -> deletedAt c = None -> linkedId c = Some (id d) ->
  In c' s2 -> id c' = id c ->
  linksTo u d' /\ linksTo u c'.
Proof.
  intros Hd Hd' Hid Hprim Hsec Hc Hdel Hlink Hc' Hidc.
  pose proof wellFormed_merged as Hwf2.
  destruct (merged_row_of d (s1_extends d Hd))
    as (d2 & Hd2 & Hid2 & _ & Hcase).
  assert (d2 = d')
    by (eapply NoDup_map_id_inj; eauto using wf_unique; congruence).
  subst d2. destruct Hcase as [[-> _]|[(w & Hw & Hidw) Hl]]; [congruence|].
  split; [assumption|].
  pose proof (touched_primary_is_demoted d w (s1_extends d Hd) Hprim Hw Hidw)
    as Hrest.
  apply notDeleted_iff in Hdel.
  destruct (linked_to_demoted_touched d c Hrest (s1_extends c Hc) Hdel Hlink)
    as (w' & Hw' & Hidw').
  destruct (merged_row_of c (s1_extends c Hc))
    as (c2 & Hc2 & Hidc2 & _ & Hcase).
  assert (c2 = c')
    by (eapply NoDup_map_id_inj; eauto using wf_unique; congruence).
  subst c2. destruct Hcase as [[_ Hno]|[_ Hl']]; [|assumption].
  exfalso. now apply (Hno w').
Qed.

(** The response is built around the stored row of [u]. *)
Lemma readBack_shown :
  exists P, In P (finalGroupContacts env s2 u) /\ id P = id u
            /\ isPrimary P = true
            /\ readBack env s2 u = formatResponse P (finalGroupContacts env s2 u).
Proof.
  destruct (resolved_live u (or_introl eq_refl)) as (_ & Hl & Hp).
  assert (Hfin : In u (finalGroupContacts env s2 u)).
  { apply finalGroupContacts_In. auto using ultimate_kept. }
  unfold readBack, primaryInFinalGroup, orElse.
  destruct (find _ (finalGroupContacts env s2 u)) as [p|] eqn:E.
  - exists p. pose proof (find_some _ _ E) as (Hin & Hb).
    apply andb_true_iff in Hb. destruct Hb as (Hi & Hpp).
    apply Z.eqb_eq in Hi. auto.
  - pose proof (find_none _ _ E u Hfin) as Hb. cbn in Hb.
    rewrite Z.eqb_refl, Hp in Hb. discriminate.
Qed.
End Merge.
(** With a resolved primary, [identifyContact] stops at a failed query or
    is [linkAndRespond] on the merge plan. *)
Lemma identifyContact_merge env s data u rest s' o :
  uniquePrimaryContacts env s
    (findMatching env s (reqEmail data) (reqPhoneNumber data))
  = Some (u :: rest) ->
  identifyContact env s data = (s', o) ->
  (s' = s /\ o = Thrown)
  \/ exists upd,
       (forall c, In c upd <-> mergeWrites s u rest c)
       /\ linkAndRespond env s (reqEmail data) (reqPhoneNumber data) u upd
          = (s', o).
Proof.
  intros Hres H. apply identifyContact_inv in H. cbv zeta in H.
  destruct H as [H|[(_ & Hm & _)|[(_ & _ & Hp & _)|(u' & upd' & _ & _ & Hp & H)]]].
  - now left.
  - rewrite Hm in Hres. discriminate.
  - destruct (plan_merge _ _ _ _ _ _ Hres Hp) as (upd & E & _). discriminate.
  - destruct (plan_merge _ _ _ _ _ _ Hres Hp) as (upd & E & Hupd).
    injection E as -> ->. right. exists upd. auto.
Qed.

(** The same, when the queries of the merge answer. *)
Lemma identifyContact_merge_answered env s data u rest :
  fails env FindMatching = false ->
  (forall k, fails env (FindSecondariesOf k) = false) ->
  uniquePrimaryContacts env s
    (findMatching env s (reqEmail data) (reqPhoneNumber data))
  = Some (u :: rest) ->
  exists upd,
    (forall c, In c upd <-> mergeWrites s u rest c)
    /\ identifyContact env s data
       = linkAndRespond env s (reqEmail data) (reqPhoneNumber data) u upd.
Proof.
  intros Hf Hk Hres.
  destruct (plan_merge_answered _ _ _ _ _ Hres Hk) as (upd & Hp).
  destruct (plan_merge _ _ _ _ _ _ Hres Hp) as (upd' & E & Hupd).
  injection E as <-. exists upd. split; [assumption|].
  unfold identifyContact, answered. rewrite Hf.
  destruct (findMatching env s _ _) eqn:E; [discriminate|].
  rewrite Hp. reflexivity.
Qed.

(** With a single resolved primary nothing is demoted. *)
Lemma identifyContact_single env s data u :
  fails env FindMatching = false ->
  uniquePrimaryContacts env s
    (findMatching env s (reqEmail data) (reqPhoneNumber data)) = Some [u] ->
  identifyContact env s data
  = linkAndRespond env s (reqEmail data) (reqPhoneNumber data) u [].
Proof.
  intros Hf Hres. unfold identifyContact, answered. rewrite Hf.
  destruct (findMatching env s _ _) eqn:E; [discriminate|].
  rewrite (plan_single _ _ _ _ Hres). reflexivity.
Qed.

(** The ways a merging call ends: a query failed and nothing was written;
    the transaction failed and at most the new secondary was written; or
    all writes were applied, after which only the re-fetch can fail. *)
Lemma merge_outcome env s data u rest s' o :
  wellFormed s ->
  uniquePrimaryContacts env s
    (findMatching env s (reqEmail data) (reqPhoneNumber data))
  = Some (u :: rest) ->
  identifyContact env s data = (s', o) ->
  let cs := createdSecondary env s (reqEmail data) (reqPhoneNumber data) u in
  (s' = s /\ o = Thrown)
  \/ exists upd s1 toUpdate,
       (forall c, In c upd <-> mergeWrites s u rest c)
       /\ ((createsSecondary (allRelatedContacts env s u upd)
              (reqEmail data) (reqPhoneNumber data) = false
            /\ s1 = s /\ toUpdate = upd)
           \/ (createsSecondary (allRelatedContacts env s u upd)
                 (reqEmail data) (reqPhoneNumber data) = true
               /\ s1 = s ++ [cs] /\ toUpdate = upd ++ [cs]))
       /\ ((o = Thrown /\ s' = s1 /\ fails env Transaction = true)
           \/ (updateAll (now env) s1 toUpdate = Some s'
               /\ ((o = Thrown /\ fails env Refetch = true)
                   \/ (o = Returned (readBack env s' u)
                       /\ fails env Refetch = false)))).
Proof.
  intros Hwf Hres H cs.
  destruct (identifyContact_merge _ _ _ _ _ _ _ Hres H)
    as [Hl|(upd & Hupd & E)]; [now left|].
  apply linkAndRespond_inv in E.
  destruct E as [(-> & -> & _)|(s1 & tu & Hs1 & Ho)]; [now left|].
  right. exists upd, s1, tu. split; [assumption|]. split; [exact Hs1|].
  assert (Hs1' : (s1 = s /\ tu = upd)
                 \/ (s1 = s ++ [cs] /\ tu = upd ++ [cs]))
    by (destruct Hs1 as [(_ & ? & ?)|(_ & ? & ?)]; auto).
  destruct Ho as [(-> & -> & _ & Ht)|(Hup & _ & Ho)].
  - left. repeat split.
    destruct (fails env Transaction) eqn:Etx; [reflexivity|].
    assert (exists s2, transaction env s1 tu = Some s2) as (s2 & E2)
      by (eapply transaction_commits;
          eauto using findMatching_live).
    congruence.
  - right. auto.
Qed.

(** Concrete stores: the invariants by evaluation. *)
Lemma distinctIds_NoDup l : distinctIds l = true -> NoDup l.
Proof.
  induction l as [|x l IH]; cbn; [constructor|].
  rewrite andb_true_iff, negb_true_iff. intros (Hx & Hl).
  constructor; [|auto]. intros Hin.
  assert (existsb (Z.eqb x) l = true); [|congruence].
  apply existsb_exists. exists x. split; [assumption | apply Z.eqb_refl].
Qed.

Lemma wellFormedb_sound s : wellFormedb s = true -> wellFormed s.
Proof.
  unfold wellFormedb. rewrite !andb_true_iff, !forallb_forall.
  intros (((Hd & Hpos) & Hun) & Hhop). constructor.
  - now apply distinctIds_NoDup.
  - intros c Hc. specialize (Hpos c Hc). now apply Z.ltb_lt in Hpos.
  - intros c Hc Hp. specialize (Hun c Hc). apply isPrimary_iff in Hp.
    rewrite Hp in Hun. now apply optZEqb_eq in Hun.
  - intros c Hc Hdel Hsec. specialize (Hhop c Hc). unfold oneHopb in Hhop.
    apply notDeleted_iff in Hdel. apply isPrimary_false_iff in Hsec.
    unfold isSecondary in Hhop. rewrite Hdel, Hsec in Hhop. cbn in Hhop.
    apply existsb_exists in Hhop. destruct Hhop as (p & Hp & Hb).
    rewrite !andb_true_iff, optZEqb_eq, isPrimary_iff, notDeleted_iff in Hb.
    exists p. tauto.
Qed.


(** A merging call with no failure: every write is applied and the
    response is read back. *)
Lemma merge_outcome_healthy env s data u rest :
  wellFormed s -> healthy env ->
  uniquePrimaryContacts env s
    (findMatching env s (reqEmail data) (reqPhoneNumber data))
  = Some (u :: rest) ->
  let cs := createdSecondary env s (reqEmail data) (reqPhoneNumber data) u in
  exists upd s1 toUpdate s',
    (forall c, In c upd <-> mergeWrites s u rest c)
    /\ ((createsSecondary (allRelatedContacts env s u upd)
           (reqEmail data) (reqPhoneNumber data) = false
         /\ s1 = s /\ toUpdate = upd)
        \/ (createsSecondary (allRelatedContacts env s u upd)
              (reqEmail data) (reqPhoneNumber data) = true
            /\ s1 = s ++ [cs] /\ toUpdate = upd ++ [cs]))
    /\ updateAll (now env) s1 toUpdate = Some s'
    /\ identifyContact env s data = (s', Returned (readBack env s' u)).
Proof.
  intros Hwf Hh Hres cs.
  destruct (identifyContact_merge_answered env s data u rest (Hh _)
              (fun k => Hh _) Hres) as (upd & Hupd & E').
  destruct (identifyContact env s data) as [s' o] eqn:E.
  symmetry in E'. apply linkAndRespond_inv in E'.
  destruct E' as [(_ & _ & [Hf|Hf])|(s1 & tu & Hs1 & Ho)];
    try (rewrite Hh in Hf; discriminate).
  exists upd, s1, tu, s'. split; [assumption|]. split; [exact Hs1|].
  assert (Hs1' : (s1 = s /\ tu = upd)
                 \/ (s1 = s ++ [cs] /\ tu = upd ++ [cs]))
    by (destruct Hs1 as [(_ & ? & ?)|(_ & ? & ?)]; auto).
  destruct Ho as [(_ & _ & _ & Ht)|(Hup & _ & [(_ & Hf)|(-> & _)])].
  - exfalso.
    assert (exists s2, transaction env s1 tu = Some s2) as (s2 & E2)
      by (eapply transaction_commits;
          eauto using findMatching_live).
    congruence.
  - rewrite Hh in Hf. discriminate.
  - auto.
Qed.

(** On a well-formed store, what lines 53-63 find for a stored matching
    contact is the stored primary it leads to. *)
Lemma resolved_reaches s c p :
  wellFormed s -> In c s -> notDeleted c = true ->
  (In p (resolved s c) <->
   In p s /\ linkPrecedence p = primary /\ deletedAt p = None
   /\ reaches c p).
Proof.
  intros Hwf Hc Hl. split.
  - intros Hp. apply resolved_In in Hp.
    destruct Hp as (Hprim & [(-> & _)|(Hsec & Hlink & _ & Hin & Hlp)]).
    + apply isPrimary_iff in Hprim. apply notDeleted_iff in Hl.
      repeat split; auto. left. auto.
    + apply isPrimary_iff in Hprim. apply notDeleted_iff in Hlp.
      apply isPrimary_false_iff in Hsec.
      repeat split; auto. right. auto.
  - intros (Hin & Hprim & Hdel & [(-> & _)|(Hsec & Hlink)]).
    + unfold resolved. apply isPrimary_iff in Hprim. rewrite Hprim.
      now left.
    + unfold resolved. apply isPrimary_false_iff in Hsec. rewrite Hsec, Hlink.
      pose proof (wf_positive s Hwf p Hin) as Hpos. cbn [truthyNum].
      assert ((id p =? 0) = false) as -> by (apply Z.eqb_neq; lia).
      cbn [negb]. apply notDeleted_iff in Hdel.
      rewrite (findUnique_found s p (wf_unique s Hwf) Hin Hdel).
      apply isPrimary_iff in Hprim. rewrite Hprim. now left.
Qed.

(** * Lemmas on insertion-ordered sets and sorted output *)

Section SetFacts.
Context {A : Type} (eqb : A -> A -> bool).
Hypothesis eqb_eq : forall x y, eqb x y = true <-> x = y.

Lemma existsb_eqb_In x l : existsb (eqb x) l = true <-> In x l.
Proof.
  rewrite existsb_exists. split.
  - intros (y & Hy & E). apply eqb_eq in E. now subst.
  - intros H. exists x. split; [assumption | now apply eqb_eq].
Qed.

Lemma setAdd_In l y x : In x (setAdd eqb l y) <-> In x l \/ x = y.
Proof.
  unfold setAdd. destruct (existsb (eqb y) l) eqn:E.
  - apply existsb_eqb_In in E. split; [auto|]. intros [H| ->]; auto.
  - rewrite in_app_iff. cbn. intuition.
Qed.

Lemma setAdd_NoDup l y : NoDup l -> NoDup (setAdd eqb l y).
Proof.
  intros Hnd. unfold setAdd. destruct (existsb (eqb y) l) eqn:E; [auto|].
  apply NoDup_app; [assumption | repeat constructor; intros [] |].
  intros x Hx [Hy|[]]. subst x.
  apply existsb_eqb_In in Hx. congruence.
Qed.

Lemma fold_setAdd_In ys : forall l x,
  In x (fold_left (setAdd eqb) ys l) <-> In x l \/ In x ys.
Proof.
  induction ys as [|y ys IH]; cbn; intros l x; [tauto|].
  rewrite IH, setAdd_In. intuition.
Qed.

Lemma fold_setAdd_NoDup ys : forall l,
  NoDup l -> NoDup (fold_left (setAdd eqb) ys l).
Proof.
  induction ys as [|y ys IH]; cbn; intros l H; [assumption|].
  apply IH, setAdd_NoDup, H.
Qed.

Lemma fold_setAdd_fresh ys : forall l,
  NoDup (l ++ ys) -> fold_left (setAdd eqb) ys l = l ++ ys.
Proof.
  induction ys as [|y ys IH]; cbn; intros l H; [now rewrite app_nil_r|].
  assert (Hy : existsb (eqb y) l = false).
  { destruct (existsb (eqb y) l) eqn:E; [|reflexivity].
    apply existsb_eqb_In in E. apply NoDup_remove_2 in H.
    exfalso. apply H. apply in_or_app. now left. }
  unfold setAdd at 2. rewrite Hy.
  rewrite IH; rewrite <- app_assoc; cbn; auto.
Qed.

Lemma setOfList_NoDup l : NoDup l -> setOfList eqb l = l.
Proof. intros H. unfold setOfList. now rewrite fold_setAdd_fresh. Qed.
End SetFacts.

Section SortedOutput.
Context {A : Type} (le : A -> A -> bool) (lt : A -> A -> Prop).
Hypothesis le_total : forall a b, le a b = true \/ le b a = true.
Hypothesis le_strict : forall a b, le a b = true -> a <> b -> lt a b.

Lemma insertSorted_Sorted x l :
  Sorted (fun a b => le a b = true) l ->
  Sorted (fun a b => le a b = true) (insertSorted le x l).
Proof.
  induction 1 as [|y l Hs IH Hy]; cbn; [repeat constructor|].
  destruct (le x y) eqn:E.
  - repeat constructor; assumption.
  - constructor; [assumption|].
    destruct l as [|z l]; cbn in *.
    + constructor. destruct (le_total x y); congruence.
    + destruct (le x z); constructor.
      * destruct (le_total x y); congruence.
      * now inversion Hy.
Qed.

Lemma stableSort_Sorted l :
  Sorted (fun a b => le a b = true) (stableSort le l).
Proof.
  induction l as [|x l IH]; cbn; [constructor|].
  now apply insertSorted_Sorted.
Qed.

Lemma Sorted_strict l :
  Sorted (fun a b => le a b = true) l -> NoDup l -> Sorted lt l.
Proof.
  induction 1 as [|y l Hs IH Hy]; intros Hnd; [constructor|].
  inversion Hnd as [|? ? Hny Hnd']; subst.
  constructor; [auto|].
  destruct Hy as [|z l Hyz]; constructor.
  apply le_strict; [assumption|]. intros ->. apply Hny. now left.
Qed.

Lemma stableSort_ascending l : NoDup l -> Sorted lt (stableSort le l).
Proof.
  intros Hnd. apply Sorted_strict; [apply stableSort_Sorted|].
  eapply Permutation_NoDup; [apply stableSort_perm | assumption].
Qed.
End SortedOutput.

Lemma string_leb_strict a b :
  String.leb a b = true -> a <> b -> String.ltb a b = true.
Proof.
  unfold String.leb, String.ltb.
  destruct (String.compare a b) eqn:E; try congruence.
  apply String.compare_eq_iff in E. congruence.
Qed.

Lemma sorted_strings_ascending l :
  NoDup l -> ascendingStrings (stableSort String.leb l).
Proof.
  apply (stableSort_ascending String.leb); auto using String.leb_total,
    string_leb_strict.
Qed.

Lemma sorted_ids_ascending l : NoDup l -> ascendingIds (stableSort Z.leb l).
Proof.
  apply (stableSort_ascending Z.leb).
  - intros a b. rewrite !Z.leb_le. lia.
  - intros a b. rewrite Z.leb_le. lia.
Qed.

Lemma addTruthy_In l o x :
  In x (addTruthy l o) <-> In x l \/ present o x.
Proof.
  unfold addTruthy, present. destruct o as [y|].
  - cbn. destruct (String.eqb_spec y EmptyString) as [E|E]; cbn.
    + split; [auto|]. intros [H|([= ->] & H)]; [assumption | contradiction].
    + rewrite (setAdd_In String.eqb String.eqb_eq). split.
      * intros [H| ->]; auto.
      * intros [H|([= ->] & H)]; auto.
  - split; [auto|]. intros [H|([=] & _)]. assumption.
Qed.

Lemma addTruthy_NoDup l o : NoDup l -> NoDup (addTruthy l o).
Proof.
  unfold addTruthy. destruct o as [y|]; [|auto].
  destruct (truthyStr (Some y)); [|auto].
  apply (setAdd_NoDup String.eqb String.eqb_eq).
Qed.

Lemma fold_addTruthy_In os : forall l x,
  In x (fold_left addTruthy os l) <->
  In x l \/ exists o, In o os /\ present o x.
Proof.
  induction os as [|o os IH]; cbn; intros l x.
  - split; [auto|]. intros [H|(o & [] & _)]. assumption.
  - rewrite IH, addTruthy_In. split.
    + intros [[H|H]|(o' & Ho' & H)]; eauto.
    + intros [H|(o' & [<-|Ho'] & H)]; eauto.
Qed.

Lemma fold_addTruthy_NoDup os : forall l,
  NoDup l -> NoDup (fold_left addTruthy os l).
Proof.
  induction os as [|o os IH]; cbn; intros l H; [assumption|].
  apply IH, addTruthy_NoDup, H.
Qed.

(** * Lemmas on formatResponse *)

Lemma fold_collect l : forall acc,
  fold_left collect l acc =
  mkCollected (fold_left addTruthy (map email l) (colEmails acc))
              (fold_left addTruthy (map phoneNumber l) (colPhones acc))
              (fold_left (setAdd Z.eqb) (map id l) (colIds acc)).
Proof.
  induction l as [|c l IH]; intros [e p i]; cbn; [reflexivity|].
  rewrite IH. reflexivity.
Qed.

(** When every listed contact is the primary or linked to it, the loop of
    lines 234-251 collects exactly the contacts other than the primary. *)
Lemma fold_visit P all : forall l acc,
  (forall c, In c l -> id c = id P \/ linkedId c = Some (id P)) ->
  fold_left (visit P all) l acc
  = fold_left collect (filter (notThePrimary P) l) acc.
Proof.
  induction l as [|c l IH]; intros acc H; [reflexivity|].
  cbn [fold_left filter]. unfold visit at 2, notThePrimary at 1.
  destruct (Z.eqb_spec (id c) (id P)) as [E|E]; cbn [negb].
  - apply IH. intros; apply H; now right.
  - assert (Hl : linkedToPrimary P all c = true).
    { unfold linkedToPrimary. destruct (H c (or_introl eq_refl)) as [?|Hl];
        [contradiction|].
      apply orb_true_iff. left. now apply optZEqb_eq. }
    rewrite Hl. cbn [fold_left]. apply IH. intros; apply H; now right.
Qed.

Lemma primaryFirst_eq own col :
  primaryFirst own col =
  optList (orNull own)
  ++ stableSort String.leb
       (filter (fun e => negb (optStrEqb (Some e) own)) col).
Proof.
  unfold primaryFirst, orNull. f_equal.
  destruct own as [x|]; [|reflexivity].
  destruct (truthyStr (Some x)); reflexivity.
Qed.

Lemma orNull_Some o x : orNull o = Some x -> o = Some x.
Proof. unfold orNull. destruct (truthyStr o); congruence. Qed.

Section OneField.
Variables (field : Contact -> option string) (P : Contact)
          (others : list Contact) (cluster : Contact -> Prop).
Hypothesis Hothers :
  forall c, In c others <-> cluster c /\ id c <> id P.
Hypothesis HP : forall c, cluster c -> id c = id P -> c = P.

Let own := field P.
Let col := fold_left addTruthy (map field others) (addTruthy [] own).

Lemma col_NoDup : NoDup col.
Proof. apply fold_addTruthy_NoDup, addTruthy_NoDup. constructor. Qed.

Lemma col_In e :
  In e col <->
  present own e \/ exists c, In c others /\ present (field c) e.
Proof.
  unfold col. rewrite fold_addTruthy_In, addTruthy_In. split.
  - intros [[[]|H]|(o & Ho & H)]; [now left|].
    apply in_map_iff in Ho. destruct Ho as (c & <- & Hc). right. eauto.
  - intros [H|(c & Hc & H)]; [auto|]. right. exists (field c).
    split; [now apply in_map | assumption].
Qed.

Lemma field_consolidated :
  consolidated own field cluster
    (setOfList String.eqb (primaryFirst own col)).
Proof.
  rewrite primaryFirst_eq.
  set (kept := filter (fun e => negb (optStrEqb (Some e) own)) col).
  assert (Hkept : forall e, In e kept <-> In e col /\ Some e <> own).
  { intros e. unfold kept. rewrite filter_In, negb_true_iff.
    split; intros (H1 & H2); split; auto.
    - intros E. apply optStrEqb_eq in E. congruence.
    - destruct (optStrEqb (Some e) own) eqn:E; [|reflexivity].
      apply optStrEqb_eq in E. contradiction. }
  assert (Hnd : NoDup kept) by (apply NoDup_filter, col_NoDup).
  assert (Hnd' : NoDup (optList (orNull own) ++ stableSort String.leb kept)).
  { apply NoDup_app.
    - destruct (orNull own); cbn; repeat constructor; intros [].
    - eapply Permutation_NoDup; [apply stableSort_perm | assumption].
    - intros x Hx Hs. apply stableSort_In, Hkept in Hs.
      destruct Hs as (_ & Hs). apply Hs.
      destruct (orNull own) as [y|] eqn:E; [|destruct Hx].
      destruct Hx as [<-|[]]. symmetry. now apply orNull_Some. }
  exists (stableSort String.leb kept).
  split; [now apply (setOfList_NoDup String.eqb String.eqb_eq)|].
  split; [now apply sorted_strings_ascending|].
  split; [|now rewrite (setOfList_NoDup String.eqb String.eqb_eq)].
  intros e. rewrite stableSort_In, Hkept, col_In. unfold present. split.
  - intros ([(Ho & _)|(c & Hc & Hf & Hne)] & Hown); [congruence|].
    repeat split; auto. exists c. split; [apply Hothers, Hc | assumption].
  - intros (Hne & Hown & c & Hc & Hf). split; [|assumption].
    right. exists c. split; [|auto]. apply Hothers. split; [assumption|].
    intros Hid. apply Hown. rewrite <- Hf.
    unfold own. now rewrite (HP c Hc Hid).
Qed.
End OneField.

Lemma formatResponse_consolidated P all (cluster : Contact -> Prop) :
  (forall c, In c all -> id c = id P \/ linkedId c = Some (id P)) ->
  (forall c, In c all /\ id c <> id P <-> cluster c /\ id c <> id P) ->
  (forall c, cluster c -> id c = id P -> c = P) ->
  let r := contact (formatResponse P all) in
  consolidated (email P) email cluster (emails r)
  /\ consolidated (phoneNumber P) phoneNumber cluster (phoneNumbers r)
  /\ secondariesListed (id P) cluster (secondaryContactIds r).
Proof.
  intros Hall Hsame HP.
  assert (Hothers : forall c, In c (filter (notThePrimary P) all) <->
                              cluster c /\ id c <> id P).
  { intros c. rewrite <- Hsame, filter_In. unfold notThePrimary.
    rewrite negb_true_iff, Z.eqb_neq. tauto. }
  unfold formatResponse. rewrite (fold_visit P all all _ Hall), fold_collect.
  cbn [contact emails phoneNumbers secondaryContactIds colEmails colPhones
       colIds].
  split; [|split].
  - now apply (field_consolidated email P _ cluster).
  - now apply (field_consolidated phoneNumber P _ cluster).
  - set (ids := fold_left (setAdd Z.eqb)
                  (map id (filter (notThePrimary P) all)) []).
    assert (Hnd : NoDup ids)
      by (apply (fold_setAdd_NoDup Z.eqb Z.eqb_eq); constructor).
    split; [now apply sorted_ids_ascending|].
    split; [|eapply Permutation_NoDup; [apply stableSort_perm | assumption]].
    intros i. rewrite stableSort_In. unfold ids.
    rewrite (fold_setAdd_In Z.eqb Z.eqb_eq), in_map_iff. split.
    + intros [[]|(c & <- & Hc)]. apply Hothers in Hc.
      destruct Hc. split; eauto.
    + intros (Hne & c & Hc & <-). right. exists c.
      split; [reflexivity|]. apply Hothers. auto.
Qed.

(** * The same call with no failure *)

Lemma findMatching_calm env s em ph :
  findMatching (calm env) s em ph = findMatching env s em ph.
Proof. reflexivity. Qed.

Lemma uniquePrimaryContacts_calm env s m l :
  uniquePrimaryContacts env s m = Some l ->
  uniquePrimaryContacts (calm env) s m = Some l.
Proof.
  intros H. apply uniquePrimaryContacts_Some in H. subst l.
  apply uniquePrimaryContacts_answered. reflexivity.
Qed.

Lemma demotionsFrom_calm env s u rest : forall i upd,
  demotionsFrom env s u i rest = Some upd ->
  demotionsFrom (calm env) s u i rest = Some upd.
Proof.
  induction rest as [|d rest IH]; intros i upd H; [exact H|].
  cbn [demotionsFrom] in *. unfold answered in *. cbn [fails calm].
  destruct (fails env (FindSecondariesOf i)); [discriminate|].
  destruct (demotionsFrom env s u (S i) rest) as [more|] eqn:E;
    [|discriminate].
  rewrite (IH _ _ E). exact H.
Qed.

Lemma plan_calm env s m pl :
  plan env s m = Some pl -> plan (calm env) s m = Some pl.
Proof.
  unfold plan. intros H.
  destruct (uniquePrimaryContacts env s m) as [l|] eqn:El; [|discriminate].
  rewrite (uniquePrimaryContacts_calm _ _ _ _ El).
  destruct l as [|u rest].
  - destruct m as [|oldest m']; [exact H|].
    destruct (isSecondary oldest && truthyNum (linkedId oldest));
      [|exact H].
    destruct (linkedId oldest) as [l|]; [|exact H].
    unfold answered in *. cbn [fails calm].
    destruct (fails env FindOldestPrimary); [discriminate | exact H].
  - destruct (demotionsFrom env s u 1 rest) as [upd|] eqn:E; [|discriminate].
    now rewrite (demotionsFrom_calm _ _ _ _ _ _ E).
Qed.

(** Once the writes of a call are applied, the call without failures
    leaves the same store and returns what is read back from it. *)
Lemma linkAndRespond_committed env s em ph u upd s1 toUpdate s' :
  ((createsSecondary (allRelatedContacts env s u upd) em ph = false
    /\ s1 = s /\ toUpdate = upd)
   \/ (createsSecondary (allRelatedContacts env s u upd) em ph = true
       /\ s1 = s ++ [createdSecondary env s em ph u]
       /\ toUpdate = upd ++ [createdSecondary env s em ph u])) ->
  updateAll (now env) s1 toUpdate = Some s' ->
  linkAndRespond (calm env) s em ph u upd
  = (s', Returned (readBack env s' u)).
Proof.
  intros Hs1 Hup. unfold linkAndRespond. cbn [fails calm].
  change (allRelatedContacts (calm env) s u upd)
    with (allRelatedContacts env s u upd).
  destruct Hs1 as [(-> & -> & ->)|(-> & -> & ->)].
  - destruct upd as [|c upd'].
    + cbn in Hup. injection Hup as ->. reflexivity.
    + unfold transaction. cbn [fails calm now]. rewrite Hup. reflexivity.
  - unfold createdSecondary, create in *. cbn [snd now calm] in *.
    destruct (upd ++ _) as [|c l] eqn:E;
      [now destruct upd|].
    unfold transaction. cbn [fails calm now]. rewrite Hup. reflexivity.
Qed.

Lemma identifyContact_committed env s data u upd s1 toUpdate s' :
  let em := reqEmail data in
  let ph := reqPhoneNumber data in
  findMatching env s em ph <> [] ->
  plan env s (findMatching env s em ph) = Some (Proceed u upd) ->
  ((createsSecondary (allRelatedContacts env s u upd) em ph = false
    /\ s1 = s /\ toUpdate = upd)
   \/ (createsSecondary (allRelatedContacts env s u upd) em ph = true
       /\ s1 = s ++ [createdSecondary env s em ph u]
       /\ toUpdate = upd ++ [createdSecondary env s em ph u])) ->
  updateAll (now env) s1 toUpdate = Some s' ->
  identifyContact (calm env) s data = (s', Returned (readBack env s' u)).
Proof.
  intros em ph Hne Hplan Hs1 Hup. unfold identifyContact. fold em ph.
  unfold answered. cbn [fails calm]. rewrite findMatching_calm.
  destruct (findMatching env s em ph) as [|c0 m] eqn:Em; [congruence|].
  rewrite (plan_calm _ _ _ _ Hplan).
  eapply linkAndRespond_committed; eauto.
Qed.

(** * Rows written by a call *)

Lemma plan_writesBack env s m u upd :
  (forall c, In c m -> In c s /\ notDeleted c = true) ->
  plan env s m = Some (Proceed u upd) ->
  forall c, In c upd -> writesBack s c.
Proof.
  intros Hm. unfold plan.
  destruct (uniquePrimaryContacts env s m) as [[|u0 rest]|] eqn:Eu;
    [| |discriminate].
  - destruct m as [|oldest m']; [discriminate|].
    destruct (isSecondary oldest && truthyNum (linkedId oldest)).
    + destruct (linkedId oldest) as [l|]; [|discriminate].
      destruct (answered env FindOldestPrimary (findUnique s l))
        as [[f|]|]; try discriminate.
      intros [= _ <-] x [].
    + intros [= _ <-] x [].
  - destruct (demotionsFrom env s u0 1 rest) as [upd0|] eqn:Ed;
      [|discriminate].
    intros [= _ <-] c Hc. apply (demotionsFrom_Some _ _ _ _ _ _ Ed) in Hc.
    destruct Hc as (d & Hd & [->|(c0 & Hc0 & Hl & Hn & ->)]).
    + exists d. cbn. repeat split; auto.
      eapply resolvedAll_live; eauto.
      eapply uniquePrimaryContacts_In; eauto. now right.
    + exists c0. cbn. intuition.
Qed.

Lemma writesBack_extends s extra c : writesBack s c -> writesBack (s ++ extra) c.
Proof.
  intros (r & Hr & H). exists r. split; [apply in_or_app; now left | exact H].
Qed.

Lemma writesBack_self s c : In c s -> writesBack s c.
Proof. intros H. exists c. repeat split; auto. Qed.

Lemma writesBack_ids s c : writesBack s c -> In (id c) (map id s).
Proof. intros (r & Hr & -> & _). now apply in_map. Qed.

(** The store and the updates a call hands to the transaction. *)
Lemma linkAndRespond_writes env s em ph u upd s' o :
  (forall c, In c upd -> writesBack s c) ->
  linkAndRespond env s em ph u upd = (s', o) ->
  exists extra tu,
    (extra = [] \/ extra = [createdSecondary env s em ph u])
    /\ (forall c, In c tu -> writesBack (s ++ extra) c)
    /\ ((s' = s ++ extra /\ (tu = [] \/ o = Thrown))
        \/ updateAll (now env) (s ++ extra) tu = Some s')
    /\ (o = Thrown ->
        fails env FindRelated = true \/ fails env CreateSecondary = true
        \/ fails env Transaction = true \/ fails env Refetch = true)
    /\ (o = Thrown -> s' = s \/ fails env Refetch = true
                      \/ (fails env Transaction = true /\ s' = s ++ extra)).
Proof.
  intros Hupd H. apply linkAndRespond_inv in H.
  destruct H as [(-> & -> & Hf)|(s1 & tu & Hs1 & Ho)].
  { exists [], []. rewrite app_nil_r. split; [now left|].
    split; [intros c []|]. split; [left; auto|]. split; [tauto|auto]. }
  set (cs := createdSecondary env s em ph u) in *.
  assert (exists extra,
            (extra = [] \/ extra = [cs]) /\ s1 = s ++ extra
            /\ forall c, In c tu -> writesBack (s ++ extra) c)
    as (extra & Hex & -> & Htu).
  { destruct Hs1 as [(_ & -> & ->)|(_ & -> & ->)].
    - exists []. rewrite app_nil_r. auto.
    - exists [cs]. repeat split; auto. intros c Hc.
      apply in_app_or in Hc. destruct Hc as [Hc|[<-|[]]].
      + now apply writesBack_extends, Hupd.
      + apply writesBack_self, in_or_app. right. now left. }
  exists extra, tu. split; [exact Hex|]. split; [exact Htu|].
  destruct Ho as [(-> & -> & _ & Ht)|(Hup & _ & [(-> & Hre)|(-> & _)])].
  - assert (Hf : fails env Transaction = true).
    { unfold transaction in Ht.
      destruct (fails env Transaction); [reflexivity|].
      destruct (updateAll_defined (now env) tu (s ++ extra)) as (s2 & E2);
        [|congruence].
      intros c Hc. apply writesBack_ids, Htu, Hc. }
    split; [left; auto|]. split; auto.
  - split; [now right|]. split; auto.
  - split; [now right|]. split; discriminate.
Qed.

(** A failing transaction is the database's doing: no update of a call is
    addressed to a missing row. *)
Lemma identifyContact_writes env s data s' o :
  identifyContact env s data = (s', o) ->
  exists extra tu,
    (extra = []
     \/ exists l p, extra = [mkContact (nextId s)
                               (orNull (reqPhoneNumber data))
                               (orNull (reqEmail data)) l p
                               (now env) (now env) None])
    /\ (forall c, In c tu -> writesBack (s ++ extra) c)
    /\ ((s' = s ++ extra /\ (tu = [] \/ o = Thrown))
        \/ updateAll (now env) (s ++ extra) tu = Some s').
Proof.
  intros E. apply identifyContact_inv in E. cbv zeta in E.
  destruct E as [(-> & _)|[(_ & _ & E)|[(_ & _ & _ & E)
                                        |(u & upd & _ & _ & Hplan & E)]]].
  - exists [], []. rewrite app_nil_r. split; [now left|].
    split; [intros c []|]. left. auto.
  - apply createPrimary_inv in E. exists (if fails env CreateNewPrimary
      then [] else [mkContact (nextId s) (orNull (reqPhoneNumber data))
                      (orNull (reqEmail data)) None primary
                      (now env) (now env) None]), [].
    destruct E as [(-> & _ & ->)|(-> & -> & _)].
    + rewrite app_nil_r. split; [now left|].
      split; [intros c []|]. left. auto.
    + split; [right; eauto|]. split; [intros c []|]. left. auto.
  - apply createPrimary_inv in E. exists (if fails env CreateOrphanPrimary
      then [] else [mkContact (nextId s) (orNull (reqPhoneNumber data))
                      (orNull (reqEmail data)) None primary
                      (now env) (now env) None]), [].
    destruct E as [(-> & _ & ->)|(-> & -> & _)].
    + rewrite app_nil_r. split; [now left|].
      split; [intros c []|]. left. auto.
    + split; [right; eauto|]. split; [intros c []|]. left. auto.
  - pose proof (plan_writesBack _ _ _ _ _ (findMatching_live env s _ _) Hplan)
      as Hupd.
    destruct (linkAndRespond_writes _ _ _ _ _ _ _ _ Hupd E)
      as (extra & tu & Hex & Htu & Hs' & _).
    exists extra, tu. split; [|auto].
    destruct Hex as [-> | ->]; [now left|]. right.
    unfold createdSecondary, create. cbn [snd]. eauto.
Qed.

(** * Order of the resolved primaries *)

Lemma filter_filter_and {A} (f g : A -> bool) l :
  filter f (filter g l) = filter (fun x => g x && f x) l.
Proof.
  induction l as [|x l IH]; [reflexivity|]. cbn.
  destruct (g x); cbn; [destruct (f x)|]; now rewrite IH.
Qed.

(** A list with a filtered image [a ++ x :: b] splits around [x]. *)
Lemma filter_split {A} (f : A -> bool) l : forall a x b,
  filter f l = a ++ x :: b ->
  exists a' b', l = a' ++ x :: b' /\ forall y, In y b -> In y b'.
Proof.
  induction l as [|z l IH]; intros a x b H; cbn in H.
  - destruct a; discriminate.
  - destruct (f z).
    + destruct a as [|z' a].
      * injection H as -> H. exists [], l. split; [reflexivity|].
        intros y Hy. rewrite <- H in Hy. now apply filter_In in Hy.
      * injection H as <- H. destruct (IH _ _ _ H) as (a' & b' & -> & Hb).
        exists (z :: a'), b'. auto.
    + destruct (IH _ _ _ H) as (a' & b' & -> & Hb).
      exists (z :: a'), b'. auto.
Qed.

Section Firsts.
Context {A : Type} (eqb : A -> A -> bool).
Hypothesis eqb_eq : forall x y, eqb x y = true <-> x = y.

Lemma fold_setAdd_from ks : forall acc,
  fold_left (setAdd eqb) ks acc
  = acc ++ filter (fun x => negb (existsb (eqb x) acc))
             (fold_left (setAdd eqb) ks []).
Proof.
  induction ks as [|k ks IH]; intros acc; cbn [fold_left].
  - cbn. now rewrite app_nil_r.
  - rewrite (IH (setAdd eqb acc k)), (IH (setAdd eqb [] k)).
    unfold setAdd. cbn [existsb app].
    destruct (existsb (eqb k) acc) eqn:E.
    + f_equal. cbn [filter]. rewrite E. cbn [negb].
      rewrite filter_filter_and. apply filter_ext_in. intros x Hx.
      cbn [existsb]. rewrite orb_false_r.
      destruct (existsb (eqb x) acc) eqn:Ex; cbn;
        [now rewrite andb_false_r|].
      rewrite andb_true_r.
      destruct (eqb x k) eqn:Exk; [|reflexivity].
      apply eqb_eq in Exk. subst x. congruence.
    + rewrite <- app_assoc. f_equal. cbn [app filter]. rewrite E.
      cbn [negb]. f_equal.
      rewrite filter_filter_and. apply filter_ext. intros x.
      rewrite existsb_app. cbn [existsb]. rewrite orb_false_r.
      rewrite negb_orb. apply andb_comm.
Qed.

(** [new Set(array)], from the front: the first element, then the set of
    the others without it. *)
Lemma setOfList_cons k ks :
  setOfList eqb (k :: ks)
  = k :: filter (fun x => negb (eqb x k)) (setOfList eqb ks).
Proof.
  unfold setOfList. cbn [fold_left]. rewrite fold_setAdd_from.
  unfold setAdd. cbn [existsb app]. f_equal.
  apply filter_ext. intros x. cbn. now rewrite orb_false_r.
Qed.

(** A value that comes before another in the set was inserted before any
    occurrence of the other. *)
Lemma setOfList_before ks : forall a x b y,
  setOfList eqb ks = a ++ x :: b -> In y b ->
  exists k1 k2, ks = k1 ++ x :: k2 /\ ~ In y k1.
Proof.
  induction ks as [|k ks IH]; intros a x b y H Hy.
  - destruct a; discriminate.
  - rewrite setOfList_cons in H. destruct a as [|k' a].
    + injection H as -> _. exists [], ks. auto.
    + injection H as <- H.
      assert (Hyk : y <> k).
      { assert (Hin : In y (a ++ x :: b))
          by (apply in_or_app; right; now right).
        rewrite <- H in Hin. apply filter_In in Hin.
        destruct Hin as (_ & Hin). intros ->.
        assert (eqb k k = true) by now apply eqb_eq.
        destruct (eqb k k); discriminate. }
      destruct (filter_split _ _ _ _ _ H) as (a' & b' & E & Hb).
      destruct (IH _ _ _ y E (Hb y Hy)) as (k1 & k2 & -> & Hk1).
      exists (k :: k1), k2. split; [reflexivity|].
      intros [<-|Hin]; auto.
Qed.
End Firsts.

Lemma fold_mapSet_keys l : forall m0,
  map fst (fold_left (fun m c => mapSet m (id c) c) l m0)
  = fold_left (setAdd Z.eqb) (map id l) (map fst m0).
Proof.
  induction l as [|c l IH]; intros m0; [reflexivity|].
  cbn [fold_left map]. rewrite IH, mapSet_keys. reflexivity.
Qed.

(** The ids of the de-duplicated array, in order: the ids of the array,
    each at its first occurrence. *)
Lemma uniqueById_firsts l :
  map id (uniqueById l) = setOfList Z.eqb (map id l).
Proof. rewrite uniqueById_ids. apply fold_mapSet_keys. Qed.

Lemma In_insertSorted {A} (le : A -> A -> bool) x y l :
  In y (insertSorted le x l) -> y = x \/ In y l.
Proof.
  intros H.
  apply (Permutation_in _ (Permutation_sym (insertSorted_perm le x l))) in H.
  destruct H; auto.
Qed.

(** Sorting is stable at the head: a row that follows the head with the
    same key followed it in the input. *)
Lemma stableSort_head_stable {A} (key : A -> Z) l : forall u rest p,
  stableSort (fun a b => key a <=? key b) l = u :: rest ->
  In p rest -> key p = key u ->
  exists a b, l = a ++ u :: b /\ In p b.
Proof.
  induction l as [|x l IH]; intros u rest p H Hp Hk; [discriminate|].
  cbn [stableSort] in H.
  destruct (stableSort (fun a b => key a <=? key b) l) as [|y t] eqn:E.
  - cbn in H. injection H as <- <-. destruct Hp.
  - cbn [insertSorted] in H.
    destruct (Z.leb_spec (key x) (key y)) as [Hle|Hgt].
    + injection H as <- <-. exists [], l. split; [reflexivity|].
      apply (stableSort_In (fun a b => key a <=? key b)). now rewrite E.
    + injection H as <- <-.
      apply In_insertSorted in Hp. destruct Hp as [->|Hp]; [lia|].
      destruct (IH _ _ _ eq_refl Hp Hk) as (a & b & -> & Hb).
      exists (x :: a), b. auto.
Qed.

Lemma resolved_short s c :
  resolved s c = [] \/ exists p, resolved s c = [p].
Proof.
  unfold resolved. destruct (isPrimary c); [eauto|].
  destruct (truthyNum (linkedId c)); [|auto].
  destruct (linkedId c) as [l|]; [|auto].
  destruct (findUnique s l) as [p|]; [|auto].
  destruct (isPrimary p); eauto.
Qed.

(** An element of the [primaryContacts] array was found for a matching
    contact, and what comes before it was found for earlier ones. *)
Lemma resolvedAll_split s m : forall l1 z l2,
  resolvedAll s m = l1 ++ z :: l2 ->
  exists m1 c m2,
    m = m1 ++ c :: m2 /\ In z (resolved s c)
    /\ forall w, In w (resolvedAll s m1) -> In w l1.
Proof.
  unfold resolvedAll.
  induction m as [|c m IH]; intros l1 z l2 H; cbn [flat_map] in H.
  - destruct l1; discriminate.
  - destruct (resolved_short s c) as [E|(p & E)]; rewrite E in H.
    + destruct (IH _ _ _ H) as (m1 & c' & m2 & -> & Hz & Hm1).
      exists (c :: m1), c', m2. split; [reflexivity|]. split; [assumption|].
      cbn [flat_map]. now rewrite E.
    + destruct l1 as [|w l1]; cbn in H.
      * injection H as -> _. exists [], c, m. split; [reflexivity|].
        split; [rewrite E; now left | intros w []].
      * injection H as -> H.
        destruct (IH _ _ _ H) as (m1 & c' & m2 & -> & Hz & Hm1).
        exists (c :: m1), c', m2. split; [reflexivity|].
        split; [assumption|]. cbn [flat_map]. rewrite E.
        intros w' [<-|Hw]; [now left | right; auto].
Qed.

(** * Resolution on a well-formed store *)

(** On a well-formed store a non-deleted row resolves to exactly one
    primary, the one [rootId] names. *)
Lemma resolved_wellFormed s c :
  wellFormed s -> In c s -> notDeleted c = true ->
  exists p, resolved s c = [p] /\ In p s /\ isPrimary p = true
            /\ notDeleted p = true /\ rootId c = Some (id p).
Proof.
  intros Hwf Hc Hl. unfold resolved, rootId.
  destruct (linkPrecedence c) eqn:Ep.
  - exists c. unfold isPrimary. rewrite Ep. auto.
  - assert (isPrimary c = false) as -> by (unfold isPrimary; now rewrite Ep).
    apply notDeleted_iff in Hl.
    destruct (wf_one_hop s Hwf c Hc Hl Ep) as (p & Hp & Hlink & Hpp & Hpd).
    exists p. rewrite Hlink. cbn.
    pose proof (wf_positive s Hwf p Hp) as Hpos.
    assert ((id p =? 0) = false) as -> by (apply Z.eqb_neq; lia). cbn.
    apply notDeleted_iff in Hpd. apply isPrimary_iff in Hpp.
    rewrite (findUnique_found s p (wf_unique s Hwf) Hp Hpd), Hpp. auto.
Qed.

Lemma orNull_present o e : present o e -> orNull o = Some e.
Proof.
  intros (-> & Hne). unfold orNull. cbn.
  apply String.eqb_neq in Hne. now rewrite Hne.
Qed.

Lemma single_by_id (l : list Contact) x :
  NoDup (map id l) -> (forall y, In y l -> y = x) -> l <> [] -> l = [x].
Proof.
  destruct l as [|a [|b l]]; intros Hnd Hall Hne; [congruence| |].
  - now rewrite (Hall a (or_introl eq_refl)).
  - exfalso. rewrite (Hall a), (Hall b) in Hnd; cbn; auto.
    inversion Hnd as [|? ? Hx _]; subst. apply Hx. now left.
Qed.

(** * The response does not depend on the order of the re-fetched rows *)

Lemma ascii_compare_refl a : Ascii.compare a a = Eq.
Proof. unfold Ascii.compare. apply N.compare_refl. Qed.

Lemma string_compare_lt_trans a : forall b c,
  String.compare a b = Lt -> String.compare b c = Lt ->
  String.compare a c = Lt.
Proof.
  induction a as [|x a IH]; intros [|y b] [|z c]; cbn; try congruence.
  destruct (Ascii.compare x y) eqn:Exy; try discriminate;
    destruct (Ascii.compare y z) eqn:Eyz; try discriminate; intros H1 H2.
  - apply Ascii.compare_eq_iff in Exy, Eyz. subst.
    rewrite ascii_compare_refl. eauto.
  - apply Ascii.compare_eq_iff in Exy. subst. now rewrite Eyz.
  - apply Ascii.compare_eq_iff in Eyz. subst. now rewrite Exy.
  - unfold Ascii.compare in *. rewrite N.compare_lt_iff in *.
    assert (E : (N_of_ascii x ?= N_of_ascii z)%N = Lt)
      by (apply N.compare_lt_iff; lia).
    now rewrite E.
Qed.

Lemma string_ltb_trans a b c :
  String.ltb a b = true -> String.ltb b c = true -> String.ltb a c = true.
Proof.
  unfold String.ltb. intros H1 H2.
  destruct (String.compare a b) eqn:E1; try discriminate.
  destruct (String.compare b c) eqn:E2; try discriminate.
  now rewrite (string_compare_lt_trans a b c E1 E2).
Qed.

Lemma string_ltb_asym a b :
  String.ltb a b = true -> String.ltb b a = true -> False.
Proof.
  unfold String.ltb. rewrite (String.compare_antisym b a).
  destruct (String.compare a b); cbn; discriminate.
Qed.

(** Strictly ascending lists with the same members are equal. *)
Lemma ascendingStrings_unique l1 l2 :
  ascendingStrings l1 -> ascendingStrings l2 ->
  (forall x, In x l1 <-> In x l2) -> l1 = l2.
Proof.
  unfold ascendingStrings. intros H1 H2 Hin.
  apply (StronglySorted_unique (fun a b => String.ltb a b = true));
    [exact string_ltb_asym | | | exact Hin];
    apply Sorted_StronglySorted; auto;
    intros a b c; apply string_ltb_trans.
Qed.

Lemma ascendingIds_unique l1 l2 :
  ascendingIds l1 -> ascendingIds l2 ->
  (forall x, In x l1 <-> In x l2) -> l1 = l2.
Proof.
  unfold ascendingIds. intros H1 H2 Hin.
  apply (StronglySorted_unique Z.lt);
    [intros; lia | | | exact Hin];
    apply Sorted_StronglySorted; auto;
    intros a b c; apply Z.lt_trans.
Qed.

(** The consolidated lists of a cluster are determined by the cluster. *)
Lemma consolidated_unique own field cluster out1 out2 :
  consolidated own field cluster out1 ->
  consolidated own field cluster out2 -> out1 = out2.
Proof.
  intros (o1 & -> & Ha1 & Hin1 & _) (o2 & -> & Ha2 & Hin2 & _).
  f_equal. apply ascendingStrings_unique; auto.
  intros x. now rewrite Hin1, Hin2.
Qed.

Lemma secondariesListed_unique i cluster out1 out2 :
  secondariesListed i cluster out1 ->
  secondariesListed i cluster out2 -> out1 = out2.
Proof.
  intros (Ha1 & Hin1 & _) (Ha2 & Hin2 & _).
  apply ascendingIds_unique; auto.
  intros x. now rewrite Hin1, Hin2.
Qed.

(** The result builder does not look at the order of the contacts it is
    given, when they are the primary and contacts linked to it. *)
Lemma formatResponse_order P all all' :
  (forall c, In c all -> id c = id P \/ linkedId c = Some (id P)) ->
  (forall c, In c all <-> In c all') ->
  (forall c, In c all -> id c = id P -> c = P) ->
  formatResponse P all = formatResponse P all'.
Proof.
  intros Hall Hsame HP.
  pose (cluster := fun c => In c all).
  destruct (formatResponse_consolidated P all cluster) as (E1 & P1 & I1);
    [assumption | unfold cluster; tauto | exact HP |].
  destruct (formatResponse_consolidated P all' cluster) as (E2 & P2 & I2);
    [intros c Hc; apply Hall, Hsame, Hc
    | unfold cluster; intros c; rewrite Hsame; tauto | exact HP |].
  pose proof (consolidated_unique _ _ _ _ _ E1 E2) as Ee.
  pose proof (consolidated_unique _ _ _ _ _ P1 P2) as Ep.
  pose proof (secondariesListed_unique _ _ _ _ I1 I2) as Ei.
  unfold formatResponse in *.
  cbn [contact emails phoneNumbers secondaryContactIds] in Ee, Ep, Ei.
  now rewrite Ee, Ep, Ei.
Qed.

(** On a well-formed store the response read back for a stored primary is
    the same whatever order the database returns the rows in. *)
Lemma readBack_order env env' s u :
  wellFormed s -> In u s -> notDeleted u = true -> isPrimary u = true ->
  readBack env' s u = readBack env s u.
Proof.
  intros Hwf Hu Hl Hp.
  assert (Hshown : forall e,
            primaryInFinalGroup u (finalGroupContacts e s u) = Some u).
  { intros e. unfold primaryInFinalGroup, orElse.
    assert (Hfin : In u (finalGroupContacts e s u))
      by (apply finalGroupContacts_In; auto).
    destruct (find _ (finalGroupContacts e s u)) as [p|] eqn:E.
    - apply find_some in E. destruct E as (Hin & Hb).
      apply andb_true_iff in Hb. destruct Hb as (Hi & _).
      apply Z.eqb_eq in Hi. apply finalGroupContacts_In in Hin.
      f_equal. apply (NoDup_map_id_inj s); auto using wf_unique. tauto.
    - pose proof (find_none _ _ E u Hfin) as Hb. cbn in Hb.
      rewrite Z.eqb_refl, Hp in Hb. discriminate. }
  unfold readBack. rewrite !Hshown.
  apply formatResponse_order.
  - intros c Hc. apply finalGroupContacts_In in Hc. tauto.
  - intros c. now rewrite !finalGroupContacts_In.
  - intros c Hc Hid. apply finalGroupContacts_In in Hc.
    apply (NoDup_map_id_inj s); auto using wf_unique. tauto.
Qed.

(** * Properties *)

(** ** The result value *)

Lemma orNull_idem o : orNull (orNull o) = orNull o.
Proof.
  unfold orNull. destruct (truthyStr o) eqn:E; [rewrite E|]; reflexivity.
Qed.

Lemma primaryFirst_alone o :
  setOfList String.eqb (primaryFirst o (addTruthy [] o)) = optList (orNull o).
Proof.
  unfold primaryFirst, addTruthy, orNull.
  destruct o as [x|]; [|reflexivity].
  destruct (truthyStr (Some x)) eqn:E; [|reflexivity].
  cbn. rewrite String.eqb_refl. reflexivity.
Qed.

Lemma formatResponse_alone c :
  formatResponse c [] =
  mkResponse (mkContactInfo (id c) (optList (orNull (email c)))
                (optList (orNull (phoneNumber c))) []).
Proof.
  unfold formatResponse. cbn [fold_left colEmails colPhones colIds].
  rewrite !primaryFirst_alone. reflexivity.
Qed.

Lemma identify_returns_formatted env s data r :
  snd (identifyContact env s data) = Returned r ->
  exists p all, r = formatResponse p all.
Proof.
  destruct (identifyContact env s data) as [s' o] eqn:E. cbn. intros ->.
  apply identifyContact_inv in E. cbv zeta in E.
  destruct E as [(_ & E)|[(_ & _ & E)|[(_ & _ & _ & E)
                                       |(u & upd & _ & _ & _ & E)]]].
  - discriminate.
  - apply createPrimary_inv in E.
    destruct E as [(_ & E & _)|(_ & _ & E)]; [discriminate|].
    injection E as ->. eauto.
  - apply createPrimary_inv in E.
    destruct E as [(_ & E & _)|(_ & _ & E)]; [discriminate|].
    injection E as ->. eauto.
  - apply linkAndRespond_inv in E.
    destruct E as [(_ & E & _)
                  |(s1 & tu & _ & [(_ & E & _)|(_ & _ & [(E & _)|(E & _)])])];
      try discriminate.
    injection E as ->. unfold readBack. eauto.
Qed.

(** C8, as stated, fails: the object a successful call returns has the
    single top-level field [contact]; the four fields sit one level below
    and the first is spelled [primaryContatctId]. *)
Lemma C8_result_keys_counterexample :
  exists r,
    snd (identifyContact (mkEnv 100 true) [] (mkRequest aliceMail None))
    = Returned r
    /\ keysOf (toJson r) <> specResultKeys.
Proof. eexists. split; [reflexivity | discriminate]. Qed.

(** C8, amended: every successful call returns an object whose only
    top-level field is [contact], holding exactly [primaryContatctId],
    [emails], [phoneNumbers] and [secondaryContactIds] in this order, where
    [primaryContatctId] is the id of the contact the result builder was
    given as primary. *)
Theorem C8_result_shape env s data r :
  snd (identifyContact env s data) = Returned r ->
  keysOf (toJson r) = ["contact"%string]
  /\ exists p all,
       r = formatResponse p all
       /\ toJson r =
          JObj [("contact"%string,
                 JObj [("primaryContatctId"%string, JNum (id p));
                       ("emails"%string,
                        JArr (map JStr (emails (contact r))));
                       ("phoneNumbers"%string,
                        JArr (map JStr (phoneNumbers (contact r))));
                       ("secondaryContactIds"%string,
                        JArr (map JNum (secondaryContactIds (contact r))))])].
Proof.
  intros H. split; [reflexivity|].
  destruct (identify_returns_formatted _ _ _ _ H) as (p & all & ->).
  exists p, all. split; reflexivity.
Qed.

Lemma C8_result_shape_witness :
  keysOf (toJson (formatResponse (row 1 aliceMail None None primary 100) []))
  = ["contact"%string].
Proof.
  exact (proj1 (C8_result_shape (mkEnv 100 true) []
                  (mkRequest aliceMail None) _ eq_refl)).
Defined.

(** ** Orphaned secondaries *)

Lemma resolvedAll_nil s l :
  (forall c, In c l -> resolved s c = []) -> resolvedAll s l = [].
Proof.
  unfold resolvedAll. induction l as [|c l IH]; intros H; [reflexivity|].
  cbn. rewrite (H c (or_introl eq_refl)). apply IH. intros; apply H; now right.
Qed.

(** C5, as stated, fails: with the referenced primary missing the matched
    secondary stays a secondary and a fresh primary row is created. *)
Lemma C5_orphan_counterexample :
  exists s' r,
    identifyContact (mkEnv 10 true) orphanStore (mkRequest aliceMail None)
    = (s', Returned r)
    /\ uniquePrimaryContacts (mkEnv 10 true) orphanStore
         (findMatching (mkEnv 10 true) orphanStore aliceMail None) = Some []
    /\ In (row 2 aliceMail None (Some 1) secondary 0) s'
    /\ List.length s' = S (List.length orphanStore)
    /\ primaryContatctId (contact r) = 3.
Proof.
  do 2 eexists. split; [reflexivity|].
  repeat split; cbn; auto.
Qed.

(** C5, amended: when the match set is non-empty and every matched record is
    a secondary whose non-zero [linkedId] names no non-deleted record, no
    stored row is changed; when no database call fails, one fresh primary
    row holding the request's email and phone is appended and reported
    alone, and when one fails the store stays as it was. *)
Theorem C5_orphan_creates_fresh_primary env s data :
  let em := reqEmail data in
  let ph := reqPhoneNumber data in
  let fresh :=
    (s ++ [mkContact (nextId s) (orNull ph) (orNull em) None primary
             (now env) (now env) None],
     Returned (mkResponse (mkContactInfo (nextId s) (optList (orNull em))
                             (optList (orNull ph)) []))) in
  findMatching env s em ph <> [] ->
  (forall c, In c (findMatching env s em ph) ->
     isSecondary c = true
     /\ exists l, linkedId c = Some l /\ l <> 0 /\ findUnique s l = None) ->
  (healthy env -> identifyContact env s data = fresh)
  /\ (identifyContact env s data = fresh
      \/ identifyContact env s data = (s, Thrown)).
Proof.
  intros em ph fresh Hne Hall.
  assert (Hprim : forall c, In c (findMatching env s em ph) ->
                            resolved s c = []).
  { intros c Hc. destruct (Hall c Hc) as (Hs & l & Hl & Hl0 & Hf).
    unfold resolved. unfold isSecondary in Hs.
    destruct (isPrimary c); [discriminate|].
    rewrite Hl, Hf. destruct (truthyNum (Some l)); reflexivity. }
  assert (Hcases :
    identifyContact env s data =
    if fails env FindMatching then (s, Thrown)
    else match uniquePrimaryContacts env s (findMatching env s em ph) with
         | None => (s, Thrown)
         | Some _ =>
             if fails env FindOldestPrimary then (s, Thrown)
             else if fails env CreateOrphanPrimary then (s, Thrown)
             else fresh
         end).
  { unfold identifyContact, answered. fold em ph.
    destruct (fails env FindMatching); [reflexivity|].
    destruct (findMatching env s em ph) as [|c0 rest] eqn:Hm; [congruence|].
    unfold plan.
    destruct (uniquePrimaryContacts env s (c0 :: rest)) as [l|] eqn:El;
      [|reflexivity].
    apply uniquePrimaryContacts_Some in El.
    rewrite (resolvedAll_nil s (c0 :: rest) Hprim) in El. cbn in El.
    subst l.
    destruct (Hall c0 (or_introl eq_refl)) as (Hs & l & Hl & Hl0 & Hf).
    rewrite Hs, Hl. cbn [andb truthyNum].
    assert ((l =? 0) = false) as -> by (apply Z.eqb_neq; exact Hl0).
    cbn [negb]. unfold answered.
    destruct (fails env FindOldestPrimary); [reflexivity|].
    rewrite Hf. unfold createPrimary.
    destruct (fails env CreateOrphanPrimary); [reflexivity|].
    unfold create. rewrite formatResponse_alone.
    cbn [id email phoneNumber]. rewrite !orNull_idem. reflexivity. }
  split.
  - intros Hh. rewrite Hcases, !Hh.
    rewrite (uniquePrimaryContacts_answered env s _ (fun k => Hh _)).
    reflexivity.
  - rewrite Hcases.
    destruct (fails env FindMatching); [now right|].
    destruct (uniquePrimaryContacts env s _); [|now right].
    destruct (fails env FindOldestPrimary); [now right|].
    destruct (fails env CreateOrphanPrimary); [now right | now left].
Qed.

Lemma C5_orphan_creates_fresh_primary_witness :
  identifyContact (mkEnv 10 true) orphanStore (mkRequest aliceMail None) =
  (orphanStore ++ [row 3 aliceMail None None primary 10],
   Returned (mkResponse (mkContactInfo 3 ["a@x.com"%string] [] []))).
Proof.
  apply (C5_orphan_creates_fresh_primary (mkEnv 10 true) orphanStore
           (mkRequest aliceMail None)).
  - vm_compute. discriminate.
  - vm_compute. intros c [<-|[]]. split; [reflexivity|].
    exists 1. repeat split. lia.
  - apply healthy_mkEnv.
Defined.

(** ** Writes *)

(** C3, as stated, fails: the new secondary row is created before the
    transaction and outside it, so it stays when the transaction fails. *)
Lemma C3_atomic_counterexample :
  exists s',
    identifyContact (mkEnv 10 false) oneContact (mkRequest aliceMail phone222)
    = (s', Thrown)
    /\ s' <> oneContact.
Proof. eexists. split; [reflexivity | discriminate]. Qed.

(** C3, amended: the demotions and re-links are applied in one transaction,
    all of them or none; the new secondary is created before it and outside
    it.  After a failed call the store is as it was before the request; or
    it is as before with one more row, the secondary created for the
    request (the transaction failed, no demotion or re-link is applied); or
    it is the store the call leaves when nothing fails (every write is
    applied, the query after the commit failed). *)
Theorem C3_failed_call_store env s data s' :
  identifyContact env s data = (s', Thrown) ->
  s' = s
  \/ (fails env Transaction = true
      /\ exists u,
           s' = s ++ [mkContact (nextId s) (orNull (reqPhoneNumber data))
                        (orNull (reqEmail data)) (Some (id u)) secondary
                        (now env) (now env) None])
  \/ (fails env Refetch = true
      /\ s' = fst (identifyContact (calm env) s data)).
Proof.
  intros H. apply identifyContact_inv in H. cbv zeta in H.
  destruct H as [(-> & _)|[(_ & _ & E)|[(_ & _ & _ & E)
                                        |(u & upd & _ & Hne & Hplan & E)]]].
  - now left.
  - apply createPrimary_inv in E.
    destruct E as [(-> & _)|(_ & _ & E)]; [now left | discriminate].
  - apply createPrimary_inv in E.
    destruct E as [(-> & _)|(_ & _ & E)]; [now left | discriminate].
  - apply linkAndRespond_inv in E.
    destruct E as [(-> & _)|(s1 & tu & Hs1 & Hs')]; [now left|].
    destruct Hs' as [(-> & _ & Hnil & Ht)
                    |(Hup & _ & [(_ & Hre)|(E & _)])]; [| |discriminate].
    + assert (Hf : fails env Transaction = true).
      { pose proof (plan_writesBack _ _ _ _ _ (findMatching_live env s _ _)
                      Hplan) as Hupd.
        unfold transaction in Ht.
        destruct (fails env Transaction); [reflexivity|].
        destruct (updateAll_defined (now env) tu s1) as (s2 & E2);
          [|congruence].
        intros c Hc. apply writesBack_ids.
        destruct Hs1 as [(_ & -> & ->)|(_ & -> & ->)]; [auto|].
        apply in_app_or in Hc. destruct Hc as [Hc|[<-|[]]].
        - now apply writesBack_extends, Hupd.
        - apply writesBack_self, in_or_app. right. now left. }
      destruct Hs1 as [(_ & -> & _)|(_ & -> & _)]; [now left|].
      right. left. split; [assumption|]. exists u. reflexivity.
    + right. right. split; [assumption|].
      now rewrite (identifyContact_committed _ _ _ _ _ _ _ _ Hne Hplan Hs1 Hup).
Qed.

Lemma C3_failed_call_store_witness :
  fst (identifyContact (mkEnv 10 false) oneContact
         (mkRequest aliceMail phone222))
  = oneContact ++ [row 2 aliceMail phone222 (Some 1) secondary 10].
Proof.
  destruct (C3_failed_call_store (mkEnv 10 false) oneContact
              (mkRequest aliceMail phone222) _ eq_refl)
    as [H|[(_ & u & H)|(H & _)]]; [discriminate H | | discriminate H].
  reflexivity.
Defined.

(** C4: the novelty test looks at the ultimate primary's cluster as stored
    before the merge.  Merging the cluster of [a@x.com] with the cluster of
    [111] on the request [(a@x.com, 111)] demotes row 2 and still adds row 3,
    although both fields are held by members of the merged cluster. *)
Lemma C4_merge_adds_row_for_known_fields :
  let env := mkEnv 10 true in
  let req := mkRequest aliceMail phone111 in
  let s' := fst (identifyContact env twoClusters req) in
  s' = [ row 1 aliceMail None None primary 0;
         mkContact 2 phone111 None (Some 1) secondary 1 10 None;
         mkContact 3 phone111 aliceMail (Some 1) secondary 10 10 None ]
  /\ plan env twoClusters (findMatching env twoClusters aliceMail phone111)
     = Some (Proceed (row 1 aliceMail None None primary 0)
               [mkContact 2 phone111 None (Some 1) secondary 1 1 None])
  /\ existingPhoneNumbers
       (allRelatedContacts env twoClusters
          (row 1 aliceMail None None primary 0)
          [mkContact 2 phone111 None (Some 1) secondary 1 1 None]) = []
  /\ (exists c, In c (findGroup s' 1) /\ id c <> 3 /\ email c = reqEmail req)
  /\ (exists c, In c (findGroup s' 1) /\ id c <> 3
                /\ phoneNumber c = reqPhoneNumber req).
Proof.
  cbv zeta. repeat split.
  - exists (row 1 aliceMail None None primary 0).
    repeat split; [vm_compute; auto | discriminate].
  - exists (mkContact 2 phone111 None (Some 1) secondary 1 10 None).
    repeat split; [vm_compute; auto | discriminate].
Qed.
(** ** The match resolver *)

Lemma NoDup_map_perm {A B} (f : A -> B) l l' :
  Permutation l l' -> NoDup (map f l) -> NoDup (map f l').
Proof.
  intros Hp. apply Permutation_NoDup. now apply Permutation_map.
Qed.

Lemma findMatching_perm env s em ph :
  Permutation (filter (fun c => matchesFragment em ph c && notDeleted c) s)
    (findMatching env s em ph).
Proof.
  unfold findMatching.
  eapply Permutation_trans; [apply handedOut_perm | apply stableSort_perm].
Qed.

(** C6, as stated, fails: the query orders by [createdAt] alone, so rows
    that agree on it come in the order the database chooses; here the
    row with the higher id comes first, and another run against the same
    store returns another sequence. *)
Lemma C6_tie_counterexample :
  findMatching (backwards 10) tieStore bobMail phone222
  = [row 3 bobMail None None primary 5; row 2 None phone222 None primary 5]
  /\ findMatching (mkEnv 10 true) tieStore bobMail phone222
     = [row 2 None phone222 None primary 5;
        row 3 bobMail None None primary 5].
Proof. split; reflexivity. Qed.

(** C6, amended: the matches are exactly the non-deleted rows that hold the
    given non-empty email or the given non-empty phone, each as often as
    the table holds it, in ascending order of [createdAt]; the order among
    rows of equal [createdAt] is the database's.  Two runs against the same
    store return the same rows, and the same sequence when no two matches
    agree on [createdAt].  The result is empty when no row qualifies. *)
Theorem C6_match_resolver env s em ph :
  let m := findMatching env s em ph in
  (forall c, In c m <->
     In c s /\ deletedAt c = None
     /\ ((exists e, present em e /\ email c = Some e)
         \/ (exists p, present ph p /\ phoneNumber c = Some p)))
  /\ Permutation
       (filter (fun c => matchesFragment em ph c && notDeleted c) s) m
  /\ StronglySorted (fun a b => createdAt a <= createdAt b) m
  /\ (forall env', Permutation m (findMatching env' s em ph))
  /\ (NoDup (map createdAt m) ->
      forall env', findMatching env' s em ph = m)
  /\ ((forall c, In c s -> matchesFragment em ph c && notDeleted c = false)
      -> m = []).
Proof.
  intros m.
  assert (Hperm : forall env', Permutation m (findMatching env' s em ph)).
  { intros env'. eapply Permutation_trans;
      [symmetry; apply findMatching_perm | apply findMatching_perm]. }
  assert (Hsorted : forall e,
            StronglySorted (fun a b => createdAt a <= createdAt b)
              (findMatching e s em ph)).
  { intros e. unfold findMatching.
    apply (stableSort_key_sorted createdAt). }
  split; [|split; [|split; [|split; [|split]]]].
  - intros c. unfold m. rewrite findMatching_In, matchesFragment_iff,
      notDeleted_iff. tauto.
  - apply findMatching_perm.
  - apply Hsorted.
  - exact Hperm.
  - intros Hnd env'.
    apply (StronglySorted_unique (fun a b => createdAt a < createdAt b)).
    + intros; lia.
    + apply StronglySorted_strict_keys; [apply Hsorted|].
      eapply NoDup_map_perm; [apply Hperm | exact Hnd].
    + apply StronglySorted_strict_keys; [apply Hsorted | exact Hnd].
    + intros x. split; apply Permutation_in;
        [symmetry|]; apply Hperm.
  - intros Hnone. unfold m, findMatching.
    replace (filter _ s) with (@nil Contact); [reflexivity|].
    symmetry. clear m Hperm Hsorted.
    induction s as [|x l IH]; [reflexivity|]. cbn.
    rewrite (Hnone x (or_introl eq_refl)).
    apply IH. intros c Hc. apply Hnone. now right.
Qed.

Lemma C6_match_resolver_witness :
  findMatching (backwards 10) pairStore aliceMail phone111
  = findMatching (mkEnv 10 true) pairStore aliceMail phone111
  /\ findMatching (mkEnv 10 true) pairStore bobMail phone222 = [].
Proof.
  split.
  - destruct (C6_match_resolver (mkEnv 10 true) pairStore aliceMail phone111)
      as (_ & _ & _ & _ & H & _).
    apply H. vm_compute. repeat constructor; cbn; intuition lia.
  - destruct (C6_match_resolver (mkEnv 10 true) pairStore bobMail phone222)
      as (_ & _ & _ & _ & _ & H).
    apply H. intros c [<-|[<-|[]]]; reflexivity.
Defined.

(** ** Reading back *)

Lemma find_In {A} (f : A -> bool) l x : find f l = Some x -> In x l.
Proof. intros H. apply (find_some _ _ H). Qed.

Lemma hd_error_In {A} (l : list A) x : hd_error l = Some x -> In x l.
Proof. destruct l; cbn; [discriminate|]. intros [= <-]. now left. Qed.

(** In a list ordered by [createdAt], the first row passing a test is
    created no later than any row passing it. *)
Lemma find_sorted_least (f : Contact -> bool) l p c :
  StronglySorted (fun a b => createdAt a <= createdAt b) l ->
  find f l = Some p -> In c l -> f c = true -> createdAt p <= createdAt c.
Proof.
  induction 1 as [|x l Hl IH Hx]; cbn; [discriminate|].
  destruct (f x) eqn:Ex.
  - intros [= <-] [<-|Hin] _; [lia|].
    rewrite Forall_forall in Hx. auto.
  - intros Hf [<-|Hin] Hc; [congruence|]. auto.
Qed.

Lemma finalGroupContacts_sorted env s u :
  StronglySorted (fun a b => createdAt a <= createdAt b)
    (finalGroupContacts env s u).
Proof. unfold finalGroupContacts. apply (stableSort_key_sorted createdAt). Qed.

Lemma finalGroupContacts_cluster env s u c :
  In c (finalGroupContacts env s u) <-> inFinalCluster s u c.
Proof.
  rewrite finalGroupContacts_In, notDeleted_iff. unfold inFinalCluster.
  tauto.
Qed.

(** After the writes of [linkAndRespond] the planned primary's row is
    still a non-deleted row of the store. *)
Lemma linkAndRespond_keeps_row env s em ph u upd s' o :
  In u s -> notDeleted u = true ->
  linkAndRespond env s em ph u upd = (s', o) ->
  exists u', In u' s' /\ id u' = id u /\ notDeleted u' = true.
Proof.
  intros Hin Hl H. apply linkAndRespond_inv in H.
  destruct H as [(-> & _)|(s1 & tu & Hs1 & Hs')]; [eauto|].
  assert (Hin1 : In u s1).
  { destruct Hs1 as [(_ & -> & _)|(_ & -> & _)]; [assumption|].
    apply in_or_app. now left. }
  destruct Hs' as [(-> & _)|(Hup & _)]; [eauto|].
  eapply updateAll_keeps_live; eauto.
Qed.

(** C10: when a call reaches the read-back, the reported id is the id of a
    row of the final cluster of the planned primary [u], that is, of a
    non-deleted row of the store after the call that carries the id of
    [u] or is linked to it: the row of [u] itself if it is a primary
    there; otherwise a primary of the cluster created no later than any
    other primary of it; otherwise, with no primary in the cluster, a row
    created no later than any other row of it. *)
Theorem C10_reported_primary_in_final_cluster env s data u upd s' r :
  plan env s (findMatching env s (reqEmail data) (reqPhoneNumber data))
  = Some (Proceed u upd) ->
  identifyContact env s data = (s', Returned r) ->
  exists p,
    inFinalCluster s' u p
    /\ primaryContatctId (contact r) = id p
    /\ ((id p = id u /\ linkPrecedence p = primary)
        \/ ((forall c, inFinalCluster s' u c -> id c = id u ->
               linkPrecedence c = secondary)
            /\ linkPrecedence p = primary
            /\ (forall c, inFinalCluster s' u c ->
                  linkPrecedence c = primary -> createdAt p <= createdAt c))
        \/ ((forall c, inFinalCluster s' u c -> linkPrecedence c = secondary)
            /\ forall c, inFinalCluster s' u c ->
                 createdAt p <= createdAt c)).
Proof.
  intros Hplan H.
  pose proof H as H0. apply identifyContact_inv in H0. cbv zeta in H0.
  destruct H0 as [(_ & E)|[(_ & Hm & _)|[(_ & _ & Hp & _)
                                         |(u0 & upd0 & _ & _ & Hp & H0)]]];
    try congruence.
  { rewrite Hm in Hplan. discriminate Hplan. }
  rewrite Hplan in Hp. injection Hp as <- <-.
  destruct (plan_Proceed_live _ _ _ _ _ (findMatching_live env s _ _) Hplan)
    as (Hin & Hl).
  destruct (linkAndRespond_keeps_row _ _ _ _ _ _ _ _ Hin Hl H0)
    as (u' & Hu' & Hid & Hl').
  assert (Hfin : In u' (finalGroupContacts env s' u)).
  { apply finalGroupContacts_In. auto. }
  assert (Hr : r = readBack env s' u).
  { apply linkAndRespond_inv in H0.
    destruct H0 as [(_ & E & _)
                   |(s1 & tu & _ & [(_ & E & _)|(_ & _ & [(E & _)|(E & _)])])];
      congruence. }
  subst r. unfold readBack, primaryInFinalGroup, orElse.
  pose proof (finalGroupContacts_sorted env s' u) as Hsorted.
  pose proof (finalGroupContacts_cluster env s' u) as Hcl.
  set (fg := finalGroupContacts env s' u) in *.
  destruct (find (fun c => (id c =? id u) && isPrimary c) fg) as [p|] eqn:E1.
  - exists p. split; [apply Hcl; eapply find_In, E1|].
    split; [reflexivity|]. left.
    apply find_some in E1. destruct E1 as (_ & E1).
    apply andb_true_iff in E1.
    rewrite Z.eqb_eq, isPrimary_iff in E1. exact E1.
  - assert (Hnone : forall c, inFinalCluster s' u c -> id c = id u ->
                              linkPrecedence c = secondary).
    { intros c Hc Hi. apply Hcl in Hc.
      pose proof (find_none _ _ E1 c Hc) as Hb. cbn in Hb.
      apply Z.eqb_eq in Hi. rewrite Hi in Hb.
      now apply isPrimary_false_iff. }
    destruct (find isPrimary fg) as [p|] eqn:E2.
    + exists p. split; [apply Hcl; eapply find_In, E2|].
      split; [reflexivity|]. right. left. split; [exact Hnone|].
      split; [apply isPrimary_iff; apply (find_some _ _ E2)|].
      intros c Hc Hprim.
      eapply find_sorted_least; [exact Hsorted | exact E2 | now apply Hcl|].
      now apply isPrimary_iff.
    + destruct (hd_error fg) as [p|] eqn:E3.
      * exists p. split; [apply Hcl; eapply hd_error_In, E3|].
        split; [reflexivity|]. right. right.
        split.
        -- intros c Hc. apply isPrimary_false_iff.
           apply (find_none _ _ E2 c). now apply Hcl.
        -- intros c Hc. apply Hcl in Hc.
           destruct fg as [|x t]; [discriminate|]. cbn in E3.
           injection E3 as ->. destruct Hc as [<-|Hc]; [lia|].
           inversion Hsorted as [|? ? _ Hx]; subst.
           rewrite Forall_forall in Hx. auto.
      * destruct fg; [destruct Hfin | discriminate].
Qed.

Lemma C10_reported_primary_in_final_cluster_witness :
  exists p,
    inFinalCluster pairStore (row 1 aliceMail None None primary 0) p
    /\ primaryContatctId
         (contact (readBack (mkEnv 10 true) pairStore
                     (row 1 aliceMail None None primary 0)))
       = id p.
Proof.
  destruct (C10_reported_primary_in_final_cluster (mkEnv 10 true) pairStore
              (mkRequest aliceMail phone111)
              (row 1 aliceMail None None primary 0) [] pairStore
              (readBack (mkEnv 10 true) pairStore
                 (row 1 aliceMail None None primary 0)))
    as (p & Hp & Hid & _).
  - vm_compute. reflexivity.
  - vm_compute. reflexivity.
  - exists p. split; assumption.
Defined.
(** ** Choosing the ultimate primary *)

Lemma wellFormed_tieStore : wellFormed tieStore.
Proof. apply wellFormedb_sound. reflexivity. Qed.

Lemma wellFormed_twoClusters : wellFormed twoClusters.
Proof. apply wellFormedb_sound. reflexivity. Qed.

Lemma wellFormed_pairStore : wellFormed pairStore.
Proof. apply wellFormedb_sound. reflexivity. Qed.

(** The primaries the code resolves are the primaries the match set leads
    to. *)
Lemma uniquePrimaryContacts_resolved env s m l :
  wellFormed s ->
  (forall c, In c m -> In c s /\ notDeleted c = true) ->
  uniquePrimaryContacts env s m = Some l ->
  forall p, In p l <-> resolvedPrimary s m p.
Proof.
  intros Hwf Hm Hres p. unfold resolvedPrimary. split.
  - intros Hp.
    pose proof (uniquePrimaryContacts_In _ _ _ _ _ Hres Hp) as Hin.
    apply resolvedAll_In in Hin. destruct Hin as (c & Hc & Hin).
    destruct (Hm c Hc) as (Hcs & Hcl).
    apply (resolved_reaches s c p Hwf Hcs Hcl) in Hin.
    destruct Hin as (H1 & H2 & H3 & H4). eauto 6.
  - intros (Hin & Hprim & Hdel & c & Hc & Hreach).
    destruct (Hm c Hc) as (Hcs & Hcl).
    assert (Hp : In p (resolvedAll s m)).
    { apply resolvedAll_In. exists c. split; [assumption|].
      apply (resolved_reaches s c p Hwf Hcs Hcl). auto. }
    apply uniquePrimaryContacts_Some in Hres. subst l.
    apply stableSort_In.
    destruct (uniqueById_covers _ _ Hp) as (y & Hy & Hid).
    replace p with y; [assumption|].
    apply (NoDup_map_id_inj s); auto using wf_unique.
    apply uniqueById_In in Hy.
    now apply (resolvedAll_live s m y Hm Hy).
Qed.

(** Among resolved primaries of equal [createdAt], the head of the sorted
    array was reached first through the match set. *)
Lemma head_reached_first env s m u rest p :
  wellFormed s ->
  (forall c, In c m -> In c s /\ notDeleted c = true) ->
  uniquePrimaryContacts env s m = Some (u :: rest) ->
  In p rest -> createdAt p = createdAt u ->
  exists m1 c m2, m = m1 ++ c :: m2 /\ reaches c u
                  /\ forall c', In c' m1 -> ~ reaches c' p.
Proof.
  intros Hwf Hm Hres Hp Hk.
  pose proof (uniquePrimaryContacts_resolved _ _ _ _ Hwf Hm Hres) as Hmem.
  pose proof (uniquePrimaryContacts_NoDup _ _ _ _ Hres) as Hnd.
  pose proof Hres as Hl. apply uniquePrimaryContacts_Some in Hl.
  symmetry in Hl.
  destruct (stableSort_head_stable createdAt _ _ _ _ Hl Hp Hk)
    as (a & b & Ea & Hb).
  pose proof (uniqueById_firsts (resolvedAll s m)) as Hf.
  rewrite Ea, map_app in Hf. cbn [map] in Hf. symmetry in Hf.
  destruct (setOfList_before Z.eqb Z.eqb_eq _ _ _ _ (id p) Hf
              (in_map id _ _ Hb)) as (k1 & k2 & Ek & Hk1).
  apply map_eq_app in Ek. destruct Ek as (l1 & l2' & El & E1 & E2).
  apply map_eq_cons in E2. destruct E2 as (z & l2 & -> & Hz & _).
  destruct (resolvedAll_split _ _ _ _ _ El)
    as (m1 & c & m2 & -> & Hzc & Hm1).
  assert (Hcm : In c (m1 ++ c :: m2)) by (apply in_or_app; right; now left).
  destruct (Hm c Hcm) as (Hcs & Hcl).
  apply (resolved_reaches s c z Hwf Hcs Hcl) in Hzc.
  destruct Hzc as (Hzs & _ & _ & Hreach).
  assert (z = u).
  { apply (NoDup_map_id_inj s); auto using wf_unique.
    apply (Hmem u). now left. }
  subst z. exists m1, c, m2. split; [reflexivity|]. split; [assumption|].
  intros c' Hc' Hr. apply Hk1. rewrite <- E1. apply in_map. apply Hm1.
  apply resolvedAll_In. exists c'. split; [assumption|].
  assert (Hc'm : In c' (m1 ++ c :: m2)) by (apply in_or_app; now left).
  destruct (Hm c' Hc'm) as (Hcs' & Hcl').
  apply (resolved_reaches s c' p Hwf Hcs' Hcl').
  destruct (proj1 (Hmem p) (or_intror Hp)) as (H1 & H2 & H3 & _). auto.
Qed.

(** C1, as stated, fails: precedence is decided by [createdAt] alone.  On a
    well-formed store where two primaries share their [createdAt], the one
    first reached through the match set wins, here id 3, although id 2 is
    earlier by [(createdAt, id)]. *)
Lemma C1_tie_counterexample :
  let env := mkEnv 10 true in
  let req := mkRequest aliceMail phone222 in
  wellFormed tieStore
  /\ exists u p rest s' r,
       uniquePrimaryContacts env tieStore
         (findMatching env tieStore (reqEmail req) (reqPhoneNumber req))
       = Some (u :: rest)
       /\ In p rest /\ keyLt p u
       /\ identifyContact env tieStore req = (s', Returned r)
       /\ primaryContatctId (contact r) = id u
       /\ primaryContatctId (contact r) <> id p.
Proof.
  split; [apply wellFormed_tieStore|].
  exists (row 3 bobMail None None primary 5),
         (row 2 None phone222 None primary 5).
  do 3 eexists. split; [reflexivity|].
  split; [now left|]. split; [right; cbn; lia|].
  split; [reflexivity|]. split; [reflexivity | discriminate].
Qed.

(** C1, amended: on a well-formed store, whenever the match set leads to at
    least one stored primary and no database call fails, the call returns,
    and the ultimate primary [u] whose id the response names is one of
    these primaries with the least [createdAt]; among those of equal
    [createdAt] it is the one reached first through the match set, in the
    order the database returned it, whatever the ids; and every other
    primary the match set leads to is stored afterwards as a secondary with
    [linkedId = id u]. *)
Theorem C1_earliest_created_primary_wins env s data :
  let m := findMatching env s (reqEmail data) (reqPhoneNumber data) in
  wellFormed s ->
  healthy env ->
  (exists p, resolvedPrimary s m p) ->
  exists u s' r,
    identifyContact env s data = (s', Returned r)
    /\ resolvedPrimary s m u
    /\ (forall p, resolvedPrimary s m p -> createdAt u <= createdAt p)
    /\ (forall p, resolvedPrimary s m p -> p <> u ->
          createdAt p = createdAt u ->
          exists m1 c m2, m = m1 ++ c :: m2 /\ reaches c u
                          /\ forall c', In c' m1 -> ~ reaches c' p)
    /\ primaryContatctId (contact r) = id u
    /\ forall d, resolvedPrimary s m d -> d <> u ->
         exists d', In d' s' /\ id d' = id d
                    /\ linkPrecedence d' = secondary
                    /\ linkedId d' = Some (id u).
Proof.
  intros m Hwf Hh (p0 & Hp0).
  pose proof (findMatching_live env s (reqEmail data) (reqPhoneNumber data))
    as Hm. fold m in Hm.
  pose proof (uniquePrimaryContacts_answered env s m (fun k => Hh _)) as Hres.
  pose proof (uniquePrimaryContacts_resolved _ _ _ _ Hwf Hm Hres) as Hmem.
  destruct (stableSort leCreatedAt (uniqueById (resolvedAll s m)))
    as [|u rest] eqn:El; [destruct (proj2 (Hmem p0) Hp0)|].
  pose proof (uniquePrimaryContacts_NoDup _ _ _ _ Hres) as Hnd.
  assert (Hrest : forall p, resolvedPrimary s m p -> p <> u -> In p rest).
  { intros p Hp Hne. apply Hmem in Hp. destruct Hp; congruence. }
  destruct (merge_outcome_healthy env s data u rest Hwf Hh Hres)
    as (upd & s1 & tu & s' & Hupd & Hs1 & Hup & E).
  assert (Hs1' : (s1 = s /\ tu = upd)
                 \/ (s1 = s ++ [createdSecondary env s (reqEmail data)
                                  (reqPhoneNumber data) u]
                     /\ tu = upd ++ [createdSecondary env s (reqEmail data)
                                       (reqPhoneNumber data) u]))
    by (destruct Hs1 as [(_ & ? & ?)|(_ & ? & ?)]; auto).
  exists u, s', (readBack env s' u). split; [exact E|].
  split; [apply Hmem; now left|]. split; [|split; [|split]].
  - intros p Hp. apply Hmem in Hp.
    pose proof (stableSort_key_sorted createdAt
                  (uniqueById (resolvedAll s m))) as Hs.
    change (stableSort _ _) with
      (stableSort leCreatedAt (uniqueById (resolvedAll s m))) in Hs.
    rewrite El in Hs. inversion Hs as [|? ? _ Hu]; subst.
    rewrite Forall_forall in Hu. destruct Hp as [<-|Hp]; [lia | auto].
  - intros p Hp Hne Hk.
    eapply head_reached_first; eauto.
  - eapply readBack_reports_ultimate; eauto.
  - intros d Hd Hne.
    assert (exists d', In d' s' /\ id d' = id d
                       /\ deletedAt d' = deletedAt d /\ linksTo u d')
      as (d' & Hin & Hi & _ & L1 & L2 & _)
      by (eapply demoted_row; eauto).
    exists d'. auto.
Qed.

Lemma C1_earliest_created_primary_wins_witness :
  exists u s' r,
    identifyContact (mkEnv 10 true) twoClusters (mkRequest aliceMail phone111)
    = (s', Returned r)
    /\ primaryContatctId (contact r) = id u
    /\ forall p,
         resolvedPrimary twoClusters
           (findMatching (mkEnv 10 true) twoClusters aliceMail phone111) p ->
         createdAt u <= createdAt p.
Proof.
  destruct (C1_earliest_created_primary_wins (mkEnv 10 true) twoClusters
              (mkRequest aliceMail phone111))
    as (u & s' & r & H1 & _ & H2 & _ & H3 & _).
  - apply wellFormed_twoClusters.
  - apply healthy_mkEnv.
  - exists (row 1 aliceMail None None primary 0).
    split; [now left|]. split; [reflexivity|]. split; [reflexivity|].
    exists (row 1 aliceMail None None primary 0).
    split; [vm_compute; auto|]. left. auto.
  - exists u, s', r. auto.
Defined.
(** ** Exact matches *)

(** C7: a request equal on both fields to a stored row still creates a
    row when that row is a primary that the request merges into another
    cluster.  On the table left by [failedMergeCalls], which is
    well-formed, the request [(b@x.com, 222)] equals row 2 on both fields;
    it reaches row 1 through row 3, demotes row 2, tests novelty against
    the cluster of row 1 as stored before the merge, where no row holds
    [b@x.com], and appends row 4. *)
Lemma C7_exact_match_creates_row :
  let req := mkRequest bobMail phone222 in
  let exact := row 2 bobMail phone222 None primary 2 in
  afterFailedMerge
  = [ row 1 aliceMail phone111 None primary 1;
      exact;
      row 3 aliceMail phone222 (Some 1) secondary 3 ]
  /\ wellFormed afterFailedMerge
  /\ email exact = reqEmail req /\ phoneNumber exact = reqPhoneNumber req
  /\ identifyContact (mkEnv 4 true) afterFailedMerge req
     = ([ row 1 aliceMail phone111 None primary 1;
          mkContact 2 phone222 bobMail (Some 1) secondary 2 4 None;
          row 3 aliceMail phone222 (Some 1) secondary 3;
          row 4 bobMail phone222 (Some 1) secondary 4 ],
        Returned (mkResponse
                    (mkContactInfo 1 ["a@x.com"; "b@x.com"]%string
                       ["111"; "222"]%string [2; 3; 4]))).
Proof.
  cbv zeta. split; [reflexivity|].
  split; [apply wellFormedb_sound; reflexivity|].
  split; [reflexivity|]. split; reflexivity.
Qed.

(** ** The one-hop invariant *)

Lemma plan_Some_resolves env s m pl :
  plan env s m = Some pl -> exists l, uniquePrimaryContacts env s m = Some l.
Proof.
  unfold plan. destruct (uniquePrimaryContacts env s m); [eauto|discriminate].
Qed.

(** On a well-formed store every non-empty match set resolves to at least
    one primary. *)
Lemma wellFormed_resolves env s em ph l :
  wellFormed s -> findMatching env s em ph <> [] ->
  uniquePrimaryContacts env s (findMatching env s em ph) = Some l ->
  exists u rest, l = u :: rest.
Proof.
  intros Hwf Hne E. destruct l as [|u rest]; [|eauto].
  exfalso. destruct (findMatching env s em ph) as [|c0 m] eqn:Em; [congruence|].
  assert (Hc0 : In c0 (findMatching env s em ph)) by (rewrite Em; now left).
  destruct (findMatching_live _ _ _ _ _ Hc0) as (Hin & Hl).
  destruct (resolved_wellFormed s c0 Hwf Hin Hl) as (p & Hp & _).
  assert (Hpc : In p (resolvedAll s (c0 :: m))).
  { apply resolvedAll_In. exists c0. rewrite Hp. cbn. auto. }
  destruct (uniqueById_covers _ _ Hpc) as (y & Hy & _).
  apply uniquePrimaryContacts_Some in E. symmetry in E.
  apply stableSort_nil_inv in E.
  rewrite E in Hy. destruct Hy.
Qed.

Lemma wellFormed_createPrimary env call s em ph :
  wellFormed s -> wellFormed (fst (createPrimary env call s em ph)).
Proof.
  intros Hwf. unfold createPrimary, create.
  destruct (fails env call); cbn [fst]; [assumption|].
  apply wellFormed_append; [assumption|]. cbn. auto.
Qed.

(** The rows a call leaves behind when no update is applied. *)
Lemma appended_rows_unchanged (s : Store) c d d' :
  NoDup (map id s) -> id c = nextId s ->
  In d s -> In d' (s ++ [c]) -> id d' = id d -> d' = d.
Proof.
  intros Hnd Hc Hd Hd' Hid. apply in_app_or in Hd'.
  destruct Hd' as [Hd'|[<-|[]]].
  - eapply NoDup_map_id_inj; eauto.
  - apply nextId_above in Hd. lia.
Qed.

(** How a call on a well-formed store ends: nothing written; one row
    appended, a primary or a secondary of a stored primary; or the writes
    of a merge applied. *)
Lemma identifyContact_cases env s data s' o :
  wellFormed s ->
  identifyContact env s data = (s', o) ->
  s' = s
  \/ (exists c, s' = s ++ [c] /\ id c = nextId s /\ wellFormed s')
  \/ exists u rest upd s1 toUpdate,
       uniquePrimaryContacts env s
         (findMatching env s (reqEmail data) (reqPhoneNumber data))
       = Some (u :: rest)
       /\ (forall c, In c upd <-> mergeWrites s u rest c)
       /\ ((s1 = s /\ toUpdate = upd)
           \/ (s1 = s ++ [createdSecondary env s (reqEmail data)
                            (reqPhoneNumber data) u]
               /\ toUpdate
                  = upd ++ [createdSecondary env s (reqEmail data)
                              (reqPhoneNumber data) u]))
       /\ updateAll (now env) s1 toUpdate = Some s'.
Proof.
  intros Hwf E. pose proof E as E0.
  apply identifyContact_inv in E0. cbv zeta in E0.
  destruct E0 as [(-> & _)|[(_ & _ & E0)|[(_ & _ & _ & E0)
                                          |(u0 & upd0 & _ & Hne & Hplan & _)]]].
  - now left.
  - pose proof (wellFormed_createPrimary env CreateNewPrimary s
                  (reqEmail data) (reqPhoneNumber data) Hwf) as Hwf'.
    rewrite <- E0 in Hwf'. cbn [fst] in Hwf'.
    apply createPrimary_inv in E0.
    destruct E0 as [(-> & _)|(_ & -> & _)]; [now left|].
    right. left. eexists. split; [reflexivity|]. split; [reflexivity|].
    exact Hwf'.
  - pose proof (wellFormed_createPrimary env CreateOrphanPrimary s
                  (reqEmail data) (reqPhoneNumber data) Hwf) as Hwf'.
    rewrite <- E0 in Hwf'. cbn [fst] in Hwf'.
    apply createPrimary_inv in E0.
    destruct E0 as [(-> & _)|(_ & -> & _)]; [now left|].
    right. left. eexists. split; [reflexivity|]. split; [reflexivity|].
    exact Hwf'.
  - destruct (plan_Some_resolves _ _ _ _ Hplan) as (l & Hl).
    destruct (wellFormed_resolves _ _ _ _ _ Hwf Hne Hl) as (u & rest & ->).
    pose proof (findMatching_live env s (reqEmail data) (reqPhoneNumber data))
      as Hm.
    destruct (merge_outcome _ _ _ _ _ _ _ Hwf Hl E)
      as [(-> & _)|(upd & s1 & tu & Hupd & Hs1 & Ho)]; [now left|].
    assert (Hs1' : (s1 = s /\ tu = upd)
                   \/ (s1 = s ++ [createdSecondary env s (reqEmail data)
                                    (reqPhoneNumber data) u]
                       /\ tu = upd ++ [createdSecondary env s (reqEmail data)
                                         (reqPhoneNumber data) u]))
      by (destruct Hs1 as [(_ & ? & ?)|(_ & ? & ?)]; auto).
    destruct Ho as [(_ & -> & _)|(Hup & _)].
    + destruct Hs1' as [(-> & _)|(Es1 & _)]; [now left|].
      right. left. eexists. split; [exact Es1|].
      split; [reflexivity|].
      eapply wellFormed_s1; eauto.
    + right. right. exists u, rest, upd, s1, tu. auto.
Qed.

(** One call keeps the store well-formed. *)
Lemma identifyContact_wellFormed env s data :
  wellFormed s -> wellFormed (fst (identifyContact env s data)).
Proof.
  intros Hwf.
  destruct (identifyContact env s data) as [s' o] eqn:E. cbn [fst].
  destruct (identifyContact_cases _ _ _ _ _ Hwf E)
    as [->|[(c & _ & _ & H)|(u & rest & upd & s1 & tu & Hres & Hupd & Hs1
                             & Hup)]]; auto.
  pose proof (findMatching_live env s (reqEmail data) (reqPhoneNumber data))
    as Hm.
  eapply wellFormed_merged; eauto.
Qed.

(** C2: a call on a well-formed store leaves a well-formed store, so every
    non-deleted secondary still points, in one hop, at a non-deleted
    primary; and whenever the call turns a primary [d] into a secondary,
    the non-deleted rows that pointed at [d] point, like [d] itself, at the
    ultimate primary afterwards. *)
Theorem C2_one_hop_preserved env s data :
  wellFormed s ->
  wellFormed (fst (identifyContact env s data))
  /\ forall d d' c c',
       In d s -> In d' (fst (identifyContact env s data)) -> id d' = id d ->
       linkPrecedence d = primary -> linkPrecedence d' = secondary ->
       In c s -> deletedAt c = None -> linkedId c = Some (id d) ->
       In c' (fst (identifyContact env s data)) -> id c' = id c ->
       linkPrecedence c' = secondary
       /\ linkedId c' = linkedId d'
       /\ exists u, In u (fst (identifyContact env s data))
                    /\ linkedId c' = Some (id u)
                    /\ linkPrecedence u = primary /\ deletedAt u = None.
Proof.
  intros Hwf.
  destruct (identifyContact env s data) as [s' o] eqn:E. cbn [fst].
  assert (Hfresh : forall c0, id c0 = nextId s -> s' = s \/ s' = s ++ [c0] ->
            forall d d', In d s -> In d' s' -> id d' = id d ->
            linkPrecedence d = primary -> linkPrecedence d' = secondary ->
            False).
  { intros c0 Hc0 Hs' d d' Hd Hd' Hid Hp Hsec.
    assert (d' = d); [|congruence].
    destruct Hs' as [->| ->].
    - eapply NoDup_map_id_inj; eauto using wf_unique.
    - eapply appended_rows_unchanged; eauto using wf_unique. }
  destruct (identifyContact_cases _ _ _ _ _ Hwf E)
    as [->|[(c0 & -> & Hc0 & H)|(u & rest & upd & s1 & tu & Hres & Hupd & Hs1
                                 & Hup)]].
  - (* nothing written *)
    split; [assumption|].
    intros d d' c c' Hd Hd' Hid Hp Hsec. exfalso.
    assert (d' = d); [|congruence].
    eapply NoDup_map_id_inj; eauto using wf_unique.
  - (* one row appended *)
    split; [assumption|].
    intros d d' c c' Hd Hd' Hid Hp Hsec. exfalso.
    eapply (Hfresh c0); eauto.
  - (* the writes were applied *)
    pose proof (findMatching_live env s (reqEmail data) (reqPhoneNumber data))
      as Hm.
    split; [eapply wellFormed_merged; eauto|].
    intros d d' c c' Hd Hd' Hid Hp Hsec Hc Hdel Hlink Hc' Hidc.
    assert (linksTo u d' /\ linksTo u c') as ((L1 & _) & (L2 & L3 & _))
      by (eapply merged_relinks with (d := d) (c := c); eauto).
    split; [assumption|]. split; [congruence|].
    exists u.
    assert (In u s /\ notDeleted u = true /\ isPrimary u = true)
      as (Hu & Hul & Hup')
      by (eapply resolved_live; eauto; now left).
    apply isPrimary_iff in Hup'. apply notDeleted_iff in Hul.
    repeat split; auto. eapply ultimate_kept; eauto.
Qed.

Lemma C2_one_hop_preserved_witness :
  wellFormed (fst (identifyContact (mkEnv 10 true) twoClusters
                     (mkRequest aliceMail phone111))).
Proof.
  exact (proj1 (C2_one_hop_preserved (mkEnv 10 true) twoClusters
                  (mkRequest aliceMail phone111) wellFormed_twoClusters)).
Defined.
(** ** The consolidated lists *)

(** No stored row of a well-formed store is linked to an id not yet
    assigned. *)
Lemma fresh_primary_alone s c fresh :
  wellFormed s -> id fresh = nextId s -> linkedId fresh = None ->
  inFinalCluster (s ++ [fresh]) fresh c -> id c = id fresh.
Proof.
  intros Hwf Hid Hnone (Hin & Hl & [E|Hlink]); [assumption|]. exfalso.
  apply in_app_or in Hin. destruct Hin as [Hin|[<-|[]]]; [|congruence].
  destruct (linkPrecedence c) eqn:Ep.
  - rewrite (wf_primary_unlinked s Hwf c Hin Ep) in Hlink. discriminate.
  - destruct (wf_one_hop s Hwf c Hin Hl Ep) as (p & Hp & Hlp & _).
    apply nextId_above in Hp. rewrite Hlink in Hlp. injection Hlp as E. lia.
Qed.

Lemma inFinalCluster_same_id s u P c :
  id P = id u -> (inFinalCluster s u c <-> inFinalCluster s P c).
Proof. unfold inFinalCluster. now intros ->. Qed.

(** What a successful call on a well-formed store reports: a primary row
    of the store after the call and the consolidated lists of its
    cluster. *)
Lemma identifyContact_lists env s data s' r :
  wellFormed s ->
  identifyContact env s data = (s', Returned r) ->
  exists P,
    In P s' /\ linkPrecedence P = primary /\ deletedAt P = None
    /\ primaryContatctId (contact r) = id P
    /\ consolidated (email P) email (inFinalCluster s' P) (emails (contact r))
    /\ consolidated (phoneNumber P) phoneNumber (inFinalCluster s' P)
         (phoneNumbers (contact r))
    /\ secondariesListed (id P) (inFinalCluster s' P)
         (secondaryContactIds (contact r)).
Proof.
  intros Hwf E.
  pose proof (identifyContact_wellFormed env s data Hwf) as Hwf'.
  rewrite E in Hwf'. cbn [fst] in Hwf'.
  assert (Hfresh : forall call,
            (s', Returned r) = createPrimary env call s (reqEmail data)
                                 (reqPhoneNumber data) ->
            exists P,
              In P s' /\ linkPrecedence P = primary /\ deletedAt P = None
              /\ primaryContatctId (contact r) = id P
              /\ consolidated (email P) email (inFinalCluster s' P)
                   (emails (contact r))
              /\ consolidated (phoneNumber P) phoneNumber
                   (inFinalCluster s' P) (phoneNumbers (contact r))
              /\ secondariesListed (id P) (inFinalCluster s' P)
                   (secondaryContactIds (contact r))).
  { intros call Ec. apply createPrimary_inv in Ec.
    destruct Ec as [(_ & Ec & _)|(_ & -> & Ec)]; [discriminate|].
    injection Ec as ->.
    set (fresh := mkContact (nextId s) _ _ _ _ _ _ _) in *.
    exists fresh. split; [apply in_or_app; right; now left|].
    do 3 (split; [reflexivity|]).
    apply formatResponse_consolidated.
    + intros c [].
    + intros c. split; [intros ([] & _)|]. intros (Hc & Hn). exfalso.
      apply Hn. exact (fresh_primary_alone s c fresh Hwf eq_refl eq_refl Hc).
    + intros c (Hc & _) Hid.
      eapply NoDup_map_id_inj; eauto using wf_unique.
      apply in_or_app; right; now left. }
  pose proof E as E0. apply identifyContact_inv in E0. cbv zeta in E0.
  destruct E0 as [(_ & E0)|[(_ & _ & E0)|[(_ & _ & _ & E0)
                                          |(u0 & upd0 & _ & Hne & Hplan & _)]]];
    [discriminate | eauto | eauto |].
  destruct (plan_Some_resolves _ _ _ _ Hplan) as (l & Hl).
  destruct (wellFormed_resolves _ _ _ _ _ Hwf Hne Hl) as (u & rest & ->).
  pose proof (findMatching_live env s (reqEmail data) (reqPhoneNumber data))
    as Hm.
  destruct (merge_outcome _ _ _ _ _ _ _ Hwf Hl E)
    as [(_ & Ho)|(upd & s1 & tu & Hupd & Hs1 & Ho)]; [discriminate|].
  assert (Hs1' : (s1 = s /\ tu = upd)
                 \/ (s1 = s ++ [createdSecondary env s (reqEmail data)
                                  (reqPhoneNumber data) u]
                     /\ tu = upd ++ [createdSecondary env s (reqEmail data)
                                       (reqPhoneNumber data) u]))
    by (destruct Hs1 as [(_ & ? & ?)|(_ & ? & ?)]; auto).
  destruct Ho as [(Ho & _)|(Hup & [(Ho & _)|(Ho & _)])]; try discriminate.
  injection Ho as ->.
  assert (exists P, In P (finalGroupContacts env s' u) /\ id P = id u
                    /\ isPrimary P = true
                    /\ readBack env s' u
                       = formatResponse P (finalGroupContacts env s' u))
    as (P & HP & Hid & Hprim & ->)
    by (eapply readBack_shown with (s := s) (rest := rest) (s1 := s1)
          (toUpdate := tu); eauto).
  pose proof HP as HP'. apply finalGroupContacts_In in HP'.
  destruct HP' as (HPs & _ & HPl).
  exists P. split; [assumption|].
  split; [now apply isPrimary_iff|]. split; [now apply notDeleted_iff|].
  split; [reflexivity|].
  apply formatResponse_consolidated.
  + intros c Hc. apply finalGroupContacts_In in Hc. rewrite Hid. tauto.
  + intros c. rewrite finalGroupContacts_cluster.
    rewrite (inFinalCluster_same_id s' u P c Hid). tauto.
  + intros c (Hc & _) Hidc.
    eapply NoDup_map_id_inj; eauto using wf_unique.
Qed.

(** C9: a successful call on a well-formed store reports a non-deleted
    primary row [P] of the store after the call and, for the cluster of
    [P] in that store (its non-deleted rows that carry the id of [P] or are
    linked to [P]): the emails with [P]'s own first when present, then
    every other present email of the cluster once, in ascending order; the
    phone numbers likewise; and the ids of all cluster members other than
    [P], once each, ascending.  None of the three lists repeats a value. *)
Theorem C9_consolidated_lists env s data s' r :
  wellFormed s ->
  identifyContact env s data = (s', Returned r) ->
  exists P,
    In P s' /\ linkPrecedence P = primary /\ deletedAt P = None
    /\ primaryContatctId (contact r) = id P
    /\ consolidated (email P) email (inFinalCluster s' P) (emails (contact r))
    /\ consolidated (phoneNumber P) phoneNumber (inFinalCluster s' P)
         (phoneNumbers (contact r))
    /\ secondariesListed (id P) (inFinalCluster s' P)
         (secondaryContactIds (contact r)).
Proof. exact (identifyContact_lists env s data s' r). Qed.

Lemma C9_consolidated_lists_witness :
  exists P,
    In P (fst (identifyContact (mkEnv 10 true) pairStore
                 (mkRequest aliceMail phone222)))
    /\ primaryContatctId
         (contact (readBack (mkEnv 10 true)
                     (fst (identifyContact (mkEnv 10 true) pairStore
                             (mkRequest aliceMail phone222)))
                     (row 1 aliceMail None None primary 0))) = id P.
Proof.
  destruct (C9_consolidated_lists (mkEnv 10 true) pairStore
              (mkRequest aliceMail phone222) _ _ wellFormed_pairStore eq_refl)
    as (P & HP & _ & _ & Hid & _).
  exists P. split; assumption.
Defined.
(** ** Stores reached from the empty table *)

Lemma identifyContact_keeps_deletedAt env s data :
  (forall c, In c s -> deletedAt c = None) ->
  forall c, In c (fst (identifyContact env s data)) -> deletedAt c = None.
Proof.
  intros Hs. destruct (identifyContact env s data) as [s' o] eqn:E.
  cbn [fst]. destruct (identifyContact_writes _ _ _ _ _ E)
    as (extra & tu & Hex & _ & Hs').
  assert (H1 : forall c, In c (s ++ extra) -> deletedAt c = None).
  { intros c Hc. apply in_app_or in Hc. destruct Hc as [Hc|Hc]; [auto|].
    destruct Hex as [->|(l & p & ->)]; [destruct Hc|].
    destruct Hc as [<-|[]]. reflexivity. }
  destruct Hs' as [(-> & _)|Hup]; [exact H1|].
  intros c Hc.
  destruct (Forall2_In_r _ _ _ _ (updateAll_rows _ _ _ _ Hup) Hc)
    as (r & Hr & _ & _ & Hd & _).
  rewrite Hd. auto.
Qed.

Lemma identifyAll_invariants calls : forall s,
  wellFormed s -> (forall c, In c s -> deletedAt c = None) ->
  wellFormed (identifyAll calls s)
  /\ forall c, In c (identifyAll calls s) -> deletedAt c = None.
Proof.
  induction calls as [|[env data] calls IH]; intros s Hwf Hlive;
    [split; assumption|].
  cbn. apply IH.
  - apply identifyContact_wellFormed, Hwf.
  - now apply identifyContact_keeps_deletedAt.
Qed.

(** X16: whatever calls were made on an initially empty table, and
    whichever of their database calls failed, every secondary row points at
    a primary row. *)
Corollary one_hop_after_any_calls calls c :
  In c (identifyAll calls []) -> linkPrecedence c = secondary ->
  exists p, In p (identifyAll calls [])
            /\ linkedId c = Some (id p) /\ linkPrecedence p = primary.
Proof.
  intros Hc Hsec.
  destruct (identifyAll_invariants calls []) as (Hwf & Hlive).
  - apply wellFormedb_sound. reflexivity.
  - intros ? [].
  - destruct (wf_one_hop _ Hwf c Hc (Hlive c Hc) Hsec) as (p & Hp & Hl & Hpp & _).
    eauto.
Qed.

Lemma one_hop_after_any_calls_witness :
  exists p,
    In p (identifyAll [(mkEnv 100 true, mkRequest aliceMail None);
                       (mkEnv 200 true, mkRequest aliceMail phone111)] [])
    /\ linkedId (row 2 aliceMail phone111 (Some 1) secondary 200)
       = Some (id p)
    /\ linkPrecedence p = primary.
Proof.
  apply (one_hop_after_any_calls
           [(mkEnv 100 true, mkRequest aliceMail None);
            (mkEnv 200 true, mkRequest aliceMail phone111)]
           (row 2 aliceMail phone111 (Some 1) secondary 200)).
  - vm_compute. auto.
  - reflexivity.
Defined.

(** ** The scenarios of the README, replayed *)

Example scenario_new_contact :
  identifyContact (mkEnv 100 true) [] (mkRequest aliceMail None)
  = ([row 1 aliceMail None None primary 100],
     Returned (mkResponse (mkContactInfo 1 ["a@x.com"%string] [] []))).
Proof. reflexivity. Qed.

Example scenario_new_information :
  identifyContact (mkEnv 200 true) [row 1 aliceMail None None primary 100]
    (mkRequest aliceMail phone111)
  = ([row 1 aliceMail None None primary 100;
      row 2 aliceMail phone111 (Some 1) secondary 200],
     Returned (mkResponse (mkContactInfo 1 ["a@x.com"%string]
                             ["111"%string] [2]))).
Proof. reflexivity. Qed.

(** ** What the database decides *)

(** Two primaries of equal [createdAt] are merged under the one the
    database returns first. *)
Example scenario_tie_in_table_order :
  identifyContact (mkEnv 10 true) tiedPrimaries (mkRequest aliceMail phone111)
  = ([ row 1 aliceMail None None primary 5;
       mkContact 2 phone111 None (Some 1) secondary 5 10 None;
       row 3 aliceMail phone111 (Some 1) secondary 10 ],
     Returned (mkResponse (mkContactInfo 1 ["a@x.com"%string]
                             ["111"%string] [2; 3]))).
Proof. reflexivity. Qed.

Example scenario_tie_in_reverse_order :
  identifyContact (backwards 10) tiedPrimaries (mkRequest aliceMail phone111)
  = ([ mkContact 1 None aliceMail (Some 2) secondary 5 10 None;
       row 2 None phone111 None primary 5;
       row 3 aliceMail phone111 (Some 2) secondary 10 ],
     Returned (mkResponse (mkContactInfo 2 ["a@x.com"%string]
                             ["111"%string] [1; 3]))).
Proof. reflexivity. Qed.

(** A failure of the re-fetch leaves every write of the call applied. *)
Example scenario_refetch_fails :
  identifyContact (refetchFails 10) twoClusters (mkRequest aliceMail phone111)
  = ([ row 1 aliceMail None None primary 0;
       mkContact 2 phone111 None (Some 1) secondary 1 10 None;
       row 3 aliceMail phone111 (Some 1) secondary 10 ],
     Thrown).
Proof. reflexivity. Qed.
(** * Further properties of the service *)

(** ** Calls that fail *)

Lemma primaryContactsFrom_None env s m : forall n,
  primaryContactsFrom env s n m = None ->
  exists call, fails env call = true.
Proof.
  induction m as [|c m IH]; intros n H; [discriminate|].
  cbn [primaryContactsFrom] in H.
  destruct (primaryOf env s n c) as [found|] eqn:Ep.
  - destruct (primaryContactsFrom env s (S n) m) eqn:Em; [discriminate|].
    eauto.
  - exists (FindPrimaryOf n). unfold primaryOf, answered in Ep.
    destruct (isPrimary c); [discriminate|].
    destruct (truthyNum (linkedId c)); [|discriminate].
    destruct (linkedId c); [|discriminate].
    destruct (fails env (FindPrimaryOf n)); [reflexivity|].
    destruct (findUnique s z); discriminate.
Qed.

Lemma demotionsFrom_None env s u rest : forall i,
  demotionsFrom env s u i rest = None ->
  exists call, fails env call = true.
Proof.
  induction rest as [|d rest IH]; intros i H; [discriminate|].
  cbn [demotionsFrom] in H. unfold answered in H.
  destruct (fails env (FindSecondariesOf i)) eqn:Ef; [eauto|].
  destruct (demotionsFrom env s u (S i) rest) eqn:Ed; [discriminate|].
  eauto.
Qed.

Lemma plan_None env s m :
  plan env s m = None -> exists call, fails env call = true.
Proof.
  unfold plan, uniquePrimaryContacts, primaryContacts.
  destruct (primaryContactsFrom env s 0 m) as [found|] eqn:Ep;
    [|intros _; eapply primaryContactsFrom_None; eauto].
  destruct (stableSort leCreatedAt (uniqueById found)) as [|u rest].
  - destruct m as [|oldest m']; [discriminate|].
    destruct (isSecondary oldest && truthyNum (linkedId oldest));
      [|discriminate].
    destruct (linkedId oldest); [|discriminate].
    unfold answered. destruct (fails env FindOldestPrimary) eqn:Ef; [eauto|].
    destruct (findUnique s z); discriminate.
  - destruct (demotionsFrom env s u 1 rest) eqn:Ed; [discriminate|].
    intros _. eapply demotionsFrom_None; eauto.
Qed.

(** A call throws only when one of its database calls did: no update of a
    call is ever addressed to a missing row. *)
Lemma identifyContact_thrown env s data s' :
  identifyContact env s data = (s', Thrown) ->
  exists call, fails env call = true.
Proof.
  intros E. pose proof E as E0. unfold identifyContact, answered in E0.
  destruct (fails env FindMatching) eqn:Ef; [eauto|].
  assert (Hcreate : forall call,
            createPrimary env call s (reqEmail data) (reqPhoneNumber data)
            = (s', Thrown) -> exists call, fails env call = true).
  { intros call Ec. symmetry in Ec. apply createPrimary_inv in Ec.
    destruct Ec as [(_ & _ & Ec)|(_ & _ & Ec)]; [eauto | discriminate]. }
  destruct (findMatching env s (reqEmail data) (reqPhoneNumber data))
    as [|c0 m] eqn:Em; [eauto|].
  destruct (plan env s (c0 :: m)) as [[|u upd]|] eqn:Hplan;
    [eauto | | eapply plan_None; eauto].
  assert (Hupd : forall c, In c upd -> writesBack s c).
  { eapply plan_writesBack; [|exact Hplan]. rewrite <- Em.
    apply findMatching_live. }
  destruct (linkAndRespond_writes _ _ _ _ _ _ _ _ Hupd E0)
    as (_ & _ & _ & _ & _ & Hf & _).
  destruct (Hf eq_refl) as [H|[H|[H|H]]]; eauto.
Qed.

(** X1: a call fails only when the database does: when no database call
    fails every call returns, since no update of a call is ever addressed
    to a missing row. *)
Theorem identifyContact_returns_when_healthy env s data :
  healthy env ->
  exists s' r, identifyContact env s data = (s', Returned r).
Proof.
  intros Hh. destruct (identifyContact env s data) as [s' o] eqn:E.
  destruct o as [r|]; [eauto|]. exfalso.
  destruct (identifyContact_thrown _ _ _ _ E) as (call & Hf).
  rewrite Hh in Hf. discriminate.
Qed.

Lemma identifyContact_returns_when_healthy_witness :
  exists s' r,
    identifyContact (mkEnv 10 true) twoClusters (mkRequest aliceMail phone111)
    = (s', Returned r).
Proof.
  apply (identifyContact_returns_when_healthy (mkEnv 10 true) twoClusters
           (mkRequest aliceMail phone111)).
  apply healthy_mkEnv.
Defined.

(** ** Rows written by a call *)

Lemma NoDup_ids_append s c :
  NoDup (map id s) -> id c = nextId s -> NoDup (map id (s ++ [c])).
Proof.
  intros Hnd Hc. rewrite map_app. cbn.
  apply NoDup_app; [assumption | repeat constructor; intros [] |].
  intros x Hx [<-|[]]. rewrite Hc in Hx. now apply nextId_fresh in Hx.
Qed.

Lemma Forall2_keepsRow_refl s : Forall2 keepsRow s s.
Proof. induction s; constructor; auto. split; auto. Qed.

Lemma updateAll_keepsRow now tu s1 s' :
  NoDup (map id s1) ->
  (forall c, In c tu -> writesBack s1 c) ->
  updateAll now s1 tu = Some s' ->
  Forall2 keepsRow s1 s'.
Proof.
  intros Hnd Htu H. pose proof (updateAll_rows _ _ _ _ H) as Hrows.
  assert (Hall : forall r, In r s1 -> forall r', rowAfter tu r r' ->
                                                keepsRow r r').
  { intros r Hr r' (Hi & Hc & Hd & [[-> _]|(c & Hin & Hic & He & Hp & _ & Hk)]).
    - split; auto.
    - destruct (Htu c Hin) as (r0 & Hr0 & Hi0 & He0 & Hp0 & Hk0).
      assert (r0 = r) by (eapply NoDup_map_id_inj; eauto; congruence).
      subst r0. split.
      + unfold contactData. congruence.
      + intros Hsec. rewrite Hk. destruct Hk0; congruence. }
  clear H Htu Hnd. induction Hrows as [|r r' l l' Hr _ IH]; constructor.
  - apply Hall; [now left | assumption].
  - apply IH. intros; apply Hall; auto. now right.
Qed.

(** What one call does to the table, row by row. *)
Lemma identifyContact_rows env s data :
  NoDup (map id s) ->
  exists extra,
    Forall2 keepsRow (s ++ extra) (fst (identifyContact env s data))
    /\ (extra = []
        \/ exists l p, extra = [mkContact (nextId s) (orNull (reqPhoneNumber data))
                                  (orNull (reqEmail data)) l p
                                  (now env) (now env) None]).
Proof.
  intros Hnd. destruct (identifyContact env s data) as [s' o] eqn:E.
  cbn [fst]. destruct (identifyContact_writes _ _ _ _ _ E)
    as (extra & tu & Hex & Htu & Hs').
  exists extra. split; [|exact Hex].
  destruct Hs' as [(-> & _)|Hs']; [apply Forall2_keepsRow_refl|].
  eapply updateAll_keepsRow; eauto.
  destruct Hex as [->|(l & p & ->)]; [now rewrite app_nil_r|].
  now apply NoDup_ids_append.
Qed.

Lemma Forall2_map_eq {A B} (f : A -> B) l l' :
  Forall2 (fun a b => f b = f a) l l' -> map f l' = map f l.
Proof. induction 1; cbn; congruence. Qed.

Lemma Forall2_weaken {A B} (R R' : A -> B -> Prop) l l' :
  (forall a b, R a b -> R' a b) -> Forall2 R l l' -> Forall2 R' l l'.
Proof. intros H. induction 1; constructor; auto. Qed.

(** X2: a call never deletes a row and never rewrites an id, an email, a
    phone number, a creation time or a deletion mark; the table afterwards
    is the old table, row for row in these columns, followed by at most one
    new row, which carries the request's email and phone. *)
Theorem identifyContact_keeps_data env s data :
  NoDup (map id s) ->
  exists extra,
    map contactData (fst (identifyContact env s data))
    = map contactData s ++ map contactData extra
    /\ (List.length extra <= 1)%nat
    /\ forall c, In c extra ->
         id c = nextId s /\ email c = orNull (reqEmail data)
         /\ phoneNumber c = orNull (reqPhoneNumber data).
Proof.
  intros Hnd. destruct (identifyContact_rows env s data Hnd)
    as (extra & Hrows & Hex).
  exists extra. split; [|split].
  - rewrite <- map_app. apply Forall2_map_eq.
    eapply Forall2_weaken; [|exact Hrows]. intros a b H. apply H.
  - destruct Hex as [->|(l & p & ->)]; cbn; lia.
  - destruct Hex as [->|(l & p & ->)]; [intros c []|].
    intros c [<-|[]]. cbn. auto.
Qed.

Lemma identifyContact_keeps_data_witness :
  exists extra,
    map contactData (fst (identifyContact (mkEnv 10 true) twoClusters
                            (mkRequest aliceMail phone111)))
    = map contactData twoClusters ++ map contactData extra
    /\ (List.length extra <= 1)%nat.
Proof.
  destruct (identifyContact_keeps_data (mkEnv 10 true) twoClusters
              (mkRequest aliceMail phone111)) as (extra & H1 & H2 & _).
  - vm_compute. repeat constructor; cbn; intuition lia.
  - exists extra. split; assumption.
Defined.

(** X3: no call turns a secondary into a primary: a stored secondary is
    still a secondary, under the same id, after the call. *)
Theorem identifyContact_never_promotes env s data r r' :
  NoDup (map id s) ->
  In r s -> linkPrecedence r = secondary ->
  In r' (fst (identifyContact env s data)) -> id r' = id r ->
  linkPrecedence r' = secondary.
Proof.
  intros Hnd Hr Hsec Hr' Hid.
  destruct (identifyContact_rows env s data Hnd) as (extra & Hrows & Hex).
  destruct (Forall2_In_r _ _ _ _ Hrows Hr') as (r0 & Hr0 & Hd & Hk).
  assert (Hid0 : id r0 = id r).
  { unfold contactData in Hd. injection Hd as E _ _ _ _. congruence. }
  apply in_app_or in Hr0. destruct Hr0 as [Hr0|Hr0].
  - assert (r0 = r) by (eapply NoDup_map_id_inj; eauto). subst r0. auto.
  - exfalso. destruct Hex as [->|(l & p & ->)]; [destruct Hr0|].
    destruct Hr0 as [<-|[]]. cbn [id] in Hid0.
    apply nextId_above in Hr. lia.
Qed.

Lemma identifyContact_never_promotes_witness :
  linkPrecedence (row 2 aliceMail phone111 (Some 1) secondary 1) = secondary.
Proof.
  apply (identifyContact_never_promotes (mkEnv 10 true) pairStore
           (mkRequest aliceMail phone222)
           (row 2 aliceMail phone111 (Some 1) secondary 1)
           (row 2 aliceMail phone111 (Some 1) secondary 1)).
  - vm_compute. repeat constructor; cbn; intuition lia.
  - vm_compute. auto.
  - reflexivity.
  - vm_compute. auto.
  - reflexivity.
Defined.

(** ** The result builder on arbitrary input *)

Lemma addTruthy_nonempty l o :
  (forall e, In e l -> e <> EmptyString) ->
  forall e, In e (addTruthy l o) -> e <> EmptyString.
Proof.
  intros Hl e He. apply addTruthy_In in He.
  destruct He as [He|(_ & He)]; auto.
Qed.

Lemma visit_clean P all acc c :
  In c all -> cleanCollected P all acc ->
  cleanCollected P all (visit P all acc c).
Proof.
  intros Hc Hacc.
  assert (Hcol : id c <> id P -> cleanCollected P all (collect acc c)).
  { intros Hne. destruct Hacc as (H1 & H2 & H3 & H4).
    unfold cleanCollected, collect. cbn [colIds colEmails colPhones].
    split; [now apply (setAdd_NoDup Z.eqb Z.eqb_eq)|].
    split; [|split; now apply addTruthy_nonempty].
    intros i H. apply (setAdd_In Z.eqb Z.eqb_eq) in H.
    destruct H as [H| ->]; [now apply H2 | eauto]. }
  unfold visit. destruct (Z.eqb_spec (id c) (id P)); [assumption|].
  destruct (linkedToPrimary P all c); [auto|].
  destruct (isPrimary c && _); [assumption|].
  destruct (isSecondary c); auto.
Qed.

Lemma fold_visit_clean P all l : forall acc,
  (forall c, In c l -> In c all) -> cleanCollected P all acc ->
  cleanCollected P all (fold_left (visit P all) l acc).
Proof.
  induction l as [|c l IH]; cbn; intros acc Hl Hacc; [assumption|].
  apply IH; [auto|]. apply visit_clean; auto.
Qed.

Lemma primaryFirst_nonempty own col :
  (forall e, In e col -> e <> EmptyString) ->
  forall e, In e (setOfList String.eqb (primaryFirst own col)) ->
            e <> EmptyString.
Proof.
  intros Hcol e He. unfold setOfList in He.
  apply (fold_setAdd_In String.eqb String.eqb_eq) in He.
  destruct He as [[]|He]. rewrite primaryFirst_eq in He.
  apply in_app_or in He. destruct He as [He|He].
  - unfold orNull in He. destruct (truthyStr own) eqn:E; [|destruct He].
    destruct own as [x|]; [|destruct He]. destruct He as [<-|[]].
    cbn in E. apply negb_true_iff in E. now apply String.eqb_neq.
  - apply stableSort_In, filter_In in He. apply Hcol, He.
Qed.

(** X4: whatever primary and whatever list of contacts the result builder
    is given, none of its three lists repeats a value, the secondary ids are
    ascending ids of listed contacts and never the primary's id, and no
    listed email or phone number is the empty string. *)
Theorem formatResponse_lists_clean P all :
  let r := contact (formatResponse P all) in
  NoDup (emails r) /\ NoDup (phoneNumbers r)
  /\ NoDup (secondaryContactIds r)
  /\ ascendingIds (secondaryContactIds r)
  /\ ~ In (primaryContatctId r) (secondaryContactIds r)
  /\ (forall i, In i (secondaryContactIds r) ->
        exists c, In c all /\ id c = i)
  /\ (forall e, In e (emails r) -> e <> EmptyString)
  /\ (forall p, In p (phoneNumbers r) -> p <> EmptyString).
Proof.
  unfold formatResponse.
  set (start := mkCollected _ _ _).
  assert (Hstart : cleanCollected P all start).
  { unfold cleanCollected, start. cbn [colIds colEmails colPhones].
    split; [constructor|]. split; [intros i []|].
    split; apply addTruthy_nonempty; intros e []. }
  pose proof (fold_visit_clean P all all start (fun c H => H) Hstart)
    as (H1 & H2 & H3 & H4).
  set (acc := fold_left (visit P all) all start) in *.
  cbn [contact emails phoneNumbers secondaryContactIds primaryContatctId].
  split; [apply (fold_setAdd_NoDup String.eqb String.eqb_eq); constructor|].
  split; [apply (fold_setAdd_NoDup String.eqb String.eqb_eq); constructor|].
  split; [eapply Permutation_NoDup; [apply stableSort_perm | assumption]|].
  split; [now apply sorted_ids_ascending|].
  split; [intros Hin; apply stableSort_In, H2 in Hin; now destruct Hin|].
  split; [intros i Hin; apply stableSort_In, H2 in Hin; now destruct Hin|].
  split; now apply primaryFirst_nonempty.
Qed.

Lemma fold_setAdd_head {A} (eqb : A -> A -> bool) l : forall x acc,
  hd_error (fold_left (setAdd eqb) l (x :: acc)) = Some x.
Proof.
  induction l as [|y l IH]; intros x acc; [reflexivity|].
  cbn [fold_left]. unfold setAdd at 2.
  destruct (existsb (eqb y) (x :: acc)); [apply IH|].
  cbn [app]. apply IH.
Qed.

Lemma primaryFirst_head own col x :
  orNull own = Some x ->
  hd_error (setOfList String.eqb (primaryFirst own col)) = Some x.
Proof.
  intros H. rewrite primaryFirst_eq, H. cbn [optList app].
  unfold setOfList. cbn [fold_left]. unfold setAdd at 2. cbn [existsb app].
  apply fold_setAdd_head.
Qed.

(** X5: whatever it is given, the result builder puts the primary's own email
    and phone number, when they are non-empty, at the head of their
    lists. *)
Theorem formatResponse_primary_first P all :
  let r := contact (formatResponse P all) in
  (forall e, orNull (email P) = Some e -> hd_error (emails r) = Some e)
  /\ (forall p, orNull (phoneNumber P) = Some p ->
        hd_error (phoneNumbers r) = Some p).
Proof.
  unfold formatResponse. cbn [contact emails phoneNumbers].
  split; intros x Hx; now apply primaryFirst_head.
Qed.

Lemma formatResponse_primary_first_witness :
  hd_error (emails (contact (formatResponse
                               (row 1 aliceMail None None primary 0)
                               pairStore)))
  = Some "a@x.com"%string.
Proof.
  apply (proj1 (formatResponse_primary_first
                  (row 1 aliceMail None None primary 0) pairStore)).
  reflexivity.
Defined.

(** ** A request that matches nothing *)

Lemma findMatching_nil env s em ph :
  (forall c, In c s -> deletedAt c = None ->
     (forall e, present em e -> email c <> Some e)
     /\ (forall p, present ph p -> phoneNumber c <> Some p)) ->
  findMatching env s em ph = [].
Proof.
  intros H. destruct (findMatching env s em ph) as [|c l] eqn:E;
    [reflexivity|].
  exfalso.
  assert (Hc : In c (findMatching env s em ph)) by (rewrite E; now left).
  apply findMatching_In in Hc. destruct Hc as (Hin & Hm & Hl).
  apply notDeleted_iff in Hl. destruct (H c Hin Hl) as (He & Hp).
  apply matchesFragment_iff in Hm.
  destruct Hm as [(e & Hpe & Hce)|(p & Hpp & Hcp)];
    [eapply He | eapply Hp]; eauto.
Qed.

(** X6: when no non-deleted row holds the request's email or its phone
    number, the call throws and leaves the store as it was if the query or
    the creation fails; otherwise it changes no stored row, appends one
    primary row holding the request's fields (an empty string stored as
    null), and reports that row alone. *)
Theorem identifyContact_no_match env s data :
  (forall c, In c s -> deletedAt c = None ->
     (forall e, present (reqEmail data) e -> email c <> Some e)
     /\ (forall p, present (reqPhoneNumber data) p ->
           phoneNumber c <> Some p)) ->
  identifyContact env s data =
  if fails env FindMatching || fails env CreateNewPrimary then (s, Thrown)
  else
    (s ++ [mkContact (nextId s) (orNull (reqPhoneNumber data))
             (orNull (reqEmail data)) None primary (now env) (now env) None],
     Returned (mkResponse
                 (mkContactInfo (nextId s) (optList (orNull (reqEmail data)))
                    (optList (orNull (reqPhoneNumber data))) []))).
Proof.
  intros H. unfold identifyContact, answered.
  rewrite (findMatching_nil _ _ _ _ H).
  destruct (fails env FindMatching); [reflexivity|]. cbn [orb].
  unfold createPrimary, create.
  destruct (fails env CreateNewPrimary); [reflexivity|].
  rewrite formatResponse_alone. cbn.
  now rewrite !orNull_idem.
Qed.

Lemma identifyContact_no_match_witness :
  identifyContact (mkEnv 10 true) oneContact (mkRequest bobMail phone222) =
  (oneContact ++ [row 2 bobMail phone222 None primary 10],
   Returned (mkResponse (mkContactInfo 2 ["b@x.com"%string]
                           ["222"%string] []))).
Proof.
  apply (identifyContact_no_match (mkEnv 10 true) oneContact
           (mkRequest bobMail phone222)).
  intros c [<-|[]] _. split; intros x (Hx & _); injection Hx as <-;
    discriminate.
Defined.

(** ** The novelty test *)

Lemma truthyValues_In l x :
  In x (truthyValues l) <-> exists o, In o l /\ present o x.
Proof.
  unfold truthyValues. rewrite in_flat_map. split.
  - intros (o & Ho & Hx). exists o. split; [assumption|].
    destruct (truthyStr o) eqn:E; [|destruct Hx].
    destruct o as [y|]; [|destruct Hx]. destruct Hx as [<-|[]].
    split; [reflexivity|]. cbn in E. apply negb_true_iff in E.
    now apply String.eqb_neq.
  - intros (o & Ho & -> & Hne). exists (Some x). split; [assumption|].
    cbn. apply String.eqb_neq in Hne. rewrite Hne. now left.
Qed.

Lemma setHas_existing (field : Contact -> option string) related o :
  setHas (setOfList String.eqb (truthyValues (map field related))) o = true
  <-> exists x c, o = Some x /\ x <> EmptyString /\ In c related
                  /\ field c = Some x.
Proof.
  unfold setHas. destruct o as [x|].
  - rewrite (existsb_eqb_In String.eqb String.eqb_eq). unfold setOfList.
    rewrite (fold_setAdd_In String.eqb String.eqb_eq), truthyValues_In.
    split.
    + intros [[]|(o & Ho & Hp & Hne)]. apply in_map_iff in Ho.
      destruct Ho as (c & <- & Hc). exists x, c. auto.
    + intros (y & c & [= <-] & Hne & Hc & Hf). right. exists (Some x).
      split; [rewrite <- Hf; now apply in_map | split; auto].
  - split; [discriminate | intros (x & c & [=] & _)].
Qed.

(** The request's email is new when it is present and no related contact
    holds it; likewise for the phone number. *)
Lemma isNewEmail_false related em :
  isNewEmail related em = false <->
  forall e, present em e -> exists c, In c related /\ email c = Some e.
Proof.
  unfold isNewEmail, existingEmails. split.
  - intros H e He. assert (Ht : truthyStr em = true)
      by (apply truthyStr_present; eauto).
    rewrite Ht in H. cbn in H. apply negb_false_iff in H.
    apply (setHas_existing email) in H.
    destruct H as (x & c & Hx & _ & Hc & Hf). destruct He as (He & _).
    exists c. split; [assumption | congruence].
  - intros H. destruct (truthyStr em) eqn:Ht; [|reflexivity]. cbn.
    apply negb_false_iff. apply truthyStr_present in Ht.
    destruct Ht as (e & He). destruct (H e He) as (c & Hc & Hf).
    apply (setHas_existing email). exists e, c. destruct He. auto.
Qed.

Lemma isNewPhoneNumber_false related ph :
  isNewPhoneNumber related ph = false <->
  forall p, present ph p -> exists c, In c related /\ phoneNumber c = Some p.
Proof.
  unfold isNewPhoneNumber, existingPhoneNumbers. split.
  - intros H e He. assert (Ht : truthyStr ph = true)
      by (apply truthyStr_present; eauto).
    rewrite Ht in H. cbn in H. apply negb_false_iff in H.
    apply (setHas_existing phoneNumber) in H.
    destruct H as (x & c & Hx & _ & Hc & Hf). destruct He as (He & _).
    exists c. split; [assumption | congruence].
  - intros H. destruct (truthyStr ph) eqn:Ht; [|reflexivity]. cbn.
    apply negb_false_iff. apply truthyStr_present in Ht.
    destruct Ht as (e & He). destruct (H e He) as (c & Hc & Hf).
    apply (setHas_existing phoneNumber). exists e, c. destruct He. auto.
Qed.

(** A row is created exactly when some present field of the request is
    held by no related contact: the exact-duplicate guard of line 168 never
    decides, since an exact duplicate holds both fields. *)
Lemma createsSecondary_false related em ph :
  createsSecondary related em ph = false <->
  (forall e, present em e -> exists c, In c related /\ email c = Some e)
  /\ (forall p, present ph p ->
        exists c, In c related /\ phoneNumber c = Some p).
Proof.
  rewrite <- isNewEmail_false, <- isNewPhoneNumber_false.
  unfold createsSecondary. split.
  - intros H.
    destruct (isNewEmail related em) eqn:Ee;
      destruct (isNewPhoneNumber related ph) eqn:Ep; auto; exfalso.
    all: assert (Hx : exactMatchExists related em ph = true)
      by (destruct (truthyStr em) eqn:T1; destruct (truthyStr ph) eqn:T2;
          destruct (exactMatchExists related em ph); cbn in H;
          try congruence;
          unfold isNewEmail, isNewPhoneNumber in *;
          rewrite ?T1, ?T2 in *; cbn in *; congruence).
    all: unfold exactMatchExists in Hx; apply existsb_exists in Hx;
      destruct Hx as (c & Hc & Hb); apply andb_true_iff in Hb;
      destruct Hb as (Hbe & Hbp); apply optStrEqb_eq in Hbe, Hbp.
    + assert (Hk : isNewEmail related em = false); [|congruence].
      apply isNewEmail_false. intros e He. exists c.
      rewrite Hbe. split; [assumption | now apply orNull_present].
    + assert (Hk : isNewEmail related em = false); [|congruence].
      apply isNewEmail_false. intros e He. exists c.
      rewrite Hbe. split; [assumption | now apply orNull_present].
    + assert (Hk : isNewPhoneNumber related ph = false); [|congruence].
      apply isNewPhoneNumber_false. intros e He. exists c.
      rewrite Hbp. split; [assumption | now apply orNull_present].
  - intros (-> & ->). cbn. now rewrite andb_false_r.
Qed.

(** ** A request that reaches one cluster *)

Lemma writeRow_self t c : updatedAt c = t -> writeRow t c c = c.
Proof.
  intros <-. unfold writeRow. rewrite Z.eqb_refl. now destruct c.
Qed.

Lemma writeRow_other t c r : id r <> id c -> writeRow t c r = r.
Proof.
  intros H. unfold writeRow. apply Z.eqb_neq in H. now rewrite H.
Qed.

(** Rewriting the row just created with its own columns changes nothing. *)
Lemma update_created_row env s em ph u :
  let cs := createdSecondary env s em ph u in
  updateAll (now env) (s ++ [cs]) [cs] = Some (s ++ [cs]).
Proof.
  intros cs. cbn [updateAll].
  rewrite update_defined
    by (rewrite map_app; apply in_or_app; right; now left).
  f_equal. rewrite map_app. cbn [map]. f_equal.
  - rewrite <- (map_id s) at 2. apply map_ext_in. intros r Hr.
    apply writeRow_other. apply nextId_above in Hr.
    unfold cs, createdSecondary, create. cbn [snd id]. lia.
  - f_equal. now apply writeRow_self.
Qed.

Lemma createsSecondary_related env s u em ph :
  createsSecondary (allRelatedContacts env s u []) em ph
  = createsSecondary (findRelated env s (id u)) em ph.
Proof. reflexivity. Qed.

Lemma known_in_related env s u (field : Contact -> option string) x :
  (exists c, In c (findGroup s (id u)) /\ field c = Some x) ->
  exists c, In c (findRelated env s (id u)) /\ field c = Some x.
Proof.
  intros (c & Hc & Hf). exists c.
  split; [now apply (proj2 (findRelated_In env s (id u) c)) | auto].
Qed.

Lemma related_in_group env s u (field : Contact -> option string) x :
  (exists c, In c (findRelated env s (id u)) /\ field c = Some x) ->
  exists c, In c (findGroup s (id u)) /\ field c = Some x.
Proof.
  intros (c & Hc & Hf). exists c.
  split; [now apply (proj1 (findRelated_In env s (id u) c)) | auto].
Qed.

(** With one primary resolved and every present field known, nothing is
    written. *)
Lemma single_cluster_known env s data u :
  readsAnswered env ->
  uniquePrimaryContacts env s
    (findMatching env s (reqEmail data) (reqPhoneNumber data)) = Some [u] ->
  (forall e, present (reqEmail data) e ->
     exists c, In c (findGroup s (id u)) /\ email c = Some e) ->
  (forall p, present (reqPhoneNumber data) p ->
     exists c, In c (findGroup s (id u)) /\ phoneNumber c = Some p) ->
  identifyContact env s data = (s, Returned (readBack env s u)).
Proof.
  intros Hr Hres He Hp.
  rewrite (identifyContact_single env s data u (Hr FindMatching eq_refl) Hres).
  unfold linkAndRespond. rewrite (Hr FindRelated eq_refl).
  rewrite createsSecondary_related.
  assert (E : createsSecondary (findRelated env s (id u)) (reqEmail data)
                (reqPhoneNumber data) = false).
  { apply createsSecondary_false.
    split; intros x Hx; apply known_in_related; auto. }
  rewrite E, (Hr Refetch eq_refl). reflexivity.
Qed.

(** X7: when the match set resolves to the single primary [u] and no
    database call fails, nothing is merged.  If every present field of the
    request is already held in the cluster of [u], the store is left as it
    is; otherwise the store grows by exactly one row, a secondary of [u]
    holding the request's fields, and no other row is written. *)
Theorem identifyContact_single_cluster env s data u :
  healthy env ->
  uniquePrimaryContacts env s
    (findMatching env s (reqEmail data) (reqPhoneNumber data)) = Some [u] ->
  let known :=
    (forall e, present (reqEmail data) e ->
       exists c, In c (findGroup s (id u)) /\ email c = Some e)
    /\ (forall p, present (reqPhoneNumber data) p ->
          exists c, In c (findGroup s (id u)) /\ phoneNumber c = Some p) in
  let cs := mkContact (nextId s) (orNull (reqPhoneNumber data))
              (orNull (reqEmail data)) (Some (id u)) secondary
              (now env) (now env) None in
  (known -> identifyContact env s data = (s, Returned (readBack env s u)))
  /\ (~ known ->
      identifyContact env s data
      = (s ++ [cs], Returned (readBack env (s ++ [cs]) u))).
Proof.
  intros Hh Hres known cs.
  rewrite (identifyContact_single env s data u (Hh _) Hres).
  unfold linkAndRespond. rewrite !Hh.
  rewrite createsSecondary_related.
  destruct (createsSecondary (findRelated env s (id u)) (reqEmail data)
              (reqPhoneNumber data)) eqn:E.
  - split.
    + intros (Hk1 & Hk2).
      assert (createsSecondary (findRelated env s (id u)) (reqEmail data)
                (reqPhoneNumber data) = false); [|congruence].
      apply createsSecondary_false.
      split; intros x Hx; apply known_in_related; auto.
    + intros _. unfold create. cbn [app]. unfold transaction.
      rewrite Hh.
      pose proof (update_created_row env s (reqEmail data)
                    (reqPhoneNumber data) u) as Hup.
      unfold createdSecondary, create in Hup. cbn [snd] in Hup.
      fold cs in Hup |- *. rewrite Hup. reflexivity.
  - split; [reflexivity|]. intros Hn. exfalso. apply Hn.
    apply createsSecondary_false in E. destruct E as (E1 & E2).
    split; intros x Hx; eapply related_in_group; eauto.
Qed.

Lemma identifyContact_single_cluster_witness :
  identifyContact (mkEnv 10 true) pairStore (mkRequest aliceMail None)
  = (pairStore,
     Returned (readBack (mkEnv 10 true) pairStore
                 (row 1 aliceMail None None primary 0))).
Proof.
  apply (identifyContact_single_cluster (mkEnv 10 true) pairStore
           (mkRequest aliceMail None) (row 1 aliceMail None None primary 0)).
  - apply healthy_mkEnv.
  - vm_compute. reflexivity.
  - split.
    + intros e (He & _). injection He as <-.
      exists (row 1 aliceMail None None primary 0).
      split; [vm_compute; auto | reflexivity].
    + intros p (Hp & _). discriminate.
Defined.

(** ** Where the matched rows and the request's fields end up *)

Lemma replaceById_In l u x : In x (replaceById l u) -> In x l \/ x = u.
Proof.
  induction l as [|c l IH]; cbn; [auto|].
  destruct (id c =? id u); cbn; intuition.
Qed.

Lemma reflectUpdates_In u upd : forall l x,
  In x (reflectUpdates u l upd) -> In x l \/ In x upd.
Proof.
  unfold reflectUpdates. induction upd as [|c upd IH]; cbn; intros l x H;
    [auto|].
  apply IH in H. destruct H as [H|H]; [|auto].
  destruct (id c =? id u); [auto|].
  apply replaceById_In in H. intuition.
Qed.

Lemma consolidated_member own field (cluster : Contact -> Prop) out e c :
  consolidated own field cluster out ->
  e <> EmptyString -> cluster c -> field c = Some e -> In e out.
Proof.
  intros (others & -> & _ & Hin & _) Hne Hc Hf. apply in_or_app.
  destruct (optStrEqb (Some e) own) eqn:E.
  - apply optStrEqb_eq in E. left. subst own.
    unfold orNull. cbn. apply String.eqb_neq in Hne. rewrite Hne. now left.
  - right. apply Hin. repeat split; eauto.
    intros E'. apply optStrEqb_eq in E'. congruence.
Qed.

(** With a primary resolved, a call that returns has applied its updates. *)
Lemma merge_returned env s data u rest s' r :
  wellFormed s ->
  uniquePrimaryContacts env s
    (findMatching env s (reqEmail data) (reqPhoneNumber data))
  = Some (u :: rest) ->
  identifyContact env s data = (s', Returned r) ->
  let cs := createdSecondary env s (reqEmail data) (reqPhoneNumber data) u in
  r = readBack env s' u
  /\ exists upd s1 tu,
       (forall c, In c upd <-> mergeWrites s u rest c)
       /\ ((createsSecondary (allRelatedContacts env s u upd)
              (reqEmail data) (reqPhoneNumber data) = false
            /\ s1 = s /\ tu = upd)
           \/ (createsSecondary (allRelatedContacts env s u upd)
                 (reqEmail data) (reqPhoneNumber data) = true
               /\ s1 = s ++ [cs] /\ tu = upd ++ [cs]))
       /\ updateAll (now env) s1 tu = Some s'.
Proof.
  intros Hwf Hres H cs.
  destruct (merge_outcome _ _ _ _ _ _ _ Hwf Hres H)
    as [(_ & Ho)|(upd & s1 & tu & Hupd & Hs1 & Ho)]; [discriminate|].
  destruct Ho as [(Ho & _)|(Hup & [(Ho & _)|(Ho & _)])]; try discriminate.
  injection Ho as ->. split; [reflexivity|].
  exists upd, s1, tu. auto.
Qed.

Section Joined.
Variables (s : Store) (data : IdentifyRequest) (u : Contact)
          (rest upd : list Contact) (env : Env) (s1 : Store)
          (tu : list Contact) (s2 : Store).

Let em := reqEmail data.
Let ph := reqPhoneNumber data.
Let m := findMatching env s em ph.
Let cs := createdSecondary env s em ph u.
Let related := allRelatedContacts env s u upd.

Hypothesis Hwf : wellFormed s.
Hypothesis Hres : uniquePrimaryContacts env s m = Some (u :: rest).
Hypothesis Hupd : forall c, In c upd <-> mergeWrites s u rest c.
Hypothesis Hflag :
  (createsSecondary related em ph = false
   /\ s1 = s /\ tu = upd)
  \/ (createsSecondary related em ph = true
      /\ s1 = s ++ [cs] /\ tu = upd ++ [cs]).
Hypothesis Hs2 : updateAll (now env) s1 tu = Some s2.

Lemma joined_s1 :
  (s1 = s /\ tu = upd)
  \/ (s1 = s ++ [cs] /\ tu = upd ++ [cs]).
Proof. destruct Hflag as [(_ & H)|(_ & H)]; auto. Qed.

Lemma joined_matching_live c : In c m -> In c s /\ notDeleted c = true.
Proof. apply findMatching_live. Qed.

Lemma joined_wellFormed : wellFormed s2.
Proof.
  eapply wellFormed_merged;
    eauto using joined_s1, joined_matching_live.
Qed.

Lemma joined_ultimate :
  In u s2 /\ notDeleted u = true /\ isPrimary u = true.
Proof.
  assert (In u s /\ notDeleted u = true /\ isPrimary u = true)
    as (_ & Hl & Hp)
    by (eapply resolved_live; eauto using joined_matching_live; now left).
  split; [|auto].
  eapply ultimate_kept; eauto using joined_s1, joined_matching_live.
Qed.

Lemma joined_rows : Forall2 keepsRow s1 s2.
Proof.
  assert (Hwf1 : wellFormed s1)
    by (eapply wellFormed_s1; eauto using joined_s1, joined_matching_live).
  eapply updateAll_keepsRow; eauto using wf_unique.
  assert (Hd : forall c, In c upd -> writesBack s c).
  { intros c Hc. apply Hupd in Hc.
    destruct Hc as (d & Hd & [->|(c0 & Hc0 & _ & _ & ->)]).
    - exists d. cbn. repeat split; auto.
      eapply resolved_live; eauto using joined_matching_live. now right.
    - exists c0. cbn. repeat split; auto. }
  destruct joined_s1 as [(-> & ->)|(-> & ->)]; [exact Hd|].
  intros c Hc. apply in_app_or in Hc. destruct Hc as [Hc|[<-|[]]].
  - now apply writesBack_extends, Hd.
  - apply writesBack_self, in_or_app. right. now left.
Qed.

Lemma joined_same_data r r' :
  In r s1 -> In r' s2 -> id r' = id r -> contactData r' = contactData r.
Proof.
  intros Hr Hr' Hid.
  assert (Hwf1 : wellFormed s1)
    by (eapply wellFormed_s1; eauto using joined_s1, joined_matching_live).
  destruct (Forall2_In_r _ _ _ _ joined_rows Hr') as (r0 & Hr0 & Hd & _).
  assert (r0 = r); [|congruence].
  eapply NoDup_map_id_inj; eauto using wf_unique.
  unfold contactData in Hd. injection Hd as E _ _ _ _. congruence.
Qed.

Lemma resolved_of_matched c :
  In c m -> exists p, In p (u :: rest) /\ rootId c = Some (id p).
Proof.
  intros Hc. destruct (joined_matching_live c Hc) as (Hin & Hl).
  destruct (resolved_wellFormed s c Hwf Hin Hl)
    as (p & Hp & Hps & _ & _ & Hroot).
  exists p. split; [|assumption].
  assert (Hpc : In p (resolvedAll s m)).
  { apply resolvedAll_In. exists c. rewrite Hp. cbn. auto. }
  destruct (uniqueById_covers _ _ Hpc) as (y & Hy & Hid).
  assert (Hy' : In y (u :: rest)).
  { pose proof (uniquePrimaryContacts_Some _ _ _ _ Hres) as El.
    rewrite El. now apply stableSort_In. }
  replace p with y; [assumption|].
  assert (In y s /\ notDeleted y = true /\ isPrimary y = true) as (Hys & _)
    by (eapply resolved_live; eauto using joined_matching_live).
  eapply NoDup_map_id_inj; eauto using wf_unique.
Qed.

(** Every non-deleted row of the cluster of a resolved primary ends up in
    the group of [u]. *)
Lemma cluster_joins c p :
  In c s -> notDeleted c = true ->
  In p (u :: rest) -> rootId c = Some (id p) ->
  exists c', In c' (findGroup s2 (id u))
             /\ contactData c' = contactData c.
Proof.
  intros Hin Hl Hp Hroot.
  pose proof joined_s1 as H1. pose proof joined_matching_live as Hm.
  assert (Hin1 : In c s1) by (eapply s1_extends; eauto).
  assert (exists c', In c' s2 /\ id c' = id c /\ deletedAt c' = deletedAt c
            /\ ((c' = c /\ forall x, In x tu -> id x <> id c)
                \/ ((exists x, In x tu /\ id x = id c) /\ linksTo u c')))
    as (c' & Hc' & Hid & Hdel & Hcase)
    by (eapply merged_row_of; eauto).
  exists c'. split; [|now apply joined_same_data].
  apply findGroup_In. split; [assumption|].
  split; [|unfold notDeleted in *; now rewrite Hdel].
  destruct Hcase as [[-> Hno]|[_ (Hl' & _)]]; [|now right].
  destruct Hp as [<-|Hp].
  - unfold rootId in Hroot.
    destruct (linkPrecedence c); [left; congruence | now right].
  - exfalso.
    assert (In p s /\ notDeleted p = true /\ isPrimary p = true)
      as (Hps & _ & Hpp)
      by (eapply resolved_live; eauto; now right).
    unfold rootId in Hroot. destruct (linkPrecedence c) eqn:Ep.
    + injection Hroot as Hroot.
      assert (c = p) by (eapply NoDup_map_id_inj; eauto using wf_unique).
      subst p. apply (Hno (demote u c)); [|reflexivity].
      assert (In (demote u c) upd)
        by (apply Hupd; exists c; auto).
      destruct H1 as [(_ & ->)|(_ & ->)]; [assumption|].
      apply in_or_app. now left.
    + assert (exists x, In x tu /\ id x = id c) as (x & Hx & Hxi)
        by (eapply linked_to_demoted_touched; eauto).
      now apply (Hno x).
Qed.

(** Every matched row ends up in the group of [u]. *)
Lemma matched_joins c :
  In c m ->
  exists c', In c' (findGroup s2 (id u))
             /\ contactData c' = contactData c.
Proof.
  intros Hc. destruct (joined_matching_live c Hc) as (Hin & Hl).
  destruct (resolved_of_matched c Hc) as (p & Hp & Hroot).
  eapply cluster_joins; eauto.
Qed.

(** The row created for the request ends up in the group of [u]. *)
Lemma created_joins :
  createsSecondary related em ph = true ->
  exists c', In c' (findGroup s2 (id u))
             /\ contactData c' = contactData cs.
Proof.
  intros Hf. pose proof joined_s1 as H1.
  pose proof joined_matching_live as Hm.
  assert (Hs1 : s1 = s ++ [cs])
    by (destruct Hflag as [(? & _)|(_ & ? & _)]; [congruence | assumption]).
  assert (Hin1 : In cs s1)
    by (rewrite Hs1; apply in_or_app; right; now left).
  assert (exists c', In c' s2 /\ id c' = id cs
            /\ deletedAt c' = deletedAt cs
            /\ ((c' = cs /\ forall x, In x tu -> id x <> id cs)
                \/ ((exists x, In x tu /\ id x = id cs) /\ linksTo u c')))
    as (c' & Hc' & Hid & Hdel & Hcase)
    by (eapply merged_row_of; eauto).
  exists c'. split; [|now apply joined_same_data].
  apply findGroup_In. split; [assumption|].
  split; [|unfold notDeleted; now rewrite Hdel].
  right. destruct Hcase as [[-> _]|[_ (Hl' & _)]]; [reflexivity|assumption].
Qed.

Lemma related_from_live x :
  In x related ->
  exists r, In r s /\ notDeleted r = true /\ email x = email r
            /\ phoneNumber x = phoneNumber r.
Proof.
  intros Hx. unfold related, allRelatedContacts in Hx.
  apply reflectUpdates_In in Hx. destruct Hx as [Hx|Hx].
  - apply findRelated_In, findGroup_In in Hx. exists x. tauto.
  - apply Hupd in Hx.
    destruct Hx as (d & Hd & [->|(c0 & Hc0 & Hl0 & Hn0 & ->)]).
    + assert (In d s /\ notDeleted d = true /\ isPrimary d = true)
        as (Hds & Hdl & _)
        by (eapply resolved_live; eauto using joined_matching_live;
            now right).
      exists d. auto.
    + exists c0. auto.
Qed.

(** Each present field of the request is held by a member of the group of
    [u] after the call. *)
Lemma email_in_final_group e :
  present em e ->
  exists c', In c' (findGroup s2 (id u)) /\ email c' = Some e.
Proof.
  intros He.
  assert (Hdec : createsSecondary related em ph = true
                 \/ createsSecondary related em ph = false)
    by (clear; destruct (createsSecondary related em ph); auto).
  destruct Hdec as [Ef|Ef].
  - destruct (created_joins Ef) as (c' & Hc' & Hd). exists c'.
    split; [assumption|]. unfold contactData in Hd.
    injection Hd as _ E _ _ _. rewrite E.
    unfold cs, createdSecondary, create. cbn [snd email].
    now apply orNull_present.
  - apply createsSecondary_false in Ef. destruct Ef as (Hk & _).
    destruct (Hk e He) as (x & Hx & Hxe).
    destruct (related_from_live x Hx) as (r & Hr & Hl & Er & _).
    assert (Hrm : In r m).
    { apply findMatching_In. split; [assumption|]. split; [|assumption].
      apply matchesFragment_iff. left. exists e. split; [assumption|].
      congruence. }
    destruct (matched_joins r Hrm) as (c' & Hc' & Hd). exists c'.
    split; [assumption|]. unfold contactData in Hd.
    injection Hd as _ E _ _ _. congruence.
Qed.

Lemma phone_in_final_group p :
  present ph p ->
  exists c', In c' (findGroup s2 (id u)) /\ phoneNumber c' = Some p.
Proof.
  intros Hp.
  assert (Hdec : createsSecondary related em ph = true
                 \/ createsSecondary related em ph = false)
    by (clear; destruct (createsSecondary related em ph); auto).
  destruct Hdec as [Ef|Ef].
  - destruct (created_joins Ef) as (c' & Hc' & Hd). exists c'.
    split; [assumption|]. unfold contactData in Hd.
    injection Hd as _ _ E _ _. rewrite E.
    unfold cs, createdSecondary, create. cbn [snd phoneNumber].
    now apply orNull_present.
  - apply createsSecondary_false in Ef. destruct Ef as (_ & Hk).
    destruct (Hk p Hp) as (x & Hx & Hxe).
    destruct (related_from_live x Hx) as (r & Hr & Hl & _ & Er).
    assert (Hrm : In r m).
    { apply findMatching_In. split; [assumption|]. split; [|assumption].
      apply matchesFragment_iff. right. exists p. split; [assumption|].
      congruence. }
    destruct (matched_joins r Hrm) as (c' & Hc' & Hd). exists c'.
    split; [assumption|]. unfold contactData in Hd.
    injection Hd as _ _ E _ _. congruence.
Qed.

(** Asked again on the resulting store, whatever the database then does,
    the request matches only rows of the group of [u]. *)
Variable env' : Env.

Lemma final_match_in_group c' :
  In c' (findMatching env' s2 em ph) ->
  In c' (findGroup s2 (id u)).
Proof.
  intros Hc'. apply findMatching_In in Hc'.
  destruct Hc' as (Hin & Hmatch & Hl).
  destruct (Forall2_In_r _ _ _ _ joined_rows Hin) as (r0 & Hr0 & Hd & _).
  unfold contactData in Hd. injection Hd as Ei Ee Ep _ Edel.
  assert (Hgoal : forall c'', In c'' (findGroup s2 (id u)) ->
                              contactData c'' = contactData r0 ->
                              In c' (findGroup s2 (id u))).
  { intros c'' Hc'' Hd''. replace c' with c''; [assumption|].
    apply findGroup_In in Hc''. destruct Hc'' as (Hc'' & _).
    apply (NoDup_map_id_inj s2);
      [apply wf_unique, joined_wellFormed | assumption | assumption |].
    unfold contactData in Hd''. injection Hd'' as E _ _ _ _. congruence. }
  assert (Hold : In r0 s -> In c' (findGroup s2 (id u))).
  { intros Hr0s.
    assert (Hrm : In r0 m).
    { apply findMatching_In. split; [assumption|]. split.
      - unfold matchesFragment in *. now rewrite <- Ee, <- Ep.
      - unfold notDeleted in *. now rewrite <- Edel. }
    destruct (matched_joins r0 Hrm) as (c'' & Hc'' & Hd''). eauto. }
  destruct Hflag as [(_ & Hs1 & _)|(Hf & Hs1 & _)].
  - apply Hold. now rewrite <- Hs1.
  - rewrite Hs1 in Hr0. apply in_app_or in Hr0.
    destruct Hr0 as [Hr0|[<-|[]]]; [auto|].
    destruct (created_joins Hf) as (c'' & Hc'' & Hd''). eauto.
Qed.

Lemma final_resolved c' :
  In c' (findMatching env' s2 em ph) -> resolved s2 c' = [u].
Proof.
  intros Hc'. pose proof (final_match_in_group c' Hc') as Hg.
  apply findGroup_In in Hg. destruct Hg as (Hin & Hcase & Hl).
  pose proof joined_wellFormed as Hwf2.
  destruct joined_ultimate as (Hu & Hul & Hup).
  destruct (resolved_wellFormed s2 c' Hwf2 Hin Hl)
    as (p & -> & Hp & _ & _ & Hroot).
  f_equal.
  apply (NoDup_map_id_inj s2); [apply wf_unique, Hwf2 | assumption.. |].
  unfold rootId in Hroot. destruct (linkPrecedence c') eqn:Ep.
  - destruct Hcase as [E|E]; [congruence|].
    rewrite (wf_primary_unlinked s2 Hwf2 c' Hin Ep) in E. discriminate.
  - destruct Hcase as [E|E]; [|congruence].
    assert (c' = u)
      by (apply (NoDup_map_id_inj s2); auto using wf_unique).
    subst c'. apply isPrimary_iff in Hup. congruence.
Qed.

Lemma final_matching_nonempty : findMatching env' s2 em ph <> [].
Proof.
  assert (Hne : m <> [])
    by (eapply matching_nonempty; eauto using joined_matching_live).
  assert (Hex : forall l : list Contact, l <> [] -> exists c, In c l)
    by (intros [|c l] H; [congruence | exists c; now left]).
  destruct (Hex m Hne) as (c & Hc).
  destruct (matched_joins c Hc) as (c' & Hc' & Hd).
  apply findGroup_In in Hc'. destruct Hc' as (Hin & _ & Hl).
  apply findMatching_In in Hc. destruct Hc as (_ & Hmatch & _).
  unfold contactData in Hd. injection Hd as _ Ee Ep _ _.
  assert (Hc'm : In c' (findMatching env' s2 em ph)).
  { apply findMatching_In. split; [assumption|]. split; [|assumption].
    unfold matchesFragment in *. now rewrite Ee, Ep. }
  intros E. rewrite E in Hc'm. destruct Hc'm.
Qed.

Lemma final_single :
  stableSort leCreatedAt
    (uniqueById (resolvedAll s2 (findMatching env' s2 em ph))) = [u].
Proof.
  assert (Hall : forall q, In q (resolvedAll s2 (findMatching env' s2 em ph))
                           -> q = u).
  { intros q Hq. apply resolvedAll_In in Hq.
    destruct Hq as (c & Hc & Hq). rewrite (final_resolved c Hc) in Hq.
    destruct Hq as [<-|[]]. reflexivity. }
  assert (Hu : uniqueById (resolvedAll s2 (findMatching env' s2 em ph))
               = [u]).
  { apply single_by_id.
    - apply uniqueById_NoDup.
    - intros y Hy. apply Hall, uniqueById_In, Hy.
    - destruct (findMatching env' s2 em ph) as [|c l] eqn:Em;
        [now destruct final_matching_nonempty|].
      assert (Hin : In u (resolvedAll s2 (c :: l))).
      { apply resolvedAll_In. exists c. split; [now left|].
        rewrite <- Em in *. rewrite (final_resolved c); [now left|].
        rewrite Em. now left. }
      destruct (uniqueById_covers _ _ Hin) as (y & Hy & _).
      intros E. rewrite E in Hy. destruct Hy. }
  rewrite Hu. reflexivity.
Qed.
End Joined.

(** On a well-formed store a call that returns either found no match and
    created a primary, or resolved at least one primary. *)
Lemma wellFormed_cases env s data s' r :
  wellFormed s ->
  identifyContact env s data = (s', Returned r) ->
  (findMatching env s (reqEmail data) (reqPhoneNumber data) = []
   /\ (s', Returned r)
      = createPrimary env CreateNewPrimary s (reqEmail data)
          (reqPhoneNumber data))
  \/ exists u rest,
       uniquePrimaryContacts env s
         (findMatching env s (reqEmail data) (reqPhoneNumber data))
       = Some (u :: rest).
Proof.
  intros Hwf E. apply identifyContact_inv in E. cbv zeta in E.
  destruct E as [(_ & E)|[(_ & Hm & E)|[(_ & Hne & Hplan & _)
                                        |(u0 & upd0 & _ & Hne & Hplan & _)]]];
    [discriminate | now left | right | right].
  all: destruct (plan_Some_resolves _ _ _ _ Hplan) as (l & Hl);
    destruct (wellFormed_resolves _ _ _ _ _ Hwf Hne Hl) as (u & rest & ->);
    eauto.
Qed.

(** X8: a successful call on a well-formed store merges whole clusters: every
    non-deleted row that shares the request's email or phone number, and
    every non-deleted row of the same cluster as such a row, is afterwards,
    with its data unchanged, in the cluster of the reported primary. *)
Theorem identifyContact_merges_whole_clusters env s data s' r c c2 :
  wellFormed s ->
  identifyContact env s data = (s', Returned r) ->
  In c s -> deletedAt c = None ->
  (exists e, present (reqEmail data) e /\ email c = Some e)
  \/ (exists p, present (reqPhoneNumber data) p /\ phoneNumber c = Some p) ->
  In c2 s -> deletedAt c2 = None -> rootId c2 = rootId c ->
  exists c2', In c2' (findGroup s' (primaryContatctId (contact r)))
              /\ contactData c2' = contactData c2.
Proof.
  intros Hwf E Hc Hdel Hshare Hc2 Hdel2 Hroot.
  assert (Hm : In c (findMatching env s (reqEmail data)
                       (reqPhoneNumber data))).
  { apply findMatching_In. split; [assumption|].
    split; [now apply matchesFragment_iff | now apply notDeleted_iff]. }
  destruct (wellFormed_cases _ _ _ _ _ Hwf E) as [(Hnil & _)|(u & rest & Hres)].
  - rewrite Hnil in Hm. destruct Hm.
  - destruct (merge_returned _ _ _ _ _ _ _ Hwf Hres E)
      as (-> & upd & s1 & tu & Hupd & Hflag & Hs2).
    assert (Hid : primaryContatctId (contact (readBack env s' u)) = id u).
    { eapply readBack_reports_ultimate with (s := s) (rest := rest)
        (s1 := s1) (toUpdate := tu);
        eauto using findMatching_live.
      destruct Hflag as [(_ & H)|(_ & H)]; [left | right]; exact H. }
    rewrite Hid.
    destruct (resolved_of_matched s data u rest env Hwf Hres c Hm)
      as (p & Hp & Hrp).
    eapply cluster_joins with (p := p); eauto.
    + now apply notDeleted_iff.
    + congruence.
Qed.

Lemma identifyContact_merges_whole_clusters_witness :
  exists c2',
    In c2' (findGroup
              (fst (identifyContact (mkEnv 10 true) pairStore
                      (mkRequest None phone111)))
              (primaryContatctId
                 (contact (readBack (mkEnv 10 true)
                             (fst (identifyContact (mkEnv 10 true) pairStore
                                     (mkRequest None phone111)))
                             (row 1 aliceMail None None primary 0)))))
    /\ contactData c2' = contactData (row 1 aliceMail None None primary 0).
Proof.
  apply (identifyContact_merges_whole_clusters (mkEnv 10 true) pairStore
           (mkRequest None phone111) _ _
           (row 2 aliceMail phone111 (Some 1) secondary 1)
           (row 1 aliceMail None None primary 0)).
  - apply wellFormedb_sound. reflexivity.
  - reflexivity.
  - vm_compute. auto.
  - reflexivity.
  - right. exists "111"%string. repeat split. discriminate.
  - vm_compute. auto.
  - reflexivity.
  - reflexivity.
Defined.

(** X9: the response of a successful call on a well-formed store lists the
    request's own email and phone number, whenever they are present. *)
Theorem identifyContact_lists_request env s data s' r :
  wellFormed s ->
  identifyContact env s data = (s', Returned r) ->
  (forall e, present (reqEmail data) e -> In e (emails (contact r)))
  /\ (forall p, present (reqPhoneNumber data) p ->
        In p (phoneNumbers (contact r))).
Proof.
  intros Hwf E.
  destruct (wellFormed_cases _ _ _ _ _ Hwf E) as [(_ & Ec)|(u & rest & Hres)].
  - apply createPrimary_inv in Ec.
    destruct Ec as [(_ & Ec & _)|(_ & _ & Ec)]; [discriminate|].
    injection Ec as ->.
    rewrite formatResponse_alone.
    cbn [contact emails phoneNumbers email phoneNumber].
    rewrite !orNull_idem.
    split; intros x Hx; rewrite (orNull_present _ _ Hx); now left.
  - destruct (identifyContact_lists _ _ _ _ _ Hwf E)
      as (P & HP & _ & _ & HidP & Hce & Hcp & _).
    destruct (merge_returned _ _ _ _ _ _ _ Hwf Hres E)
      as (-> & upd & s1 & tu & Hupd & Hflag & Hs2).
    assert (Hid : primaryContatctId (contact (readBack env s' u)) = id u).
    { eapply readBack_reports_ultimate with (s := s) (rest := rest)
        (s1 := s1) (toUpdate := tu);
        eauto using findMatching_live.
      destruct Hflag as [(_ & H)|(_ & H)]; [left | right]; exact H. }
    assert (Hcl : forall c, In c (findGroup s' (id u)) ->
                            inFinalCluster s' P c).
    { intros c Hc. apply findGroup_In in Hc. unfold inFinalCluster.
      rewrite notDeleted_iff in Hc. rewrite <- HidP, Hid. tauto. }
    split.
    + intros e He.
      destruct (email_in_final_group s data u rest upd env s1 tu s' Hwf Hres
                  Hupd Hflag Hs2 e He) as (c' & Hc' & Hf).
      destruct He as (_ & Hne).
      eapply consolidated_member; eauto.
    + intros p Hp.
      destruct (phone_in_final_group s data u rest upd env s1 tu s' Hwf Hres
                  Hupd Hflag Hs2 p Hp) as (c' & Hc' & Hf).
      destruct Hp as (_ & Hne).
      eapply consolidated_member; eauto.
Qed.

Lemma identifyContact_lists_request_witness :
  In "a@x.com"%string
     (emails (contact (readBack (mkEnv 10 true)
                         (fst (identifyContact (mkEnv 10 true) twoClusters
                                 (mkRequest aliceMail phone111)))
                         (row 1 aliceMail None None primary 0)))).
Proof.
  destruct (identifyContact_lists_request (mkEnv 10 true) twoClusters
              (mkRequest aliceMail phone111)
              (fst (identifyContact (mkEnv 10 true) twoClusters
                      (mkRequest aliceMail phone111)))
              (readBack (mkEnv 10 true)
                 (fst (identifyContact (mkEnv 10 true) twoClusters
                         (mkRequest aliceMail phone111)))
                 (row 1 aliceMail None None primary 0))) as (H & _).
  - apply wellFormedb_sound. reflexivity.
  - reflexivity.
  - apply H. split; [reflexivity | discriminate].
Defined.

(** ** Asking again *)

Lemma filter_nil {A} (f : A -> bool) l :
  (forall x, In x l -> f x = false) -> filter f l = [].
Proof.
  induction l as [|x l IH]; intros H; [reflexivity|]. cbn.
  rewrite (H x (or_introl eq_refl)). apply IH. intros; apply H; now right.
Qed.


Lemma orNull_truthy o : truthyStr o = true -> orNull o = o.
Proof. unfold orNull. now intros ->. Qed.

Section FreshAgain.
Variables (s : Store) (data : IdentifyRequest) (env env' : Env).

Let em := reqEmail data.
Let ph := reqPhoneNumber data.
Let fresh := mkContact (nextId s) (orNull ph) (orNull em) None primary
               (now env) (now env) None.

Hypothesis Hwf : wellFormed s.
Hypothesis Hsome : truthyStr em || truthyStr ph = true.
Hypothesis Hnil : findMatching env s em ph = [].
Hypothesis Hreads : readsAnswered env'.

Lemma fresh_matches : matchesFragment em ph fresh = true.
Proof.
  unfold matchesFragment, fresh. cbn [email phoneNumber].
  apply orb_true_iff in Hsome. apply orb_true_iff.
  destruct Hsome as [H|H]; [left | right]; rewrite H, (orNull_truthy _ H);
    cbn; now apply optStrEqb_eq.
Qed.

Lemma fresh_only_match : findMatching env' (s ++ [fresh]) em ph = [fresh].
Proof.
  unfold findMatching, handedOut in *. rewrite filter_app.
  apply stableSort_nil_inv, stableSort_nil_inv in Hnil. rewrite Hnil.
  cbn [app filter]. rewrite fresh_matches. reflexivity.
Qed.

Lemma fresh_group : findGroup (s ++ [fresh]) (id fresh) = [fresh].
Proof.
  unfold findGroup. rewrite filter_app.
  rewrite filter_nil.
  - cbn [app filter]. unfold inGroupOf. rewrite Z.eqb_refl. reflexivity.
  - intros r Hr. destruct (inGroupOf (id fresh) r) eqn:E; [|reflexivity].
    exfalso.
    assert (Hg : inFinalCluster (s ++ [fresh]) fresh r).
    { apply finalGroupContacts_cluster with (env := env).
      apply finalGroupContacts_In.
      assert (Hf : In r (findGroup (s ++ [fresh]) (id fresh))).
      { apply filter_In. split; [apply in_or_app; now left | assumption]. }
      now apply findGroup_In in Hf. }
    apply (fresh_primary_alone s r fresh Hwf eq_refl eq_refl) in Hg.
    apply nextId_above in Hr. cbn [id fresh] in Hg. unfold fresh in Hg.
    cbn [id] in Hg. lia.
Qed.

Lemma fresh_again :
  identifyContact env' (s ++ [fresh]) data
  = (s ++ [fresh], Returned (formatResponse fresh [])).
Proof.
  assert (Hu : uniquePrimaryContacts env' (s ++ [fresh])
                 (findMatching env' (s ++ [fresh]) em ph) = Some [fresh])
    by (rewrite fresh_only_match; reflexivity).
  assert (Hin : In fresh (findGroup (s ++ [fresh]) (id fresh)))
    by (rewrite fresh_group; now left).
  rewrite (single_cluster_known env' (s ++ [fresh]) data fresh Hreads Hu).
  - f_equal. f_equal. unfold readBack, finalGroupContacts, handedOut.
    rewrite fresh_group. cbn [stableSort insertSorted].
    unfold primaryInFinalGroup. cbn [find orElse].
    rewrite Z.eqb_refl. cbn [andb isPrimary linkPrecedence fresh].
    unfold formatResponse. cbn [fold_left]. unfold visit.
    rewrite Z.eqb_refl. reflexivity.
  - intros e He. exists fresh. split; [assumption|].
    unfold fresh. cbn [email]. now apply orNull_present.
  - intros p Hp. exists fresh. split; [assumption|].
    unfold fresh. cbn [phoneNumber]. now apply orNull_present.
Qed.
End FreshAgain.

Lemma idempotent_step env env' s data s' r :
  wellFormed s ->
  readsAnswered env' ->
  truthyStr (reqEmail data) || truthyStr (reqPhoneNumber data) = true ->
  identifyContact env s data = (s', Returned r) ->
  identifyContact env' s' data = (s', Returned r).
Proof.
  intros Hwf Hr Hsome E.
  destruct (wellFormed_cases _ _ _ _ _ Hwf E) as [(Hnil & Ec)|(u & rest & Hres)].
  - apply createPrimary_inv in Ec.
    destruct Ec as [(_ & Ec & _)|(_ & -> & Ec)]; [discriminate|].
    injection Ec as ->.
    eapply fresh_again; eauto.
  - destruct (merge_returned _ _ _ _ _ _ _ Hwf Hres E)
      as (-> & upd & s1 & tu & Hupd & Hflag & Hs2).
    pose proof (joined_wellFormed s data u rest upd env s1 tu s' Hwf Hres
                  Hupd Hflag Hs2) as Hwf'.
    destruct (joined_ultimate s data u rest upd env s1 tu s' Hwf Hres
                Hupd Hflag Hs2) as (Hu & Hul & Hup).
    rewrite <- (readBack_order env env' s' u Hwf' Hu Hul Hup).
    apply single_cluster_known; [assumption | | |].
    + rewrite uniquePrimaryContacts_answered
        by (intros k; now apply Hr).
      f_equal.
      exact (final_single s data u rest upd env s1 tu s' Hwf Hres Hupd Hflag
               Hs2 env').
    + intros e He.
      exact (email_in_final_group s data u rest upd env s1 tu s' Hwf Hres
               Hupd Hflag Hs2 e He).
    + intros p Hp.
      exact (phone_in_final_group s data u rest upd env s1 tu s' Hwf Hres
               Hupd Hflag Hs2 p Hp).
Qed.

(** X10: a successful call on a well-formed store, for a request with at least
    one present field, is idempotent: the same request asked again on the
    resulting store, whatever the clock then shows and in whatever order
    the database then returns its rows, as long as its queries answer,
    writes nothing and returns the same response. *)
Theorem identifyContact_idempotent env env' s data s' r :
  wellFormed s ->
  readsAnswered env' ->
  truthyStr (reqEmail data) || truthyStr (reqPhoneNumber data) = true ->
  identifyContact env s data = (s', Returned r) ->
  identifyContact env' s' data = (s', Returned r).
Proof. apply idempotent_step. Qed.


Lemma readsAnswered_backwards t : readsAnswered (backwards t).
Proof. intros call _. reflexivity. Qed.

Lemma identifyContact_idempotent_witness :
  identifyContact (backwards 20)
    (fst (identifyContact (mkEnv 10 true) twoClusters
            (mkRequest aliceMail phone111)))
    (mkRequest aliceMail phone111)
  = identifyContact (mkEnv 10 true) twoClusters
      (mkRequest aliceMail phone111).
Proof.
  apply (identifyContact_idempotent (mkEnv 10 true) (backwards 20)
           twoClusters (mkRequest aliceMail phone111)).
  - apply wellFormedb_sound. reflexivity.
  - apply readsAnswered_backwards.
  - reflexivity.
  - reflexivity.
Defined.

(** * The controller *)

(** ** Trimming and digit strings *)

Lemma trimEnd_idem s : trimEnd (trimEnd s) = trimEnd s.
Proof.
  induction s as [|a s IH]; [reflexivity|]. cbn [trimEnd].
  destruct (trimEnd s) as [|b t] eqn:E.
  - destruct (isWhiteSpace a) eqn:Ea; [reflexivity|].
    cbn [trimEnd]. now rewrite Ea.
  - cbn [trimEnd]. cbn [trimEnd] in IH. now rewrite IH.
Qed.

Lemma trimStart_head s :
  match trimStart s with
  | EmptyString => True
  | String a _ => isWhiteSpace a = false
  end.
Proof.
  induction s as [|a s IH]; [exact I|]. cbn [trimStart].
  destruct (isWhiteSpace a) eqn:E; [exact IH | exact E].
Qed.

Lemma trimEnd_head a s :
  isWhiteSpace a = false -> exists t, trimEnd (String a s) = String a t.
Proof.
  intros Ha. cbn [trimEnd]. destruct (trimEnd s); rewrite ?Ha; eauto.
Qed.

Lemma trimStart_fixed a s :
  isWhiteSpace a = false -> trimStart (String a s) = String a s.
Proof. intros Ha. cbn. now rewrite Ha. Qed.

(** [trim] is idempotent. *)
Lemma trim_idem s : trim (trim s) = trim s.
Proof.
  unfold trim. pose proof (trimStart_head s) as Hh.
  destruct (trimStart s) as [|a t]; [reflexivity|].
  destruct (trimEnd_head a t Hh) as (t' & E). rewrite E.
  rewrite (trimStart_fixed a t' Hh), <- E. apply trimEnd_idem.
Qed.

Lemma isDigit_not_space a : isDigit a = true -> isWhiteSpace a = false.
Proof.
  unfold isDigit, isWhiteSpace. cbv zeta.
  rewrite andb_true_iff, !N.leb_le. intros (H1 & H2).
  rewrite !orb_false_iff, andb_false_iff, !N.leb_gt, !N.eqb_neq. lia.
Qed.

Lemma trimEnd_digits s : allDigits s = true -> trimEnd s = s.
Proof.
  induction s as [|a s IH]; [reflexivity|]. cbn [allDigits trimEnd].
  rewrite andb_true_iff. intros (Ha & Hs). rewrite (IH Hs).
  destruct s; [|reflexivity]. now rewrite (isDigit_not_space a Ha).
Qed.

Lemma trim_digits s : allDigits s = true -> trim s = s.
Proof.
  intros H. unfold trim. destruct s as [|a s]; [reflexivity|].
  cbn [allDigits] in H. pose proof H as H'. apply andb_true_iff in H'.
  destruct H' as (Ha & _).
  rewrite (trimStart_fixed a s (isDigit_not_space a Ha)).
  apply trimEnd_digits. exact H.
Qed.

Lemma processEmail_Some v e :
  processEmail v = Some e -> e <> EmptyString /\ trim e = e.
Proof.
  unfold processEmail. destruct v as [| |s|]; try discriminate.
  destruct (String.eqb_spec (trim s) EmptyString) as [E|E]; cbn;
    [discriminate|].
  intros [= <-]. split; [assumption | apply trim_idem].
Qed.

Lemma processPhoneNumber_Some v p :
  processPhoneNumber v = Some (Some p) -> digitsOnly p = true.
Proof.
  unfold processPhoneNumber.
  destruct v as [| |s|[s|]]; try discriminate; cbn [jsString];
    destruct (digitsOnly (trim s)) eqn:E; try discriminate;
    now intros [= <-].
Qed.

Lemma truthy_processEmail v :
  truthyStr (processEmail v) = true <-> processEmail v <> None.
Proof.
  destruct (processEmail v) as [e|] eqn:E; cbn.
  - apply processEmail_Some in E. destruct E as (Hne & _).
    apply String.eqb_neq in Hne. rewrite Hne. split; [discriminate|auto].
  - split; [discriminate | congruence].
Qed.

Lemma truthy_processPhoneNumber v o :
  processPhoneNumber v = Some o -> (truthyStr o = true <-> o <> None).
Proof.
  intros E. destruct o as [p|]; cbn.
  - apply processPhoneNumber_Some in E. unfold digitsOnly in E.
    apply andb_true_iff in E. destruct E as (E & _). rewrite E.
    split; [discriminate|auto].
  - split; [discriminate | congruence].
Qed.

(** ** What reaches the service *)

Lemma identify_validates_cases env s reqBody :
  ((reqBody = None
    \/ exists body, reqBody = Some body
                    /\ jsString (rawPhoneNumber body) = None)
   /\ identify env s reqBody = (s, Escaped))
  \/ (exists body,
        reqBody = Some body
        /\ processEmail (rawEmail body) = None
        /\ processPhoneNumber (rawPhoneNumber body) = Some None
        /\ identify env s reqBody = (s, Status400 badRequestMessage))
  \/ (exists body data,
        reqBody = Some body
        /\ processed body = Some data
        /\ validRequest data
        /\ fst (identify env s reqBody) = fst (identifyContact env s data)
        /\ snd (identify env s reqBody)
           = match snd (identifyContact env s data) with
             | Returned result => Status200 result
             | Thrown => Status500
             end).
Proof.
  destruct reqBody as [body|]; [|left; auto].
  unfold identify, processed.
  destruct (processPhoneNumber (rawPhoneNumber body)) as [ph|] eqn:Eph.
  2: { left. split; [|reflexivity]. right. exists body.
       split; [reflexivity|]. unfold processPhoneNumber in Eph.
       destruct (rawPhoneNumber body) as [| |x|[x|]]; cbn in *;
         congruence. }
  right.
  destruct (truthyStr (processEmail (rawEmail body))) eqn:Ee;
    destruct (truthyStr ph) eqn:Ep; cbn [negb andb].
  4: { left. exists body. split; [reflexivity|].
       assert (processEmail (rawEmail body) = None).
       { destruct (processEmail (rawEmail body)) eqn:E; [|reflexivity].
         assert (truthyStr (processEmail (rawEmail body)) = true)
           by (apply truthy_processEmail; congruence). congruence. }
       assert (ph = None).
       { destruct ph eqn:E; [|reflexivity].
         assert (truthyStr ph = true)
           by (apply (truthy_processPhoneNumber _ _
                        (eq_trans Eph (f_equal Some (eq_sym E))));
               congruence).
         congruence. }
       subst ph. auto. }
  all: right; exists body, (mkRequest (processEmail (rawEmail body)) ph);
    split; [reflexivity|]; split; [now rewrite Eph|]; split;
    [ split;
      [ cbn [reqEmail reqPhoneNumber];
        first [ left; now apply truthy_processEmail
              | right; now apply (truthy_processPhoneNumber _ _ Eph) ]
      | cbn [reqEmail reqPhoneNumber]; split;
        [ apply processEmail_Some
        | intros p ->; now apply (processPhoneNumber_Some _ _ Eph) ] ]
    | destruct (identifyContact env s _) as [s' [r|]]; split; reflexivity ].
Qed.

(** X11: a request ends in one of three ways.  The handler throws before
    its [try] when [req.body] is undefined or null, or when [String] throws
    on the phone number: no response is sent by it and the store is not
    touched.  Or both processed fields are null: it answers 400 and the
    store is not touched.  Or it calls the service, and then only with a
    valid request: one of the two fields set, the email non-empty and
    trimmed, the phone number all digits; the store afterwards is the
    service's, and the status is 200 with the service's result, or 500 if
    the service threw. *)
Theorem identify_validates env s reqBody :
  ((reqBody = None
    \/ exists body, reqBody = Some body
                    /\ jsString (rawPhoneNumber body) = None)
   /\ identify env s reqBody = (s, Escaped))
  \/ (exists body,
        reqBody = Some body
        /\ processEmail (rawEmail body) = None
        /\ processPhoneNumber (rawPhoneNumber body) = Some None
        /\ identify env s reqBody = (s, Status400 badRequestMessage))
  \/ (exists body data,
        reqBody = Some body
        /\ processed body = Some data
        /\ validRequest data
        /\ fst (identify env s reqBody) = fst (identifyContact env s data)
        /\ snd (identify env s reqBody)
           = match snd (identifyContact env s data) with
             | Returned result => Status200 result
             | Thrown => Status500
             end).
Proof. exact (identify_validates_cases env s reqBody). Qed.

Lemma canonical_email v :
  processEmail (canonicalValue (processEmail v)) = processEmail v.
Proof.
  destruct (processEmail v) as [e|] eqn:E; [|reflexivity].
  apply processEmail_Some in E. destruct E as (Hne & Ht).
  unfold canonicalValue, processEmail. rewrite Ht.
  apply String.eqb_neq in Hne. now rewrite Hne.
Qed.

Lemma canonical_phoneNumber v o :
  processPhoneNumber v = Some o ->
  processPhoneNumber (canonicalValue o) = Some o.
Proof.
  intros E. destruct o as [p|]; [|reflexivity].
  apply processPhoneNumber_Some in E.
  assert (Ht : trim p = p).
  { apply trim_digits. unfold digitsOnly in E.
    now apply andb_true_iff in E. }
  unfold canonicalValue, processPhoneNumber. cbn [jsString].
  now rewrite Ht, E.
Qed.

(** X12: the controller does not tell a body from its processed form: a phone
    number sent as a number or padded with white space, or an email padded
    with white space, is served exactly like the trimmed string; a field
    that is rejected is served like null. *)
Theorem identify_canonical env s body :
  identify env s (Some (canonical body)) = identify env s (Some body).
Proof.
  unfold identify, canonical. cbn [rawEmail rawPhoneNumber].
  rewrite canonical_email.
  destruct (processPhoneNumber (rawPhoneNumber body)) as [o|] eqn:E.
  - now rewrite (canonical_phoneNumber _ _ E).
  - now rewrite E.
Qed.

(** ** What gets stored *)

(** Every row after a call carries the email and phone number of a row
    stored before it, or those of the request. *)
Lemma identifyContact_fields env s data c' :
  In c' (fst (identifyContact env s data)) ->
  (exists r, In r s /\ email c' = email r
             /\ phoneNumber c' = phoneNumber r)
  \/ (email c' = orNull (reqEmail data)
      /\ phoneNumber c' = orNull (reqPhoneNumber data)).
Proof.
  destruct (identifyContact env s data) as [s' o] eqn:E. cbn [fst].
  intros Hc'. destruct (identifyContact_writes _ _ _ _ _ E)
    as (extra & tu & Hex & Htu & Hs').
  assert (Hsrc : forall r, In r (s ++ extra) ->
            (exists r0, In r0 s /\ email r = email r0
                        /\ phoneNumber r = phoneNumber r0)
            \/ (email r = orNull (reqEmail data)
                /\ phoneNumber r = orNull (reqPhoneNumber data))).
  { intros r Hr. apply in_app_or in Hr. destruct Hr as [Hr|Hr];
      [left; eauto|].
    destruct Hex as [->|(l & p & ->)]; [destruct Hr|].
    destruct Hr as [<-|[]]. right. cbn. auto. }
  destruct Hs' as [(-> & _)|Hs']; [auto|].
  destruct (Forall2_In_r _ _ _ _ (updateAll_rows _ _ _ _ Hs') Hc')
    as (r & Hr & _ & _ & _ & [[-> _]|(c & Hc & _ & He & Hp & _)]);
    [auto|].
  destruct (Htu c Hc) as (r0 & Hr0 & _ & He0 & Hp0 & _).
  rewrite He, Hp, He0, Hp0. auto.
Qed.

Lemma storable_same_fields c c' :
  storable c -> email c' = email c -> phoneNumber c' = phoneNumber c ->
  storable c'.
Proof. unfold storable. intros H -> ->. exact H. Qed.

Lemma validRequest_storable data c :
  validRequest data ->
  email c = orNull (reqEmail data) ->
  phoneNumber c = orNull (reqPhoneNumber data) ->
  storable c.
Proof.
  intros (Hsome & He & Hp) Ec Epn.
  assert (He' : orNull (reqEmail data) = reqEmail data).
  { destruct (reqEmail data) as [e|] eqn:E; [|reflexivity].
    destruct (He e eq_refl) as (Hne & _). unfold orNull. cbn.
    apply String.eqb_neq in Hne. now rewrite Hne. }
  assert (Hp' : orNull (reqPhoneNumber data) = reqPhoneNumber data).
  { destruct (reqPhoneNumber data) as [p|] eqn:E; [|reflexivity].
    specialize (Hp p eq_refl). unfold digitsOnly in Hp.
    apply andb_true_iff in Hp. destruct Hp as (Hne & _).
    unfold orNull. cbn. now rewrite Hne. }
  unfold storable. rewrite Ec, Epn, He', Hp'. auto.
Qed.

Lemma identify_storable env s reqBody :
  (forall c, In c s -> storable c) ->
  forall c, In c (fst (identify env s reqBody)) -> storable c.
Proof.
  intros Hs c Hc.
  destruct (identify_validates_cases env s reqBody)
    as [(_ & E)|[(body & _ & _ & _ & E)|(body & data & _ & _ & Hv & E & _)]].
  - rewrite E in Hc. auto.
  - rewrite E in Hc. auto.
  - rewrite E in Hc. apply identifyContact_fields in Hc.
    destruct Hc as [(r & Hr & He & Hp)|(He & Hp)].
    + eapply storable_same_fields; eauto.
    + eapply validRequest_storable; eauto.
Qed.

(** X13: a request served by the controller keeps every row storable: no row
    with both fields null, no empty or untrimmed email, no phone number
    with anything but digits, whether the request was rejected, failed or
    succeeded. *)
Theorem identify_keeps_storable env s reqBody :
  (forall c, In c s -> storable c) ->
  forall c, In c (fst (identify env s reqBody)) -> storable c.
Proof. exact (identify_storable env s reqBody). Qed.

Lemma identify_keeps_storable_witness :
  storable (row 1 aliceMail phone111 None primary 10).
Proof.
  apply (identify_keeps_storable (mkEnv 10 true) []
           (Some (mkBody (JsString " a@x.com ") (JsOther (Some "111"%string))))).
  - intros c [].
  - vm_compute. auto.
Defined.

(** X14: whatever requests the controller has served on an initially
    empty table, every stored row has an email or a phone number, every stored
    email is non-empty and trimmed, and every stored phone number consists
    of digits. *)
Theorem serveAll_storable calls c :
  In c (serveAll calls []) -> storable c.
Proof.
  assert (H : forall s, (forall x, In x s -> storable x) ->
                        forall x, In x (serveAll calls s) -> storable x).
  { induction calls as [|[env body] calls IH]; intros s Hs; [exact Hs|].
    cbn. apply IH. now apply identify_storable. }
  apply H. intros x [].
Qed.

Lemma serveAll_storable_witness :
  storable (row 1 aliceMail phone111 None primary 10).
Proof.
  apply (serveAll_storable
           [(mkEnv 10 true,
             Some (mkBody (JsString " a@x.com ")
                     (JsOther (Some "111"%string))));
            (mkEnv 20 true, Some (mkBody JsNull (JsString "x")));
            (mkEnv 30 true, Some (mkBody JsNull (JsOther None)));
            (mkEnv 40 true, None)]).
  vm_compute. auto.
Defined.

(** ** Asking the controller again *)

(** X15: a body answered with status 200 on a well-formed store is answered
    with the same status and result when it is sent again, whatever the
    clock then shows and in whatever order the database then returns its
    rows, as long as its queries answer, and the second request writes
    nothing. *)
Theorem identify_twice env env' s reqBody s' result :
  wellFormed s ->
  readsAnswered env' ->
  identify env s reqBody = (s', Status200 result) ->
  identify env' s' reqBody = (s', Status200 result).
Proof.
  intros Hwf Hr H.
  destruct (identify_validates_cases env s reqBody)
    as [(_ & E)|[(body & _ & _ & _ & E)
                |(body & data & -> & Hd & (Hsome & He & Hp) & Es & Er)]];
    [congruence | congruence |].
  rewrite H in Es, Er. cbn [fst snd] in Es, Er.
  destruct (identifyContact env s data) as [s0 o] eqn:E.
  cbn [fst snd] in Es, Er. subst s0.
  destruct o as [r|]; [|discriminate]. injection Er as ->.
  unfold processed in Hd.
  destruct (processPhoneNumber (rawPhoneNumber body)) as [ph|] eqn:Eph;
    [|discriminate].
  injection Hd as <-. cbn [reqEmail reqPhoneNumber] in *.
  assert (Ht : truthyStr (processEmail (rawEmail body))
               || truthyStr ph = true).
  { apply orb_true_iff.
    destruct Hsome as [Hs|Hs]; [left | right];
      [now apply truthy_processEmail
      | now apply (truthy_processPhoneNumber _ _ Eph)]. }
  pose proof (idempotent_step env env' s
                (mkRequest (processEmail (rawEmail body)) ph) s' r Hwf Hr
                Ht E) as E'.
  unfold identify. rewrite Eph.
  apply orb_true_iff in Ht.
  replace (negb (truthyStr (processEmail (rawEmail body)))
           && negb (truthyStr ph))
    with false by (destruct Ht as [-> | ->]; cbn; auto using andb_false_r).
  now rewrite E'.
Qed.

Lemma identify_twice_witness :
  identify (backwards 20)
    (fst (identify (mkEnv 10 true) twoClusters
            (Some (mkBody (JsString "a@x.com")
                     (JsOther (Some "111"%string))))))
    (Some (mkBody (JsString "a@x.com") (JsOther (Some "111"%string))))
  = identify (mkEnv 10 true) twoClusters
      (Some (mkBody (JsString "a@x.com") (JsOther (Some "111"%string)))).
Proof.
  apply (identify_twice (mkEnv 10 true) (backwards 20) twoClusters
           (Some (mkBody (JsString "a@x.com")
                    (JsOther (Some "111"%string))))).
  - apply wellFormedb_sound. reflexivity.
  - apply readsAnswered_backwards.
  - reflexivity.
Defined.
